(** * CTChecker: clock bounds, zone-graph states with reference clocks,
      statistics and the reachability algorithm

    Shallow embedding of
    - [src/clockbounds/clockbounds.cc]   (module [clockbounds]),
    - [src/refzg/state.cc]               (modules [ta] and [refzg]),
    - [src/algorithms/stats.cc]          (module [stats]),
    - [include/tchecker/algorithms/reach/algorithm.hh]
      (modules [ts], [waiting], [graph] and [reach]),
    followed by the vocabulary of the properties (modules [*_spec]), by
    concrete inputs (module [examples]), by the properties (modules
    [*_proofs]) and by the properties on the concrete inputs (modules
    [*_examples]).

    Conventions.  A C++ [assert] that fails, an out-of-range array access
    and the dereference of a null pointer are failures of the [option]
    monad ([None]).  A C++ exception is the [Throw] of the [result] monad.
    Loops over [0 .. capacity) are left folds over [seq 0 capacity].  A
    shared pointer is an address; the objects it can point to live in a
    store.  The main loop of the algorithm need not terminate: it takes
    fuel, one unit for every evaluation of its condition. *)

From stdpp Require Import base option list gmap strings pretty.

(** [assert(b)] of <cassert>. *)
Definition assert (b : bool) : option unit := if b then Some () else None.

(** ** Clock bounds ([src/clockbounds/clockbounds.cc]) *)

Module clockbounds.

(** [tchecker::clock_id_t], [tchecker::loc_id_t]: dense unsigned identifiers. *)
Abbreviation clock_id_t := nat (only parsing).
Abbreviation loc_id_t := nat (only parsing).

(** [tchecker::clockbounds::bound_t]: a signed machine integer.  The code
    only compares and copies bounds, so no wrap-around can occur. *)
Abbreviation bound_t := Z (only parsing).

(** [tchecker::clockbounds::map_t]: an array of bounds of fixed capacity. *)
Abbreviation map_t := (list bound_t) (only parsing).
Definition capacity (m : map_t) : clock_id_t := length m.

(** [tchecker::vloc_t]: one location identifier per process. *)
Abbreviation vloc_t := (list loc_id_t) (only parsing).

Section maps.

(** The constant [NO_BOUND] is declared in [clockbounds.hh], which is not
    part of the sources at hand: it is a parameter of the development. *)
Variable NO_BOUND : bound_t.

(** [void clear(map_t & map)] *)
Definition clear (map : map_t) : map_t :=
  foldl (λ map id, <[id := NO_BOUND]> map) map (seq 0 (capacity map)).

(** [bool update(map_t & map, clock_id_t id, bound_t bound)] *)
Definition update (map : map_t) (id : clock_id_t) (bound : bound_t)
  : option (bool * map_t) :=
  _ ← assert (bool_decide (id < capacity map));
  cur ← map !! id;
  if bool_decide (bound ≤ cur)%Z then Some (false, map)
  else Some (true, <[id := bound]> map).

(** [bool update(map_t & map, map_t const & upd)] *)
Definition update_map (map upd : map_t) : option (bool * map_t) :=
  foldl (λ (acc : option (bool * map_t)) (id : clock_id_t),
           '(modified, map) ← acc;
           bound ← upd !! id;
           '(grew, map) ← update map id bound;
           Some (if (grew : bool) then true else modified, map))
        (Some (false, map)) (seq 0 (capacity map)).

(** Dereference of an entry of a [std::vector<map_t *>]. *)
Definition deref (v : list (option map_t)) (id : loc_id_t) : option map_t :=
  mjoin (v !! id).

(** An entry of a [std::vector<map_t *>] that points to an array of
    capacity [clock_nb]. *)
Definition allocated (clock_nb : clock_id_t) (a : option map_t) : bool :=
  match a with
  | Some m => bool_decide (capacity m = clock_nb)
  | None => false
  end.

(** [std::vector<T>::resize(n, nullptr)] after [clear()]. *)
Definition null_vector (n : nat) : list (option map_t) := replicate n None.

(** [allocate_map(clock_nb)]: a fresh array, cleared. *)
Definition allocate_map (clock_nb : clock_id_t) : map_t :=
  clear (replicate clock_nb 0%Z).

(** [std::endl] *)
Definition endl : string := String (Ascii.ascii_of_nat 10) "".

(** A write [map[id] = bound] into an array; it fails out of range. *)
Definition write (map : map_t) (id : clock_id_t) (bound : bound_t) : option map_t :=
  if bool_decide (id < capacity map) then Some (<[id := bound]> map) else None.

(** [map_t * clone_map(map_t const & m)] *)
Definition clone_map (m : map_t) : option map_t :=
  foldl (λ (acc : option map_t) (id : clock_id_t),
           clone ← acc;
           bound ← m !! id;
           write clone id bound)
        (Some (allocate_map (capacity m))) (seq 0 (capacity m)).

(** [std::ostream & operator<<(std::ostream & os, map_t const & map)]: the
    characters appended to the stream. *)
Definition output_map (os : string) (map : map_t) : option string :=
  foldl (λ (acc : option string) (i : nat),
           os ← acc;
           let os := if bool_decide (i ≠ 0) then os +:+ "," else os in
           bound ← map !! i;
           if bool_decide (bound = NO_BOUND) then Some (os +:+ ".")
           else Some (os +:+ pretty bound))
        (Some os) (seq 0 (capacity map)).

(** A member [map_t * _L] of the maps that do not depend on the location:
    null, pointing to an array, or pointing to an array that has been
    deallocated. *)
Inductive pointer_t :=
  | null
  | live (m : map_t)
  | dangling.

(** Dereference of such a pointer. *)
Definition target (p : pointer_t) : option map_t :=
  match p with
  | live m => Some m
  | null | dangling => None
  end.

(** [deallocate_map(p)]: the array is destructed through the pointer, which
    has to point to one; the pointer itself keeps its value, and dangles. *)
Definition deallocate_map (p : pointer_t) : option pointer_t :=
  _ ← target p;
  Some dangling.

End maps.

Module local_lu_map_t.
Section local_lu_map_t.

Variable NO_BOUND : bound_t.

Record t := mk {
  _loc_nb : loc_id_t;
  _clock_nb : clock_id_t;
  _L : list (option map_t);
  _U : list (option map_t)
}.

(** [void local_lu_map_t::resize(loc_nb, clock_nb)] *)
Definition resize (loc_nb : loc_id_t) (clock_nb : clock_id_t) : t :=
  let L := null_vector loc_nb in
  let U := null_vector loc_nb in
  if bool_decide (0 < clock_nb) then
    let '(L, U) :=
      foldl (λ '(L, U) (id : loc_id_t),
               (<[id := Some (clear NO_BOUND (allocate_map NO_BOUND clock_nb))]> L,
                <[id := Some (clear NO_BOUND (allocate_map NO_BOUND clock_nb))]> U))
            (L, U) (seq 0 loc_nb) in
    mk loc_nb clock_nb L U
  else mk loc_nb clock_nb L U.

(** [void local_lu_map_t::bounds(loc_id_t id, map_t & L, map_t & U) const] *)
Definition bounds_loc (m : t) (id : loc_id_t) (L U : map_t)
  : option (map_t * map_t) :=
  _ ← assert (bool_decide (id < _loc_nb m));
  _ ← assert (bool_decide (0 < _clock_nb m));
  _ ← assert (bool_decide (capacity L = _clock_nb m));
  _ ← assert (bool_decide (capacity U = _clock_nb m));
  let L := clear NO_BOUND L in
  let U := clear NO_BOUND U in
  Lid ← deref (_L m) id;
  '(_, L) ← update_map L Lid;
  Uid ← deref (_U m) id;
  '(_, U) ← update_map U Uid;
  Some (L, U).

(** [void local_lu_map_t::bounds(vloc_t const & vloc, map_t & L, map_t & U) const];
    the loop variable over the locations of [vloc] is declared with the
    type of clock identifiers there, and with the type of location
    identifiers in [local_m_map_t]: both are unsigned identifiers. *)
Definition bounds (m : t) (vloc : vloc_t) (L U : map_t)
  : option (map_t * map_t) :=
  _ ← assert (bool_decide (0 < _clock_nb m));
  _ ← assert (bool_decide (capacity L = _clock_nb m));
  _ ← assert (bool_decide (capacity U = _clock_nb m));
  let L := clear NO_BOUND L in
  let U := clear NO_BOUND U in
  foldl (λ (acc : option (map_t * map_t)) (id : loc_id_t),
           '(L, U) ← acc;
           _ ← assert (bool_decide (id < _loc_nb m));
           Lid ← deref (_L m) id;
           '(_, L) ← update_map L Lid;
           Uid ← deref (_U m) id;
           '(_, U) ← update_map U Uid;
           Some (L, U))
        (Some (L, U)) vloc.

(** Class invariant established by [resize] and kept by the accessors
    [L(id)], [U(id)]: one allocated array of capacity [_clock_nb] per
    location. *)
Definition wf (m : t) : Prop :=
  length (_L m) = _loc_nb m ∧ length (_U m) = _loc_nb m ∧
  Forall (λ a, allocated (_clock_nb m) a = true) (_L m) ∧
  Forall (λ a, allocated (_clock_nb m) a = true) (_U m).

(** [loc_id_t local_lu_map_t::loc_number() const] *)
Definition loc_number (m : t) : loc_id_t := _loc_nb m.

(** [clock_id_t local_lu_map_t::clock_number() const] *)
Definition clock_number (m : t) : clock_id_t := _clock_nb m.

(** [map_t const & local_lu_map_t::L(loc_id_t id) const] *)
Definition L (m : t) (id : loc_id_t) : option map_t :=
  _ ← assert (bool_decide (id < _loc_nb m));
  _ ← assert (bool_decide (0 < _clock_nb m));
  deref (_L m) id.

(** [map_t const & local_lu_map_t::U(loc_id_t id) const] *)
Definition U (m : t) (id : loc_id_t) : option map_t :=
  _ ← assert (bool_decide (id < _loc_nb m));
  _ ← assert (bool_decide (0 < _clock_nb m));
  deref (_U m) id.

(** [void local_lu_map_t::clear()]: the arrays are deallocated through the
    entries [_L[id]] and [_U[id]], which have to point to arrays. *)
Definition clear (m : t) : option t :=
  _ ← (if bool_decide (0 < _clock_nb m) then
         foldl (λ (acc : option unit) (id : loc_id_t),
                  _ ← acc;
                  _ ← deref (_L m) id;
                  _ ← deref (_U m) id;
                  Some ())
               (Some ()) (seq 0 (_loc_nb m))
       else Some ());
  Some (mk 0 0 [] []).

(** [local_lu_map_t::local_lu_map_t(local_lu_map_t const & m)] *)
Definition copy (m : t) : option t :=
  let L := null_vector (_loc_nb m) in
  let U := null_vector (_loc_nb m) in
  if bool_decide (0 < _clock_nb m) then
    '(L, U) ← foldl (λ (acc : option (list (option map_t) * list (option map_t)))
                       (id : loc_id_t),
                       '(L, U) ← acc;
                       Lid ← deref (_L m) id;
                       Lclone ← clone_map NO_BOUND Lid;
                       Uid ← deref (_U m) id;
                       Uclone ← clone_map NO_BOUND Uid;
                       Some (<[id := Some Lclone]> L, <[id := Some Uclone]> U))
                    (Some (L, U)) (seq 0 (_loc_nb m));
    Some (mk (_loc_nb m) (_clock_nb m) L U)
  else Some (mk (_loc_nb m) (_clock_nb m) L U).

(** [local_lu_map_t::local_lu_map_t(local_lu_map_t && m)]: the object
    constructed, and [m] afterwards.  The two assignments of zero in the
    body of the constructor are to the members of the object constructed:
    they are not qualified by [m]. *)
Definition move (m : t) : t * t :=
  let this := mk (_loc_nb m) (_clock_nb m) (_L m) (_U m) in
  let m := mk (_loc_nb m) (_clock_nb m) [] [] in
  let this := mk 0 0 (_L this) (_U this) in
  (this, m).

(** [local_lu_map_t & local_lu_map_t::operator=(local_lu_map_t && m)], for
    two distinct objects: the object assigned to, and [m] afterwards. *)
Definition move_assign (this m : t) : option (t * t) :=
  _ ← clear this;
  let this := mk (_loc_nb m) (_clock_nb m) (_L m) (_U m) in
  let m := mk 0 0 [] [] in
  Some (this, m).

(** [local_lu_map_t & local_lu_map_t::operator=(local_lu_map_t const & m)],
    for two distinct objects. *)
Definition copy_assign (this m : t) : option t :=
  _ ← clear this;
  copy m.

(** [std::ostream & operator<<(std::ostream & os, local_lu_map_t const & map)] *)
Definition output (os : string) (map : t) : option string :=
  if bool_decide (clock_number map = 0) then Some (os +:+ "no clock" +:+ endl)
  else
    let loc_nb := loc_number map in
    foldl (λ (acc : option string) (l : loc_id_t),
             os ← acc;
             let os := os +:+ pretty l +:+ ": L=" in
             Ll ← L map l;
             os ← output_map NO_BOUND os Ll;
             let os := os +:+ " U=" in
             Ul ← U map l;
             os ← output_map NO_BOUND os Ul;
             Some (os +:+ endl))
          (Some os) (seq 0 loc_nb).

End local_lu_map_t.
End local_lu_map_t.

Module local_m_map_t.
Section local_m_map_t.

Variable NO_BOUND : bound_t.

Record t := mk {
  _loc_nb : loc_id_t;
  _clock_nb : clock_id_t;
  _M : list (option map_t)
}.

(** [void local_m_map_t::resize(loc_nb, clock_nb)] *)
Definition resize (loc_nb : loc_id_t) (clock_nb : clock_id_t) : t :=
  let M := null_vector loc_nb in
  if bool_decide (0 < clock_nb) then
    mk loc_nb clock_nb
       (foldl (λ M id, <[id := Some (clear NO_BOUND (allocate_map NO_BOUND clock_nb))]> M)
              M (seq 0 loc_nb))
  else mk loc_nb clock_nb M.

(** [void local_m_map_t::bounds(loc_id_t id, map_t & M) const] *)
Definition bounds_loc (m : t) (id : loc_id_t) (M : map_t) : option map_t :=
  _ ← assert (bool_decide (0 < _clock_nb m));
  _ ← assert (bool_decide (id < _loc_nb m));
  _ ← assert (bool_decide (capacity M = _clock_nb m));
  let M := clear NO_BOUND M in
  Mid ← deref (_M m) id;
  '(_, M) ← update_map M Mid;
  Some M.

(** [void local_m_map_t::bounds(vloc_t const & vloc, map_t & M) const] *)
Definition bounds (m : t) (vloc : vloc_t) (M : map_t) : option map_t :=
  _ ← assert (bool_decide (0 < _clock_nb m));
  _ ← assert (bool_decide (capacity M = _clock_nb m));
  let M := clear NO_BOUND M in
  foldl (λ (acc : option map_t) (id : loc_id_t),
           M ← acc;
           _ ← assert (bool_decide (id < _loc_nb m));
           Mid ← deref (_M m) id;
           '(_, M) ← update_map M Mid;
           Some M)
        (Some M) vloc.

Definition wf (m : t) : Prop :=
  length (_M m) = _loc_nb m ∧
  Forall (λ a, allocated (_clock_nb m) a = true) (_M m).

(** [loc_id_t local_m_map_t::loc_number() const] *)
Definition loc_number (m : t) : loc_id_t := _loc_nb m.

(** [clock_id_t local_m_map_t::clock_number() const] *)
Definition clock_number (m : t) : clock_id_t := _clock_nb m.

(** [map_t const & local_m_map_t::M(loc_id_t id) const] *)
Definition M (m : t) (id : loc_id_t) : option map_t :=
  _ ← assert (bool_decide (0 < _clock_nb m));
  _ ← assert (bool_decide (id < _loc_nb m));
  deref (_M m) id.

(** [void local_m_map_t::clear()] *)
Definition clear (m : t) : option t :=
  _ ← (if bool_decide (0 < _clock_nb m) then
         foldl (λ (acc : option unit) (id : loc_id_t),
                  _ ← acc;
                  _ ← deref (_M m) id;
                  Some ())
               (Some ()) (seq 0 (_loc_nb m))
       else Some ());
  Some (mk 0 0 []).

(** [local_m_map_t::local_m_map_t(local_m_map_t const & m)] *)
Definition copy (m : t) : option t :=
  let M := null_vector (_loc_nb m) in
  if bool_decide (0 < _clock_nb m) then
    M ← foldl (λ (acc : option (list (option map_t))) (id : loc_id_t),
                 M ← acc;
                 Mid ← deref (_M m) id;
                 Mclone ← clone_map NO_BOUND Mid;
                 Some (<[id := Some Mclone]> M))
              (Some M) (seq 0 (_loc_nb m));
    Some (mk (_loc_nb m) (_clock_nb m) M)
  else Some (mk (_loc_nb m) (_clock_nb m) M).

(** [local_m_map_t::local_m_map_t(local_m_map_t && m)]: the object
    constructed, and [m] afterwards. *)
Definition move (m : t) : t * t :=
  let this := mk (_loc_nb m) (_clock_nb m) (_M m) in
  let m := mk 0 0 [] in
  (this, m).

End local_m_map_t.
End local_m_map_t.

(** The maps that do not depend on the location. *)
Module global_lu_map_t.
Section global_lu_map_t.

Variable NO_BOUND : bound_t.

Record t := mk {
  _clock_nb : clock_id_t;
  _L : pointer_t;
  _U : pointer_t
}.

(** The members before the body of the constructor
    [global_lu_map_t(clock_nb)], which calls [resize]. *)
Definition init : t := mk 0 null null.

(** [void global_lu_map_t::clear()]: the two pointers are not reset. *)
Definition clear (m : t) : option t :=
  if bool_decide (0 < _clock_nb m) then
    L ← deallocate_map (_L m);
    U ← deallocate_map (_U m);
    Some (mk 0 L U)
  else Some (mk 0 (_L m) (_U m)).

(** [void global_lu_map_t::resize(clock_id_t clock_nb)] *)
Definition resize (m : t) (clock_nb : clock_id_t) : option t :=
  m ← clear m;
  if bool_decide (0 < clock_nb) then
    Some (mk clock_nb
            (live (clockbounds.clear NO_BOUND (allocate_map NO_BOUND clock_nb)))
            (live (clockbounds.clear NO_BOUND (allocate_map NO_BOUND clock_nb))))
  else Some (mk clock_nb (_L m) (_U m)).

(** [clock_id_t global_lu_map_t::clock_number() const] *)
Definition clock_number (m : t) : clock_id_t := _clock_nb m.

(** [map_t const & global_lu_map_t::L(void) const] *)
Definition L (m : t) : option map_t :=
  _ ← assert (bool_decide (0 < _clock_nb m));
  target (_L m).

(** [map_t const & global_lu_map_t::U(void) const] *)
Definition U (m : t) : option map_t :=
  _ ← assert (bool_decide (0 < _clock_nb m));
  target (_U m).

(** [void global_lu_map_t::bounds(map_t & L, map_t & U) const] *)
Definition bounds (m : t) (L U : map_t) : option (map_t * map_t) :=
  _ ← assert (bool_decide (0 < _clock_nb m));
  _ ← assert (bool_decide (capacity L = _clock_nb m));
  _ ← assert (bool_decide (capacity U = _clock_nb m));
  let L := clockbounds.clear NO_BOUND L in
  let U := clockbounds.clear NO_BOUND U in
  mL ← target (_L m);
  '(_, L) ← update_map L mL;
  mU ← target (_U m);
  '(_, U) ← update_map U mU;
  Some (L, U).

(** [void global_lu_map_t::bounds(loc_id_t id, map_t & L, map_t & U) const] *)
Definition bounds_loc (m : t) (id : loc_id_t) (L U : map_t)
  : option (map_t * map_t) :=
  bounds m L U.

(** [void global_lu_map_t::bounds(vloc_t const & vloc, map_t & L, map_t & U) const] *)
Definition bounds_vloc (m : t) (vloc : vloc_t) (L U : map_t)
  : option (map_t * map_t) :=
  bounds m L U.

(** [global_lu_map_t::global_lu_map_t(global_lu_map_t const & m)] *)
Definition copy (m : t) : option t :=
  if bool_decide (0 < _clock_nb m) then
    mL ← target (_L m);
    L ← clone_map NO_BOUND mL;
    mU ← target (_U m);
    U ← clone_map NO_BOUND mU;
    Some (mk (_clock_nb m) (live L) (live U))
  else Some (mk (_clock_nb m) null null).

(** [global_lu_map_t::global_lu_map_t(global_lu_map_t && m)]: the object
    constructed, and [m] afterwards. *)
Definition move (m : t) : t * t :=
  (mk (_clock_nb m) (_L m) (_U m), mk 0 null null).

End global_lu_map_t.
End global_lu_map_t.

Module global_m_map_t.
Section global_m_map_t.

Variable NO_BOUND : bound_t.

Record t := mk {
  _clock_nb : clock_id_t;
  _M : pointer_t
}.

(** The members before the body of the constructor
    [global_m_map_t(clock_nb)], which calls [resize]. *)
Definition init : t := mk 0 null.

(** [void global_m_map_t::clear()] *)
Definition clear (m : t) : option t :=
  _ ← (if bool_decide (0 < _clock_nb m) then deallocate_map (_M m)
       else Some (_M m));
  Some (mk 0 null).

(** [void global_m_map_t::resize(clock_id_t clock_nb)] *)
Definition resize (m : t) (clock_nb : clock_id_t) : option t :=
  m ← clear m;
  if bool_decide (0 < clock_nb) then
    Some (mk clock_nb
            (live (clockbounds.clear NO_BOUND (allocate_map NO_BOUND clock_nb))))
  else Some (mk clock_nb (_M m)).

(** [clock_id_t global_m_map_t::clock_number() const] *)
Definition clock_number (m : t) : clock_id_t := _clock_nb m.

(** [map_t const & global_m_map_t::M(void) const] *)
Definition M (m : t) : option map_t :=
  _ ← assert (bool_decide (0 < _clock_nb m));
  target (_M m).

(** [void global_m_map_t::bounds(map_t & M) const]: the capacity of [M]
    is not asserted here. *)
Definition bounds (m : t) (M : map_t) : option map_t :=
  _ ← assert (bool_decide (0 < _clock_nb m));
  let M := clockbounds.clear NO_BOUND M in
  mM ← target (_M m);
  '(_, M) ← update_map M mM;
  Some M.

(** [void global_m_map_t::bounds(loc_id_t id, map_t & M) const] *)
Definition bounds_loc (m : t) (id : loc_id_t) (M : map_t) : option map_t :=
  bounds m M.

(** [void global_m_map_t::bounds(vloc_t const & vloc, map_t & M) const] *)
Definition bounds_vloc (m : t) (vloc : vloc_t) (M : map_t) : option map_t :=
  bounds m M.

End global_m_map_t.
End global_m_map_t.

(** [class clockbounds_t]: the four maps together. *)
Module clockbounds_t.
Section clockbounds_t.

Variable NO_BOUND : bound_t.

Record t := mk {
  global_lu : global_lu_map_t.t;
  global_m : global_m_map_t.t;
  local_lu : local_lu_map_t.t;
  local_m : local_m_map_t.t
}.

(** [void clockbounds_t::clear()] *)
Definition clear (c : t) : option t :=
  glu ← global_lu_map_t.clear (global_lu c);
  llu ← local_lu_map_t.clear (local_lu c);
  gm ← global_m_map_t.clear (global_m c);
  lm ← local_m_map_t.clear (local_m c);
  Some (mk glu gm llu lm).

(** [void clockbounds_t::resize(loc_id_t loc_nb, clock_id_t clock_nb)]; the
    two maps that depend on the location are cleared first, as their own
    [resize] does. *)
Definition resize (c : t) (loc_nb : loc_id_t) (clock_nb : clock_id_t) : option t :=
  glu ← global_lu_map_t.resize NO_BOUND (global_lu c) clock_nb;
  _ ← local_lu_map_t.clear (local_lu c);
  let llu := local_lu_map_t.resize NO_BOUND loc_nb clock_nb in
  gm ← global_m_map_t.resize NO_BOUND (global_m c) clock_nb;
  _ ← local_m_map_t.clear (local_m c);
  let lm := local_m_map_t.resize NO_BOUND loc_nb clock_nb in
  Some (mk glu gm llu lm).

(** [clockbounds_t::clockbounds_t(loc_id_t loc_nb, clock_id_t clock_nb)]:
    the four constructors, each of which resizes an empty map. *)
Definition make (loc_nb : loc_id_t) (clock_nb : clock_id_t) : option t :=
  glu ← global_lu_map_t.resize NO_BOUND global_lu_map_t.init clock_nb;
  gm ← global_m_map_t.resize NO_BOUND global_m_map_t.init clock_nb;
  let llu := local_lu_map_t.resize NO_BOUND loc_nb clock_nb in
  let lm := local_m_map_t.resize NO_BOUND loc_nb clock_nb in
  Some (mk glu gm llu lm).

End clockbounds_t.
End clockbounds_t.

End clockbounds.

(** ** Zone-graph states with reference clocks ([src/refzg/state.cc]) *)

(** Addresses of shared objects; [nullptr] is address zero. *)
Abbreviation ptr_t := N (only parsing).
Definition nullptr : ptr_t := 0%N.

(** [std::size_t] *)
Abbreviation size_t := Z (only parsing).

Module ta.
Section state.

(** The contents of a tuple of locations and of a valuation of the
    bounded integer variables. *)
Context {vloc_t intval_t : Type}.
Context `{EqDecision vloc_t, EqDecision intval_t}.

(** The pools of shared tuples of locations and integer valuations:
    shared objects are immutable, a pointer is dereferenced by looking
    its address up. *)
Record store_t := mk_store {
  vloc_at : ptr_t → vloc_t;
  intval_at : ptr_t → intval_t
}.

(** Modelled from the spec: [tchecker::ta::state_t] ([tchecker/ta/state.hh]
    is not part of the sources at hand) holds the two shared pointers that
    the constructors of [refzg::state_t] pass to it. *)
Record state_t := mk {
  vloc_ptr : ptr_t;
  intval_ptr : ptr_t
}.

Definition vloc (st : store_t) (s : state_t) : vloc_t := vloc_at st (vloc_ptr s).
Definition intval (st : store_t) (s : state_t) : intval_t := intval_at st (intval_ptr s).

(** Modelled from the spec: [tchecker::ta::operator==], equality of the
    tuples of locations and of the integer valuations, by content. *)
Definition op_eq (st : store_t) (s1 s2 : state_t) : bool :=
  bool_decide (vloc st s1 = vloc st s2) && bool_decide (intval st s1 = intval st s2).

(** Modelled from the spec: [tchecker::ta::shared_equal_to], equality of
    the handles (pointers) of the two components. *)
Definition shared_equal_to (s1 s2 : state_t) : bool :=
  bool_decide (vloc_ptr s1 = vloc_ptr s2) && bool_decide (intval_ptr s1 = intval_ptr s2).

End state.
Global Arguments store_t : clear implicits.
End ta.

Module refzg.
Section state.

Context {vloc_t intval_t zone_t : Type}.
Context `{EqDecision vloc_t, EqDecision intval_t, EqDecision zone_t}.

(** Operations of [tchecker::refzg::zone_t] ([refzg/zone.hh], not part of
    the sources at hand): inclusion [operator<=] and the three abstract
    inclusions with respect to clock bounds [l] and [u].  Equality of
    zones [operator==] is equality by content. *)
Variable zone_le : zone_t → zone_t → bool.
Variable zone_is_alu_star_le :
  zone_t → zone_t → clockbounds.map_t → clockbounds.map_t → bool.
Variable zone_is_time_elapse_alu_star_le :
  zone_t → zone_t → clockbounds.map_t → clockbounds.map_t → bool.
Variable zone_is_sync_alu_le :
  zone_t → zone_t → clockbounds.map_t → clockbounds.map_t → bool.

(** Hash functions that [state.cc] calls and does not define: the two
    hashes of the [ta] layer, the hash of a zone (by content), the hash
    of a shared pointer, and [boost::hash_combine] seen as a function
    from the seed and the hash of the value to the new seed. *)
Variable ta_hash_value : ta.store_t vloc_t intval_t → ta.state_t → size_t.
Variable ta_shared_hash_value : ta.state_t → size_t.
Variable zone_hash_value : zone_t → size_t.
Variable ptr_hash_value : ptr_t → size_t.
Variable hash_combine : size_t → size_t → size_t.

Record store_t := mk_store {
  ta_store :> ta.store_t vloc_t intval_t;
  zone_at : ptr_t → zone_t
}.

(** [class state_t : public tchecker::ta::state_t] with the member [_zone]. *)
Record state_t := mk {
  ta_state :> ta.state_t;
  zone_ptr : ptr_t
}.

(** [state_t::state_t(vloc, intval, zone)] *)
Definition make (vloc intval zone : ptr_t) : option state_t :=
  _ ← assert (bool_decide (zone ≠ nullptr));
  Some (mk (ta.mk vloc intval) zone).

Definition zone (st : store_t) (s : state_t) : zone_t := zone_at st (zone_ptr s).

(** [bool operator==(state_t const & s1, state_t const & s2)] *)
Definition op_eq (st : store_t) (s1 s2 : state_t) : bool :=
  ta.op_eq st s1 s2 && bool_decide (zone st s1 = zone st s2).

(** [bool operator!=(state_t const & s1, state_t const & s2)] *)
Definition op_ne (st : store_t) (s1 s2 : state_t) : bool :=
  negb (op_eq st s1 s2).

(** [bool shared_equal_to(state_t const & s1, state_t const & s2)] *)
Definition shared_equal_to (s1 s2 : state_t) : bool :=
  ta.shared_equal_to s1 s2 && bool_decide (zone_ptr s1 = zone_ptr s2).

(** [bool operator<=(state_t const & s1, state_t const & s2)] *)
Definition op_le (st : store_t) (s1 s2 : state_t) : bool :=
  ta.op_eq st s1 s2 && zone_le (zone st s1) (zone st s2).

(** [bool shared_is_le(state_t const & s1, state_t const & s2)] *)
Definition shared_is_le (st : store_t) (s1 s2 : state_t) : bool :=
  ta.shared_equal_to s1 s2 &&
  (bool_decide (zone_ptr s1 = zone_ptr s2) || zone_le (zone st s1) (zone st s2)).

Definition is_alu_star_le (st : store_t) (s1 s2 : state_t)
    (l u : clockbounds.map_t) : bool :=
  ta.op_eq st s1 s2 && zone_is_alu_star_le (zone st s1) (zone st s2) l u.

Definition shared_is_alu_star_le (st : store_t) (s1 s2 : state_t)
    (l u : clockbounds.map_t) : bool :=
  ta.shared_equal_to s1 s2 &&
  (bool_decide (zone_ptr s1 = zone_ptr s2)
   || zone_is_alu_star_le (zone st s1) (zone st s2) l u).

Definition is_time_elapse_alu_star_le (st : store_t) (s1 s2 : state_t)
    (l u : clockbounds.map_t) : bool :=
  ta.op_eq st s1 s2 &&
  zone_is_time_elapse_alu_star_le (zone st s1) (zone st s2) l u.

Definition shared_is_time_elapse_alu_star_le (st : store_t) (s1 s2 : state_t)
    (l u : clockbounds.map_t) : bool :=
  ta.shared_equal_to s1 s2 &&
  (bool_decide (zone_ptr s1 = zone_ptr s2)
   || zone_is_time_elapse_alu_star_le (zone st s1) (zone st s2) l u).

Definition is_sync_alu_le (st : store_t) (s1 s2 : state_t)
    (l u : clockbounds.map_t) : bool :=
  ta.op_eq st s1 s2 && zone_is_sync_alu_le (zone st s1) (zone st s2) l u.

Definition shared_is_sync_alu_le (st : store_t) (s1 s2 : state_t)
    (l u : clockbounds.map_t) : bool :=
  ta.shared_equal_to s1 s2 &&
  (bool_decide (zone_ptr s1 = zone_ptr s2)
   || zone_is_sync_alu_le (zone st s1) (zone st s2) l u).

(** [std::size_t hash_value(state_t const & s)] *)
Definition hash_value (st : store_t) (s : state_t) : size_t :=
  let h := ta_hash_value st s in
  let h := hash_combine h (zone_hash_value (zone st s)) in
  h.

(** [std::size_t shared_hash_value(state_t const & s)] *)
Definition shared_hash_value (s : state_t) : size_t :=
  let h := ta_shared_hash_value s in
  let h := hash_combine h (ptr_hash_value (zone_ptr s)) in
  h.

(** The two lexical comparisons that [state.cc] calls and does not
    define: [tchecker::ta::lexical_cmp] and [zone_t::lexical_cmp], with
    values of type [int]. *)
Variable ta_lexical_cmp : ta.store_t vloc_t intval_t → ta.state_t → ta.state_t → Z.
Variable zone_lexical_cmp : zone_t → zone_t → Z.

(** [int lexical_cmp(state_t const & s1, state_t const & s2)] *)
Definition lexical_cmp (st : store_t) (s1 s2 : state_t) : Z :=
  let ta_cmp := ta_lexical_cmp st s1 s2 in
  if bool_decide (ta_cmp ≠ 0%Z) then ta_cmp
  else zone_lexical_cmp (zone st s1) (zone st s2).

End state.
Global Arguments store_t : clear implicits.
End refzg.

(** ** Statistics ([src/algorithms/stats.cc]) *)

Module stats.

(** A reading of [std::chrono::steady_clock], in ticks. *)
Abbreviation time_point_t := Z (only parsing).

Section stats.

(** What the environment answers: the printed form of a running time
    (the conversion of a tick count to a [double] number of seconds and
    its formatting are not modelled) and the result of [getrusage],
    [None] when the call fails. *)
Variable show_seconds : Z → string.
Variable ru_maxrss : option Z.

Record stats_t := mk {
  _start_time : time_point_t;
  _end_time : time_point_t
}.

Definition set_start_time (s : stats_t) (now : time_point_t) : stats_t :=
  mk now (_end_time s).

Definition start_time (s : stats_t) : time_point_t := _start_time s.

Definition set_end_time (s : stats_t) (now : time_point_t) : stats_t :=
  mk (_start_time s) now.

Definition end_time (s : stats_t) : time_point_t := _end_time s.

(** [double stats_t::running_time() const], in ticks. *)
Definition running_time (s : stats_t) : Z := (_end_time s - _start_time s)%Z.

(** [long stats_t::max_rss() const] *)
Definition max_rss (s : stats_t) : Z :=
  match ru_maxrss with
  | None => (-1)%Z
  | Some usage => usage
  end.

(** [void stats_t::attributes(std::map<std::string, std::string> & m) const] *)
Definition attributes (s : stats_t) (m : gmap string string) : gmap string string :=
  let m := <["RUNNING_TIME_SECONDS" := show_seconds (running_time s)]> m in
  let m := <["MEMORY_MAX_RSS" := pretty (max_rss s)]> m in
  m.

End stats.
End stats.

(** ** Reachability algorithm ([include/tchecker/algorithms/reach/algorithm.hh]) *)

(** Exceptions: a function that may throw returns a [result]. *)
Inductive result (E A : Type) : Type :=
  | Ok (a : A)
  | Throw (e : E).
Global Arguments Ok {E A} a.
Global Arguments Throw {E A} e.

Global Instance result_ret {E} : MRet (result E) := λ A a, Ok a.
Global Instance result_bind {E} : MBind (result E) := λ A B f r,
  match r with
  | Ok a => f a
  | Throw e => Throw e
  end.

(** [boost::dynamic_bitset<>]: the set of the positions of the bits that
    are set, as a binary number.  [is_subset_of] expects two bitsets of the
    same size. *)
Module bitset.
Abbreviation t := N (only parsing).
Definition none (b : t) : bool := (b =? 0)%N.
Definition is_subset_of (a b : t) : bool := (N.ldiff a b =? 0)%N.
End bitset.

(** [enum tchecker::state_status_t]: the statuses named in [ta.hh] and in
    the description of the zone graph.  The algorithm does not look at
    the status of a triple. *)
Inductive state_status_t :=
  | STATE_OK
  | STATE_INCOMPATIBLE_EDGE
  | STATE_SRC_INVARIANT_VIOLATED
  | STATE_GUARD_VIOLATED
  | STATE_STATEMENT_FAILED
  | STATE_TGT_INVARIANT_VIOLATED
  | STATE_CLOCKS_SRC_INVARIANT_VIOLATED
  | STATE_CLOCKS_GUARD_VIOLATED
  | STATE_CLOCKS_TGT_INVARIANT_VIOLATED
  | STATE_EMPTY_ZONE.

(** [GRAPH::node_sptr_t]: a shared pointer to a node, that is the index of
    the node in the arena of the graph. *)
Abbreviation node_sptr_t := nat (only parsing).

(** [TS]: the transition system.  [initial] and [next] append triples
    (status, state, transition) to a vector, which is empty at every call
    (the algorithm clears it at the end of every iteration), or throw. *)
Module ts.
Record t (state_t transition_t exn : Type) := mk {
  initial : result exn (list (state_status_t * state_t * transition_t));
  next : state_t → result exn (list (state_status_t * state_t * transition_t));
  labels : state_t → bitset.t;
  is_valid_final : state_t → bool
}.
Global Arguments mk {_ _ _}.
Global Arguments initial {_ _ _}.
Global Arguments next {_ _ _}.
Global Arguments labels {_ _ _}.
Global Arguments is_valid_final {_ _ _}.
End ts.

(** [tchecker::waiting::waiting_t<node_sptr_t>]: the interface of waiting
    containers.  [first] is only called on a container that is not empty. *)
Module waiting.
Class t (W : Type) := mk {
  empty : W → bool;
  clear : W → W;
  insert : W → node_sptr_t → W;
  remove_first : W → W;
  first : W → node_sptr_t
}.

(** Modelled from the spec: the waiting policies ([tchecker/waiting] is
    not part of the sources at hand).  A container stores its nodes in
    the order in which [first] yields them: breadth-first search inserts
    at the back (first in, first out), depth-first search at the front
    (last in, first out). *)
Inductive policy_t := BFS | DFS.

Record container_t := mk_container {
  policy : policy_t;
  nodes : list node_sptr_t
}.

Global Instance container : t container_t := {|
  empty w := bool_decide (nodes w = []);
  clear w := mk_container (policy w) [];
  insert w n :=
    match policy w with
    | BFS => mk_container (policy w) (nodes w ++ [n])
    | DFS => mk_container (policy w) (n :: nodes w)
    end;
  remove_first w := mk_container (policy w) (tail (nodes w));
  first w := hd 0 (nodes w)
|}.

(** [tchecker::waiting::factory<node_sptr_t>(policy)] *)
Definition factory (policy : policy_t) : container_t := mk_container policy [].
End waiting.

(** Modelled from the spec: the reachability graph ([GRAPH] is a template
    parameter, [tchecker/graph] is not part of the sources at hand).  The
    nodes live in an arena and are never removed; a node carries its state
    and the flags [initial] and [final]; an edge carries the transition.
    [add_node] interns: it answers the first node whose state covers the
    state given (by equality, or by a coarser inclusion in the subsumption
    variant) and allocates a node only when there is none. *)
Module graph.
Section graph.
Context {state_t transition_t : Type}.

(** [covers s s']: a node of state [s'] stands for the state [s]. *)
Variable covers : state_t → state_t → bool.

Record node_t := mk_node {
  state_ptr : state_t;
  initial : bool;
  final : bool
}.

Record t := mk {
  nodes : list node_t;
  edges : list (node_sptr_t * node_sptr_t * transition_t)
}.

Definition empty : t := mk [] [].

Definition add_node (g : t) (s : state_t) : bool * node_sptr_t * t :=
  match list_find (λ n, covers s (state_ptr n) = true) (nodes g) with
  | Some (n, _) => (false, n, g)
  | None => (true, length (nodes g),
             mk (nodes g ++ [mk_node s false false]) (edges g))
  end.

Definition add_edge (g : t) (src tgt : node_sptr_t) (tr : transition_t) : t :=
  mk (nodes g) (edges g ++ [(src, tgt, tr)]).

(** [n->state_ptr()], [n->initial(b)], [n->final(b)] and the two readers
    of the flags, for the node at address [n].  Reading through a
    pointer that is not a node of the graph fails. *)
Definition node_state_ptr (g : t) (n : node_sptr_t) : option state_t :=
  state_ptr <$> nodes g !! n.

Definition node_set_initial (g : t) (n : node_sptr_t) (b : bool) : t :=
  mk (alter (λ nd, mk_node (state_ptr nd) b (final nd)) n (nodes g)) (edges g).

Definition node_set_final (g : t) (n : node_sptr_t) (b : bool) : t :=
  mk (alter (λ nd, mk_node (state_ptr nd) (initial nd) b) n (nodes g)) (edges g).

Definition node_initial (g : t) (n : node_sptr_t) : option bool :=
  initial <$> nodes g !! n.

Definition node_final (g : t) (n : node_sptr_t) : option bool :=
  final <$> nodes g !! n.

End graph.
Global Arguments node_t : clear implicits.
Global Arguments t : clear implicits.
End graph.

Module reach.

(** Modelled from the spec: [tchecker::algorithms::reach::stats_t]
    ([reach/stats.hh] and [reach/stats.cc] are not part of the sources at
    hand) extends [algorithms::stats_t] with two counters and a flag, and
    its [attributes] adds their three keys to those of the base class. *)
Record stats_t := mk_stats {
  base :> stats.stats_t;
  visited_states : N;
  visited_transitions : N;
  reachable : bool
}.

(** [stats_t::stats_t()]: nothing visited, nothing reached. *)
Definition new_stats : stats_t := mk_stats (stats.mk 0 0) 0 0 false.

Definition set_start_time (s : stats_t) (now : stats.time_point_t) : stats_t :=
  mk_stats (stats.set_start_time s now)
    (visited_states s) (visited_transitions s) (reachable s).

Definition set_end_time (s : stats_t) (now : stats.time_point_t) : stats_t :=
  mk_stats (stats.set_end_time s now)
    (visited_states s) (visited_transitions s) (reachable s).

(** [++stats.visited_states()] *)
Definition incr_visited_states (s : stats_t) : stats_t :=
  mk_stats (base s) (visited_states s + 1) (visited_transitions s) (reachable s).

(** [++stats.visited_transitions()] *)
Definition incr_visited_transitions (s : stats_t) : stats_t :=
  mk_stats (base s) (visited_states s) (visited_transitions s + 1) (reachable s).

(** [stats.reachable() = b] *)
Definition set_reachable (s : stats_t) (b : bool) : stats_t :=
  mk_stats (base s) (visited_states s) (visited_transitions s) b.

(** [void stats_t::attributes(std::map<std::string, std::string> & m) const]
    of [reach::stats_t]. *)
Definition attributes (show_seconds : Z → string) (ru_maxrss : option Z)
    (s : stats_t) (m : gmap string string) : gmap string string :=
  let m := stats.attributes show_seconds ru_maxrss s m in
  let m := <["VISITED_STATES" := pretty (visited_states s)]> m in
  let m := <["VISITED_TRANSITIONS" := pretty (visited_transitions s)]> m in
  let m := <["REACHABLE" := if reachable s then "true" else "false"]> m in
  m.

(** What a run can raise: an exception of the transition system, or the
    failure of the model on a pointer that is not a node of the graph. *)
Inductive error_t (exn : Type) :=
  | ts_exception (e : exn)
  | invalid_node (n : node_sptr_t).
Global Arguments ts_exception {exn} e.
Global Arguments invalid_node {exn} n.

(** How an iteration of the main loop ends. *)
Inductive control_t (A : Type) :=
  | Continue (a : A)
  | Break (a : A).
Global Arguments Continue {A} a.
Global Arguments Break {A} a.

Section algorithm_t.

(** [template <class TS, class GRAPH> class algorithm_t] *)
Context {state_t transition_t exn : Type}.
Context {W : Type} `{!waiting.t W}.
Variable covers : state_t → state_t → bool.

Abbreviation sst_t := (state_status_t * state_t * transition_t)%type (only parsing).
Abbreviation graph_t := (graph.t state_t transition_t) (only parsing).
Abbreviation ts_t := (ts.t state_t transition_t exn) (only parsing).

(** An exception of the transition system goes through the algorithm. *)
Definition lift {A} (r : result exn A) : result (error_t exn) A :=
  match r with
  | Ok a => Ok a
  | Throw e => Throw (ts_exception e)
  end.

(** [n->state_ptr()] *)
Definition state_of (g : graph_t) (n : node_sptr_t) : result (error_t exn) state_t :=
  match graph.node_state_ptr g n with
  | Some s => Ok s
  | None => Throw (invalid_node n)
  end.

(** [bool accepting(node_sptr_t const & n, TS & ts, dynamic_bitset const & labels)] *)
Definition accepting (g : graph_t) (n : node_sptr_t) (ts : ts_t)
    (labels : bitset.t) : result (error_t exn) bool :=
  if negb (bitset.none labels) then
    s ← state_of g n;
    mret (bitset.is_subset_of labels (ts.labels ts s) && ts.is_valid_final ts s)
  else mret false.

(** The body of the loop over the successors, lines 146 to 151. *)
Definition add_successor (node : node_sptr_t)
    (acc : graph_t * W * stats_t) (x : sst_t) : graph_t * W * stats_t :=
  let '(g, w, stats) := acc in
  let '(status, s, t) := x in
  let '(is_new_node, next_node, g) := graph.add_node covers g s in
  let w := if is_new_node then waiting.insert w next_node else w in
  let g := graph.add_edge g node next_node t in
  (g, w, incr_visited_transitions stats).

(** The body of the main loop, lines 133 to 153. *)
Definition visit (ts : ts_t) (labels : bitset.t)
    (g : graph_t) (w : W) (stats : stats_t)
  : result (error_t exn) (control_t (graph_t * W * stats_t)) :=
  let node := waiting.first w in
  let w := waiting.remove_first w in
  let stats := incr_visited_states stats in
  acc ← accepting g node ts labels;
  if acc : bool then
    let g := graph.node_set_final g node true in
    let stats := set_reachable stats true in
    mret (Break (g, w, stats))
  else
    s ← state_of g node;
    sst ← lift (ts.next ts s);
    mret (Continue (foldl (add_successor node) (g, w, stats) sst)).

(** The main loop, lines 132 to 154; [None] when the fuel runs out. *)
Fixpoint while_waiting (fuel : nat) (ts : ts_t) (labels : bitset.t)
    (g : graph_t) (w : W) (stats : stats_t)
  : option (result (error_t exn) (graph_t * W * stats_t)) :=
  match fuel with
  | 0 => None
  | S fuel =>
      if negb (waiting.empty w) then
        match visit ts labels g w stats with
        | Throw e => Some (Throw e)
        | Ok (Break c) => Some (Ok c)
        | Ok (Continue (g, w, stats)) => while_waiting fuel ts labels g w stats
        end
      else Some (Ok (g, w, stats))
  end.

(** The nodes that the main loop removes from the waiting container, in
    the order of their removal: the recursion of [while_waiting], each
    iteration recording the node that it visits. *)
Fixpoint popped (fuel : nat) (ts : ts_t) (labels : bitset.t)
    (g : graph_t) (w : W) (stats : stats_t) : list node_sptr_t :=
  match fuel with
  | 0 => []
  | S fuel =>
      if negb (waiting.empty w) then
        waiting.first w ::
        match visit ts labels g w stats with
        | Ok (Continue (g, w, stats)) => popped fuel ts labels g w stats
        | _ => []
        end
      else []
  end.

(** [void run_from_waiting(ts, graph, labels, waiting, stats)] *)
Definition run_from_waiting (fuel : nat) (ts : ts_t) (g : graph_t)
    (labels : bitset.t) (w : W) (stats : stats_t)
  : option (result (error_t exn) (graph_t * W * stats_t)) :=
  match while_waiting fuel ts labels g w stats with
  | None => None
  | Some (Throw e) => Some (Throw e)
  | Some (Ok (g, w, stats)) => Some (Ok (g, waiting.clear w, stats))
  end.

(** The body of the loop over the initial states, lines 68 to 71. *)
Definition add_initial (acc : graph_t * W) (x : sst_t) : graph_t * W :=
  let '(g, w) := acc in
  let '(status, s, t) := x in
  let '(is_new_node, initial_node, g) := graph.add_node covers g s in
  let g := graph.node_set_initial g initial_node true in
  let w := if is_new_node then waiting.insert w initial_node else w in
  (g, w).

(** [stats_t run(ts, graph, labels, policy)]; [waiting] is the container
    that the factory allocates for the policy, [start] and [stop] are the
    two readings of the clock. *)
Definition run (fuel : nat) (ts : ts_t) (g : graph_t) (labels : bitset.t)
    (waiting : W) (start stop : stats.time_point_t)
  : option (result (error_t exn) (graph_t * stats_t)) :=
  let stats := new_stats in
  let stats := set_start_time stats start in
  match lift (ts.initial ts) with
  | Throw e => Some (Throw e)
  | Ok sst =>
      let '(g, w) := foldl add_initial (g, waiting) sst in
      match run_from_waiting fuel ts g labels w stats with
      | None => None
      | Some (Throw e) => Some (Throw e)
      | Some (Ok (g, _, stats)) => Some (Ok (g, set_end_time stats stop))
      end
  end.

(** [stats_t run(ts, graph, labels, waiting)] *)
Definition run_waiting (fuel : nat) (ts : ts_t) (g : graph_t)
    (labels : bitset.t) (w : W) (start stop : stats.time_point_t)
  : option (result (error_t exn) (graph_t * W * stats_t)) :=
  let stats := new_stats in
  let stats := set_start_time stats start in
  match run_from_waiting fuel ts g labels w stats with
  | None => None
  | Some (Throw e) => Some (Throw e)
  | Some (Ok (g, w, stats)) => Some (Ok (g, w, set_end_time stats stop))
  end.

End algorithm_t.

End reach.

(** ** Vocabulary of the properties *)

Module clockbounds_spec.
Import clockbounds.

(** Whether some entry of [upd] is above the entry of [map] at the same index. *)
Definition grows (map upd : map_t) : bool :=
  existsb (λ '(cur, bound), bool_decide (cur < bound)%Z) (zip map upd).

(** The array stored for location [id] (empty when there is none). *)
Definition stored (v : list (option map_t)) (id : loc_id_t) : map_t :=
  default [] (deref v id).

Section pointwise_max.

Variable NO_BOUND : bound_t.

(** Pointwise maximum of two arrays, and of a family of arrays: the
    maximum of the empty family is the array that has [NO_BOUND]
    everywhere, so that [NO_BOUND] plays the role of minus infinity. *)
Definition pointwise_max (a b : map_t) : map_t := zip_with Z.max a b.

Definition pointwise_max_list (clock_nb : clock_id_t) (ms : list map_t) : map_t :=
  foldl pointwise_max (replicate clock_nb NO_BOUND) ms.

End pointwise_max.

(** What the members of a map that does not depend on the location obey:
    when the number of clocks is positive the pointers point to arrays of
    that capacity.  Nothing is said of the pointers when there is no
    clock. *)
Definition global_lu_ok (m : global_lu_map_t.t) : Prop :=
  0 < global_lu_map_t._clock_nb m →
  ∃ l u : map_t,
    global_lu_map_t._L m = live l ∧ global_lu_map_t._U m = live u ∧
    capacity l = global_lu_map_t._clock_nb m ∧
    capacity u = global_lu_map_t._clock_nb m.

Definition global_m_ok (m : global_m_map_t.t) : Prop :=
  0 < global_m_map_t._clock_nb m →
  ∃ mM : map_t,
    global_m_map_t._M m = live mM ∧
    capacity mM = global_m_map_t._clock_nb m.

(** The four maps of [clockbounds_t] agree on the numbers of locations
    and of clocks, and each obeys the invariant of its class. *)
Definition consistent (c : clockbounds_t.t) (loc_nb : loc_id_t)
    (clock_nb : clock_id_t) : Prop :=
  global_lu_ok (clockbounds_t.global_lu c) ∧
  global_m_ok (clockbounds_t.global_m c) ∧
  (0 < clock_nb →
   local_lu_map_t.wf (clockbounds_t.local_lu c) ∧
   local_m_map_t.wf (clockbounds_t.local_m c)) ∧
  global_lu_map_t.clock_number (clockbounds_t.global_lu c) = clock_nb ∧
  global_m_map_t.clock_number (clockbounds_t.global_m c) = clock_nb ∧
  local_lu_map_t.clock_number (clockbounds_t.local_lu c) = clock_nb ∧
  local_m_map_t.clock_number (clockbounds_t.local_m c) = clock_nb ∧
  local_lu_map_t.loc_number (clockbounds_t.local_lu c) = loc_nb ∧
  local_m_map_t.loc_number (clockbounds_t.local_m c) = loc_nb.

(** How [operator<<] prints a bound. *)
Definition show_bound (NO_BOUND : bound_t) (bound : bound_t) : string :=
  if bool_decide (bound = NO_BOUND) then "." else pretty bound.

End clockbounds_spec.

Module graph_spec.

Section graph.

Context {state_t transition_t : Type}.

Implicit Types (g : graph.t state_t transition_t) (n : nat).

(** The states of the nodes, in the order of the arena. *)
Definition states g : list state_t := graph.state_ptr <$> graph.nodes g.

(** A pointer is valid when it is the address of a node of the graph. *)
Definition valid g n : Prop := n < length (graph.nodes g).

(** The graph [g'] extends the graph [g]: the nodes of [g] are nodes of
    [g'], at the same addresses and with the same states, no flag that is
    set in [g] is reset in [g'], and the edges of [g] are the first edges
    of [g']. *)
Definition extends g g' : Prop :=
  states g `prefix_of` states g' ∧
  graph.edges g `prefix_of` graph.edges g' ∧
  ∀ n nd, graph.nodes g !! n = Some nd →
    ∃ nd', graph.nodes g' !! n = Some nd' ∧
           (graph.initial nd = true → graph.initial nd' = true) ∧
           (graph.final nd = true → graph.final nd' = true).

End graph.

End graph_spec.

Module waiting_spec.

(** The contract of a waiting container, in terms of the nodes that it
    holds: a container is empty when it holds no node, [clear] removes
    every node, [insert] adds one node, and [first] is one of the nodes,
    which [remove_first] removes. *)
Class lawful (W : Type) `{!waiting.t W} := mk_lawful {
  contents : W → list nat;
  empty_contents w : waiting.empty w = true ↔ contents w = [];
  clear_contents w : contents (waiting.clear w) = [];
  insert_contents w n : contents (waiting.insert w n) ≡ₚ n :: contents w;
  first_contents w :
    waiting.empty w = false →
    contents w ≡ₚ waiting.first w :: contents (waiting.remove_first w)
}.

(** The breadth-first and the depth-first containers obey the contract. *)
#[global, refine] Instance container_lawful : lawful waiting.container_t :=
  {| contents := waiting.nodes |}.
Proof.
  - intros w. simpl. apply bool_decide_eq_true.
  - done.
  - intros [[] l] n; simpl; [|done]. by rewrite Permutation_app_comm.
  - by intros [p [|n l]].
Defined.

End waiting_spec.

Module reach_spec.
Import graph_spec waiting_spec.

Section exploration.

Context {state_t transition_t exn : Type}.
Context {W : Type} `{!waiting.t W} `{!lawful W}.
Variable covers : state_t → state_t → bool.
Variable ts : ts.t state_t transition_t exn.

Implicit Types (g : graph.t state_t transition_t) (w : W).
Implicit Types (stats : reach.stats_t).
Implicit Types (s : state_t) (t : transition_t) (n node : nat) (labels : N).
Implicit Types (sst : list (state_status_t * state_t * transition_t)).
Implicit Types (nd : graph.node_t state_t).

(** [k] more transitions visited. *)
Definition more_transitions stats (k : nat) : reach.stats_t :=
  reach.mk_stats (reach.base stats) (reach.visited_states stats)
    (reach.visited_transitions stats + N.of_nat k) (reach.reachable stats).

(** The statistics at the end of an iteration of the main loop. *)
Definition stats_of (c : reach.control_t (graph.t state_t transition_t * W * reach.stats_t))
  : reach.stats_t :=
  match c with
  | reach.Continue (_, _, stats) => stats
  | reach.Break (_, _, stats) => stats
  end.

(** The node [nd] stands for the state [s]. *)
Definition stands_for nd s : Prop :=
  graph.state_ptr nd = s ∨ covers s (graph.state_ptr nd) = true.

(** A node allocated for one of the states of [sst], with no flag set. *)
Definition fresh_for sst nd : Prop :=
  graph.initial nd = false ∧ graph.final nd = false ∧
  ∃ status t, (status, graph.state_ptr nd, t) ∈ sst.

(** What the loop over the successors [sst] of [node] does to the graph
    and to the waiting container: fresh nodes are appended to the arena
    and inserted into the container, edges from [node] are appended, and
    every successor has a node that stands for it, with an edge to it. *)
Definition expanded node sst g w g' w' : Prop :=
  ∃ new more,
    graph.nodes g' = graph.nodes g ++ new ∧
    graph.edges g' = graph.edges g ++ more ∧
    Forall (fresh_for sst) new ∧
    (NoDup (states g) → (∀ s, covers s s = true) → NoDup (states g')) ∧
    contents w' ≡ₚ contents w ++ seq (length (graph.nodes g)) (length new) ∧
    (∀ status s t, (status, s, t) ∈ sst →
       ∃ m nd, graph.nodes g' !! m = Some nd ∧ stands_for nd s ∧
               (node, m, t) ∈ graph.edges g').

(** Every successor of the state of node [n] has a node that stands for
    it, and an edge from [n] to that node. *)
Definition closed g n : Prop :=
  ∃ s sst,
    graph.node_state_ptr g n = Some s ∧ ts.next ts s = Ok sst ∧
    ∀ status s' t, (status, s', t) ∈ sst →
      ∃ m nd, graph.nodes g !! m = Some nd ∧ stands_for nd s' ∧
              (n, m, t) ∈ graph.edges g.

(** The states of the transition system all belong to the list [universe]. *)
Definition finite_ts (universe : list state_t) : Prop :=
  (∀ sst status s t,
     ts.initial ts = Ok sst → (status, s, t) ∈ sst → s ∈ universe) ∧
  (∀ s0 sst status s t,
     s0 ∈ universe → ts.next ts s0 = Ok sst → (status, s, t) ∈ sst → s ∈ universe).

(** The invariant of the main loop: the waiting nodes are nodes of the
    graph, the nodes have pairwise distinct states of the universe, a
    node is waiting or has all its successors in the graph, and no node
    is final. *)
Definition invariant (universe : list state_t) g w : Prop :=
  (∀ n, n ∈ contents w → valid g n) ∧
  NoDup (states g) ∧
  (∀ s, s ∈ states g → s ∈ universe) ∧
  (∀ n, valid g n → n ∈ contents w ∨ closed g n) ∧
  Forall (λ nd, graph.final nd = false) (graph.nodes g).

(** A graph on which a run can start: the nodes have pairwise distinct
    states of the universe, every node has all its successors in the
    graph, and no node is final.  The empty graph is one. *)
Definition explored (universe : list state_t) g : Prop :=
  NoDup (states g) ∧
  (∀ s, s ∈ states g → s ∈ universe) ∧
  (∀ n, valid g n → closed g n) ∧
  Forall (λ nd, graph.final nd = false) (graph.nodes g).

(** The number of nodes that can still be visited. *)
Definition measure (universe : list state_t) g w : nat :=
  length universe - length (graph.nodes g) + length (contents w).

(** The loop stopped because no node was waiting: the flag [reachable] is
    unchanged, the nodes that were in the graph are still there, no node
    is final and every node has all its successors in the graph. *)
Definition exhausted g stats g' w' stats' : Prop :=
  contents w' = [] ∧
  reach.reachable stats' = reach.reachable stats ∧
  graph.nodes g `prefix_of` graph.nodes g' ∧
  Forall (λ nd, graph.final nd = false) (graph.nodes g') ∧
  (∀ n, valid g' n → closed g' n).

(** The loop stopped at an accepting node: the flag [reachable] is set and
    exactly one node is final, the state of which satisfies the labels
    and is a valid final state. *)
Definition accepted labels g' stats' : Prop :=
  reach.reachable stats' = true ∧
  bitset.none labels = false ∧
  ∃ n nd,
    graph.nodes g' !! n = Some nd ∧ graph.final nd = true ∧
    bitset.is_subset_of labels (ts.labels ts (graph.state_ptr nd)) = true ∧
    ts.is_valid_final ts (graph.state_ptr nd) = true ∧
    ∀ n' nd', graph.nodes g' !! n' = Some nd' → graph.final nd' = true → n' = n.

(** What the loop over the initial states [sst] does: fresh nodes are
    appended to the arena and inserted into the container, no edge is
    added, no flag [final] is set, no flag [initial] is reset, and every
    initial state has a node that stands for it and is flagged initial. *)
Definition seeded sst g w g' w' : Prop :=
  ∃ news : list state_t,
    states g' = states g ++ news ∧
    Forall (λ s, ∃ status t, (status, s, t) ∈ sst) news ∧
    graph.final <$> graph.nodes g'
    = (graph.final <$> graph.nodes g) ++ replicate (length news) false ∧
    graph.edges g' = graph.edges g ∧
    (NoDup (states g) → (∀ s, covers s s = true) → NoDup (states g')) ∧
    contents w' ≡ₚ contents w ++ seq (length (graph.nodes g)) (length news) ∧
    (∀ n nd, graph.nodes g !! n = Some nd → graph.initial nd = true →
       ∃ nd', graph.nodes g' !! n = Some nd' ∧ graph.initial nd' = true) ∧
    (∀ status s t, (status, s, t) ∈ sst →
       ∃ n nd, graph.nodes g' !! n = Some nd ∧ graph.initial nd = true ∧
               stands_for nd s).

(** The states that the transition system reaches from its initial
    states. *)
Inductive reachable_state : state_t → Prop :=
  | reachable_initial sst status s t :
      ts.initial ts = Ok sst → (status, s, t) ∈ sst → reachable_state s
  | reachable_next s0 sst status s t :
      reachable_state s0 → ts.next ts s0 = Ok sst → (status, s, t) ∈ sst →
      reachable_state s.

(** The edge [e] of the graph [g] is a transition of the system: its
    label is that of a successor of the state of its source node, and its
    target node stands for that successor. *)
Definition transition_of g (e : nat * nat * transition_t) : Prop :=
  ∃ s sst status s' nd,
    graph.node_state_ptr g e.1.1 = Some s ∧ ts.next ts s = Ok sst ∧
    (status, s', e.2) ∈ sst ∧
    graph.nodes g !! e.1.2 = Some nd ∧ stands_for nd s'.

(** Nothing in the graph is made up: the states of the nodes are reached
    by the transition system, and the edges are transitions of it. *)
Definition sound g : Prop :=
  (∀ s, s ∈ states g → reachable_state s) ∧
  Forall (transition_of g) (graph.edges g).

(** The full graph of the transition system, up to covering: no node is
    final, every node has all its successors in the graph, and every
    initial state has a node flagged initial that stands for it. *)
Definition full_graph g' : Prop :=
  Forall (λ nd, graph.final nd = false) (graph.nodes g') ∧
  (∀ n, valid g' n → closed g' n) ∧
  (∀ sst status s t,
     ts.initial ts = Ok sst → (status, s, t) ∈ sst →
     ∃ n nd, graph.nodes g' !! n = Some nd ∧ graph.initial nd = true ∧
             stands_for nd s).

End exploration.

End reach_spec.

(** ** Concrete inputs *)

Module examples.

(** *** Clock bounds: two locations, two clocks *)

Definition NO_BOUND : Z := (-1)%Z.

Definition lu : clockbounds.local_lu_map_t.t :=
  clockbounds.local_lu_map_t.mk 2 2
    [Some [3; NO_BOUND]; Some [1; 5]]%Z
    [Some [NO_BOUND; 2]; Some [4; NO_BOUND]]%Z.

Definition mm : clockbounds.local_m_map_t.t :=
  clockbounds.local_m_map_t.mk 2 2 [Some [3; 2]; Some [4; NO_BOUND]]%Z.

(** Two maps that do not depend on the location, with a bound below
    [NO_BOUND]. *)
Definition glu : clockbounds.global_lu_map_t.t :=
  clockbounds.global_lu_map_t.mk 2
    (clockbounds.live [3; NO_BOUND]%Z) (clockbounds.live [-5; 2]%Z).

Definition gm : clockbounds.global_m_map_t.t :=
  clockbounds.global_m_map_t.mk 2 (clockbounds.live [3; -5]%Z).

(** *** Zone-graph states: tuples of locations, integer valuations and
    zones given by lists of integers *)

Definition store : refzg.store_t (list nat) (list Z) (list Z) :=
  refzg.mk_store
    (ta.mk_store (λ p, if (p =? 1)%N then [0; 1] else [0; 1; 2])
                 (λ p, if (p =? 9)%N then [7%Z] else []))
    (λ p, if (p =? 3)%N then [0; 1; 2]%Z else [0; 0; 0]%Z).

(** Two states with the same contents at different addresses. *)
Definition state_a : refzg.state_t := refzg.mk (ta.mk 1 4) 5.
Definition state_b : refzg.state_t := refzg.mk (ta.mk 1 6) 7.

(** Hashes by content and by address; [hash_combine] as in Boost before
    version 1.81, on 64 bits. *)
Definition ta_hash_value (st : ta.store_t (list nat) (list Z)) (s : ta.state_t) : Z :=
  (Z.of_nat (foldr Nat.add 0%nat (ta.vloc st s)) + foldr Z.add 0 (ta.intval st s))%Z.

Definition ta_shared_hash_value (s : ta.state_t) : Z :=
  Z.of_N (ta.vloc_ptr s + 31 * ta.intval_ptr s).

Definition zone_hash_value (z : list Z) : Z := foldr Z.add 0%Z z.

Definition ptr_hash_value (p : N) : Z := Z.of_N (p + p / 8).

Definition hash_combine (seed v : Z) : Z :=
  Z.lxor seed
    ((v + 0x9e3779b9 + Z.shiftl seed 6 + Z.shiftr seed 2) mod 2 ^ 64)
  mod 2 ^ 64.

(** An inclusion of zones that is not reflexive. *)
Definition never (z1 z2 : list Z) : bool := false.
Definition never_lu (z1 z2 : list Z) (l u : list Z) : bool := false.

(** An inclusion of zones that is reflexive and transitive: a zone is
    below the zones that it is a prefix of. *)
Definition shorter (z1 z2 : list Z) : bool := bool_decide (z1 `prefix_of` z2).
Definition shorter_lu (z1 z2 : list Z) (l u : list Z) : bool := shorter z1 z2.

(** *** Transition systems over natural numbers *)

(** Three states in a cycle; state [n] has label [n]. *)
Definition cycle : ts.t nat unit string :=
  ts.mk (Ok [(STATE_OK, 0, ())])
        (λ n, Ok [(STATE_OK, (n + 1) mod 3, ())])
        (λ n, N.shiftl 1 (N.of_nat n))
        (λ _, true).

(** A counter: every state has a successor that was never seen. *)
Definition counter : ts.t nat unit string :=
  ts.mk (Ok [(STATE_OK, 0, ())])
        (λ n, Ok [(STATE_OK, S n, ())])
        (λ _, 0%N)
        (λ _, true).

(** A transition system whose [next] always throws. *)
Definition broken : ts.t nat unit string :=
  ts.mk (Ok [(STATE_OK, 0, ())])
        (λ _, Throw "next")
        (λ n, N.shiftl 1 (N.of_nat n))
        (λ _, true).

(** One state without successor, that carries the labels 1 and 2. *)
Definition marked : ts.t nat unit string :=
  ts.mk (Ok [(STATE_OK, 2, ())])
        (λ _, Ok [])
        (λ _, 6%N)
        (λ _, true).

(** A ladder: a counter whose state [n] has label [n]. *)
Definition ladder : ts.t nat unit string :=
  ts.mk (Ok [(STATE_OK, 0, ())])
        (λ n, Ok [(STATE_OK, S n, ())])
        (λ n, N.shiftl 1 (N.of_nat n))
        (λ _, true).

(** A graph with the two nodes of states 0 and 2, and the edge between them. *)
Definition two_nodes : graph.t nat unit :=
  graph.mk [graph.mk_node 0 true false; graph.mk_node 2 false false]
           [(0, 1, ())].

End examples.

(** * Properties *)

Lemma assert_true (b : bool) : b = true → assert b = Some ().
Proof. by intros ->. Qed.

(** Storing the same value at the indices [0 .. k) of an array. *)
Lemma foldl_insert_seq {A} (x : A) (l : list A) (k : nat) :
  k ≤ length l →
  foldl (λ l i, <[i := x]> l) l (seq 0 k) = replicate k x ++ drop k l.
Proof.
  induction k as [|k IH]; intros Hk.
  - by rewrite drop_0.
  - rewrite seq_S, foldl_app, IH by lia. simpl.
    destruct (lookup_lt_is_Some_2 l k) as [y Hy]; [lia|].
    rewrite (drop_S _ _ _ Hy).
    rewrite insert_app_r_alt by (rewrite length_replicate; lia).
    rewrite length_replicate, Nat.sub_diag. simpl.
    by rewrite cons_middle, app_assoc, <- replicate_S_end.
Qed.

Module clockbounds_proofs.
Import clockbounds clockbounds_spec.

Section maps.

Variable NO_BOUND : bound_t.

Lemma clear_replicate (map : map_t) :
  clear NO_BOUND map = replicate (capacity map) NO_BOUND.
Proof.
  unfold clear. rewrite foldl_insert_seq by done.
  unfold capacity. by rewrite drop_all, app_nil_r.
Qed.

Lemma capacity_clear (map : map_t) :
  capacity (clear NO_BOUND map) = capacity map.
Proof. rewrite clear_replicate. unfold capacity. by rewrite length_replicate. Qed.

Lemma update_max (map : map_t) (id : clock_id_t) (cur bound : bound_t) :
  map !! id = Some cur →
  update map id bound
  = Some (bool_decide (cur < bound)%Z, <[id := Z.max cur bound]> map).
Proof.
  intros Hid. unfold update, capacity.
  rewrite assert_true by (apply bool_decide_eq_true; eauto using lookup_lt_Some).
  simpl. rewrite Hid. simpl. case_bool_decide as Hle.
  - rewrite Z.max_l by lia. rewrite list_insert_id by done.
    by rewrite bool_decide_eq_false_2 by lia.
  - rewrite Z.max_r by lia. by rewrite bool_decide_eq_true_2 by lia.
Qed.

Lemma update_out_of_range (map : map_t) (id : clock_id_t) (bound : bound_t) :
  capacity map ≤ id → update map id bound = None.
Proof.
  intros Hid. unfold update.
  by rewrite bool_decide_eq_false_2 by lia.
Qed.

Lemma grows_true (map upd : map_t) :
  grows map upd = true ↔
  ∃ id cur bound, map !! id = Some cur ∧ upd !! id = Some bound ∧ (cur < bound)%Z.
Proof.
  unfold grows. rewrite existsb_exists. split.
  - intros [[cur bound] [Hin Hlt]]. apply list_elem_of_In in Hin.
    apply list_elem_of_lookup in Hin as [id Hid].
    apply lookup_zip_with_Some in Hid as (c & b & [= <- <-] & Hc & Hb).
    apply bool_decide_eq_true in Hlt. eauto 6.
  - intros (id & cur & bound & Hc & Hb & Hlt). exists (cur, bound). split.
    + apply list_elem_of_In, list_elem_of_lookup. exists id.
      apply lookup_zip_with_Some. eauto.
    + by apply bool_decide_eq_true.
Qed.

Lemma update_map_prefix (map upd : map_t) (k : nat) :
  k ≤ capacity map → capacity map ≤ capacity upd →
  foldl (λ (acc : option (bool * map_t)) (id : clock_id_t),
           '(modified, map) ← acc;
           bound ← upd !! id;
           '(grew, map) ← update map id bound;
           Some (if (grew : bool) then true else modified, map))
        (Some (false, map)) (seq 0 k)
  = Some (grows (take k map) (take k upd),
          zip_with Z.max (take k map) (take k upd) ++ drop k map).
Proof.
  unfold capacity. induction k as [|k IH]; intros Hk Hupd.
  - by rewrite drop_0.
  - rewrite seq_S, foldl_app, IH by lia. simpl.
    destruct (lookup_lt_is_Some_2 map k) as [c Hc]; [lia|].
    destruct (lookup_lt_is_Some_2 upd k) as [b Hb]; [lia|].
    rewrite Hb. simpl.
    assert (Hlen : length (zip_with Z.max (take k map) (take k upd)) = k).
    { rewrite length_zip_with, !length_take. lia. }
    erewrite update_max; last first.
    { rewrite lookup_app_r by lia. rewrite Hlen, Nat.sub_diag.
      rewrite (drop_S _ _ _ Hc). done. }
    simpl. f_equal.
    rewrite (take_S_r _ _ _ Hc), (take_S_r _ _ _ Hb).
    f_equal.
    + unfold grows. rewrite zip_with_app by (rewrite !length_take; lia).
      rewrite existsb_app. simpl. rewrite orb_false_r.
      destruct (existsb _ _), (bool_decide _); done.
    + rewrite zip_with_app by (rewrite !length_take; lia). simpl.
      rewrite insert_app_r_alt by lia. rewrite Hlen, Nat.sub_diag.
      rewrite (drop_S _ _ _ Hc). simpl. by rewrite <- app_assoc.
Qed.

Lemma update_map_max (map upd : map_t) :
  capacity map ≤ capacity upd →
  update_map map upd = Some (grows map upd, pointwise_max map upd).
Proof.
  intros Hupd. unfold update_map. rewrite update_map_prefix by done.
  unfold capacity in *. rewrite drop_all, app_nil_r, firstn_all.
  unfold pointwise_max, grows. by rewrite !zip_with_take_r.
Qed.

(** C5. [update] is monotone: the updated entry becomes the maximum of its
    previous value and the bound, no other entry changes, and the call
    returns true exactly when the entry strictly grew; updating an entry
    with [NO_BOUND], which is below every bound, changes nothing; the
    map-level [update] is the pointwise maximum and returns true exactly
    when some entry grew. *)
Theorem update_monotone (map : map_t) :
  (∀ (id : clock_id_t) (bound : bound_t), id < capacity map →
     ∃ cur map',
       map !! id = Some cur ∧
       update map id bound = Some (bool_decide (cur < bound)%Z, map') ∧
       map' !! id = Some (Z.max cur bound) ∧
       (∀ j, j ≠ id → map' !! j = map !! j) ∧
       capacity map' = capacity map ∧
       ((NO_BOUND ≤ cur)%Z → update map id NO_BOUND = Some (false, map))) ∧
  (∀ upd : map_t, capacity map ≤ capacity upd →
     ∃ modified map',
       update_map map upd = Some (modified, map') ∧
       capacity map' = capacity map ∧
       (∀ id cur bound, map !! id = Some cur → upd !! id = Some bound →
          map' !! id = Some (Z.max cur bound)) ∧
       (modified = true ↔
          ∃ id cur bound,
            map !! id = Some cur ∧ upd !! id = Some bound ∧ (cur < bound)%Z)).
Proof.
  split.
  - intros id bound Hid. unfold capacity in *.
    destruct (lookup_lt_is_Some_2 map id Hid) as [cur Hcur].
    exists cur, (<[id := Z.max cur bound]> map). split_and!.
    + done.
    + by apply update_max.
    + by apply list_lookup_insert_eq.
    + intros j Hj. by apply list_lookup_insert_ne.
    + apply length_insert.
    + intros Hle. rewrite (update_max _ _ cur) by done.
      rewrite Z.max_l by lia. rewrite list_insert_id by done.
      by rewrite bool_decide_eq_false_2 by lia.
  - intros upd Hupd. exists (grows map upd), (pointwise_max map upd). split_and!.
    + by apply update_map_max.
    + unfold pointwise_max, capacity in *. rewrite length_zip_with. lia.
    + intros id cur bound Hc Hb. unfold pointwise_max.
      apply lookup_zip_with_Some. eauto.
    + apply grows_true.
Qed.

(** *** Pointwise maxima *)

Lemma pointwise_max_assoc (a b c : map_t) :
  pointwise_max (pointwise_max a b) c = pointwise_max a (pointwise_max b c).
Proof.
  unfold pointwise_max. revert b c.
  induction a as [|x a IH]; intros [|y b] [|z c]; simpl; try done.
  by rewrite IH, Z.max_assoc.
Qed.

Lemma pointwise_max_comm (a b : map_t) :
  pointwise_max a b = pointwise_max b a.
Proof.
  unfold pointwise_max. revert b.
  induction a as [|x a IH]; intros [|y b]; simpl; try done.
  by rewrite IH, Z.max_comm.
Qed.

Lemma pointwise_max_idemp (a : map_t) : pointwise_max a a = a.
Proof.
  unfold pointwise_max. induction a as [|x a IH]; simpl; [done|].
  by rewrite IH, Z.max_id.
Qed.

Lemma capacity_pointwise_max (a b : map_t) :
  capacity a = capacity b → capacity (pointwise_max a b) = capacity a.
Proof. unfold capacity, pointwise_max. rewrite length_zip_with. lia. Qed.

Lemma foldl_pointwise_max_absorb (e acc : map_t) (ms : list map_t) :
  pointwise_max acc e = acc →
  foldl pointwise_max acc (pointwise_max e <$> ms) = foldl pointwise_max acc ms.
Proof.
  revert acc. induction ms as [|x ms IH]; intros acc Hacc; simpl; [done|].
  rewrite <- pointwise_max_assoc, Hacc. apply IH.
  by rewrite pointwise_max_assoc, (pointwise_max_comm x e),
    <- pointwise_max_assoc, Hacc.
Qed.

Lemma pointwise_max_list_absorb (clock_nb : clock_id_t) (ms : list map_t) :
  pointwise_max_list NO_BOUND clock_nb
    (pointwise_max (replicate clock_nb NO_BOUND) <$> ms)
  = pointwise_max_list NO_BOUND clock_nb ms.
Proof. apply foldl_pointwise_max_absorb, pointwise_max_idemp. Qed.

Lemma capacity_foldl_pointwise_max (n : nat) (acc : map_t) (ms : list map_t) :
  capacity acc = n → Forall (λ m, capacity m = n) ms →
  capacity (foldl pointwise_max acc ms) = n.
Proof.
  intros Hacc Hms. revert acc Hacc.
  induction Hms as [|x ms Hx _ IH]; intros acc Hacc; simpl; [done|].
  apply IH. rewrite capacity_pointwise_max; congruence.
Qed.

(** Entry [c] of the maximum of a family is the maximum of the entries [c],
    starting from [NO_BOUND]. *)
Lemma pointwise_max_list_lookup (clock_nb c : clock_id_t) (ms : list map_t) :
  c < clock_nb → Forall (λ m, capacity m = clock_nb) ms →
  pointwise_max_list NO_BOUND clock_nb ms !! c
  = Some (foldl Z.max NO_BOUND ((λ m : map_t, default NO_BOUND (m !! c)) <$> ms)).
Proof.
  intros Hc Hms. unfold pointwise_max_list.
  assert (Hgen : ∀ (acc : map_t) (v : bound_t),
             acc !! c = Some v →
             foldl pointwise_max acc ms !! c
             = Some (foldl Z.max v ((λ m : map_t, default NO_BOUND (m !! c)) <$> ms))).
  { induction Hms as [|x ms Hx _ IH]; intros acc v Hv; simpl; [done|].
    destruct (lookup_lt_is_Some_2 x c) as [w Hw]; [unfold capacity in Hx; lia|].
    rewrite Hw. simpl. apply IH. unfold pointwise_max.
    apply lookup_zip_with_Some. eauto. }
  apply Hgen. by apply lookup_replicate_2.
Qed.

End maps.

(** *** Location-indexed maps *)

Section local_maps.

Variable NO_BOUND : bound_t.

(** [resize] allocates one cleared array of capacity [clock_nb] per
    location, and so establishes the class invariant. *)
Lemma local_lu_resize (loc_nb : loc_id_t) (clock_nb : clock_id_t) :
  0 < clock_nb →
  local_lu_map_t.resize NO_BOUND loc_nb clock_nb
  = local_lu_map_t.mk loc_nb clock_nb
      (replicate loc_nb (Some (replicate clock_nb NO_BOUND)))
      (replicate loc_nb (Some (replicate clock_nb NO_BOUND))).
Proof.
  intros Hclk. unfold local_lu_map_t.resize, null_vector, allocate_map.
  rewrite bool_decide_eq_true_2 by done.
  rewrite !clear_replicate. unfold capacity. rewrite !length_replicate.
  set (a := Some (replicate clock_nb NO_BOUND)).
  assert (Hpair : ∀ (ids : list nat) (L U : list (option (list Z))),
            foldl (λ '(L, U) (id : nat), (<[id := a]> L, <[id := a]> U)) (L, U) ids
            = (foldl (λ L id, <[id := a]> L) L ids,
               foldl (λ U id, <[id := a]> U) U ids)).
  { induction ids as [|id ids IH]; intros L U; simpl; [done|]. by rewrite IH. }
  rewrite Hpair.
  rewrite !foldl_insert_seq by (by rewrite length_replicate).
  rewrite !drop_ge by (by rewrite length_replicate).
  by rewrite !app_nil_r.
Qed.

Lemma local_lu_resize_wf (loc_nb : loc_id_t) (clock_nb : clock_id_t) :
  0 < clock_nb →
  local_lu_map_t.wf (local_lu_map_t.resize NO_BOUND loc_nb clock_nb).
Proof.
  intros Hclk. rewrite local_lu_resize by done.
  unfold local_lu_map_t.wf. simpl. rewrite length_replicate.
  split_and!; [done..| |]; apply Forall_replicate; simpl;
    apply bool_decide_eq_true; unfold capacity; by rewrite length_replicate.
Qed.

Lemma local_m_resize_wf (loc_nb : loc_id_t) (clock_nb : clock_id_t) :
  0 < clock_nb →
  local_m_map_t.wf (local_m_map_t.resize NO_BOUND loc_nb clock_nb).
Proof.
  intros Hclk. unfold local_m_map_t.resize, null_vector, allocate_map.
  rewrite bool_decide_eq_true_2 by done.
  rewrite !clear_replicate. unfold capacity. rewrite !length_replicate.
  rewrite foldl_insert_seq by (by rewrite length_replicate).
  rewrite drop_ge by (by rewrite length_replicate).
  rewrite app_nil_r. unfold local_m_map_t.wf. simpl. rewrite length_replicate.
  split; [done|]. apply Forall_replicate. simpl.
  apply bool_decide_eq_true. unfold capacity. by rewrite length_replicate.
Qed.

Lemma deref_stored (v : list (option map_t)) (n : nat) (clock_nb : clock_id_t)
    (id : loc_id_t) :
  length v = n →
  Forall (λ a, allocated clock_nb a = true) v →
  id < n →
  deref v id = Some (stored v id) ∧ capacity (stored v id) = clock_nb.
Proof.
  intros Hlen Hall Hid. unfold stored, deref.
  destruct (lookup_lt_is_Some_2 v id) as [a Ha]; [lia|].
  rewrite Forall_lookup in Hall. specialize (Hall _ _ Ha).
  destruct a as [m|]; [|done]. apply bool_decide_eq_true in Hall.
  by rewrite Ha.
Qed.

Lemma clear_then_update (M upd : map_t) :
  capacity M = capacity upd →
  update_map (clear NO_BOUND M) upd
  = Some (grows (clear NO_BOUND M) upd,
          pointwise_max (replicate (capacity M) NO_BOUND) upd).
Proof.
  intros Hcap. rewrite update_map_max by (rewrite capacity_clear; lia).
  by rewrite clear_replicate.
Qed.

Lemma local_lu_bounds_loc (m : local_lu_map_t.t) (id : loc_id_t) (L U : map_t) :
  local_lu_map_t.wf m → 0 < local_lu_map_t._clock_nb m →
  capacity L = local_lu_map_t._clock_nb m →
  capacity U = local_lu_map_t._clock_nb m →
  id < local_lu_map_t._loc_nb m →
  local_lu_map_t.bounds_loc NO_BOUND m id L U
  = Some (pointwise_max (replicate (local_lu_map_t._clock_nb m) NO_BOUND)
            (stored (local_lu_map_t._L m) id),
          pointwise_max (replicate (local_lu_map_t._clock_nb m) NO_BOUND)
            (stored (local_lu_map_t._U m) id)).
Proof.
  intros (HL & HU & HLs & HUs) Hclk HcL HcU Hid.
  destruct (deref_stored _ _ _ id HL HLs Hid) as [HdL HsL].
  destruct (deref_stored _ _ _ id HU HUs Hid) as [HdU HsU].
  unfold local_lu_map_t.bounds_loc.
  rewrite !assert_true by (by apply bool_decide_eq_true).
  simpl. rewrite HdL. simpl. rewrite clear_then_update by congruence. simpl.
  rewrite HdU. simpl. rewrite clear_then_update by congruence. simpl.
  by rewrite HcL, HcU.
Qed.

Lemma local_lu_bounds_fold (m : local_lu_map_t.t) (vloc : vloc_t) (L U : map_t) :
  local_lu_map_t.wf m →
  capacity L = local_lu_map_t._clock_nb m →
  capacity U = local_lu_map_t._clock_nb m →
  Forall (λ id, id < local_lu_map_t._loc_nb m) vloc →
  foldl (λ (acc : option (map_t * map_t)) (id : loc_id_t),
           '(L, U) ← acc;
           _ ← assert (bool_decide (id < local_lu_map_t._loc_nb m));
           Lid ← deref (local_lu_map_t._L m) id;
           '(_, L) ← update_map L Lid;
           Uid ← deref (local_lu_map_t._U m) id;
           '(_, U) ← update_map U Uid;
           Some (L, U))
        (Some (L, U)) vloc
  = Some (foldl pointwise_max L (stored (local_lu_map_t._L m) <$> vloc),
          foldl pointwise_max U (stored (local_lu_map_t._U m) <$> vloc)).
Proof.
  intros (HL & HU & HLs & HUs) HcL HcU Hvloc. revert L U HcL HcU.
  induction Hvloc as [|id vloc Hid _ IH]; intros L U HcL HcU; [done|].
  destruct (deref_stored _ _ _ id HL HLs Hid) as [HdL HsL].
  destruct (deref_stored _ _ _ id HU HUs Hid) as [HdU HsU].
  cbn [foldl fmap list_fmap]. rewrite <- IH.
  - f_equal. simpl. rewrite assert_true by (by apply bool_decide_eq_true).
    simpl. rewrite HdL. simpl. rewrite update_map_max by lia. simpl.
    rewrite HdU. simpl. by rewrite update_map_max by lia.
  - rewrite capacity_pointwise_max; congruence.
  - rewrite capacity_pointwise_max; congruence.
Qed.

Lemma local_m_bounds_loc (m : local_m_map_t.t) (id : loc_id_t) (M : map_t) :
  local_m_map_t.wf m → 0 < local_m_map_t._clock_nb m →
  capacity M = local_m_map_t._clock_nb m →
  id < local_m_map_t._loc_nb m →
  local_m_map_t.bounds_loc NO_BOUND m id M
  = Some (pointwise_max (replicate (local_m_map_t._clock_nb m) NO_BOUND)
            (stored (local_m_map_t._M m) id)).
Proof.
  intros (HM & HMs) Hclk HcM Hid.
  destruct (deref_stored _ _ _ id HM HMs Hid) as [HdM HsM].
  unfold local_m_map_t.bounds_loc.
  rewrite !assert_true by (by apply bool_decide_eq_true).
  simpl. rewrite HdM. simpl. rewrite clear_then_update by congruence. simpl.
  by rewrite HcM.
Qed.

Lemma local_m_bounds_fold (m : local_m_map_t.t) (vloc : vloc_t) (M : map_t) :
  local_m_map_t.wf m →
  capacity M = local_m_map_t._clock_nb m →
  Forall (λ id, id < local_m_map_t._loc_nb m) vloc →
  foldl (λ (acc : option map_t) (id : loc_id_t),
           M ← acc;
           _ ← assert (bool_decide (id < local_m_map_t._loc_nb m));
           Mid ← deref (local_m_map_t._M m) id;
           '(_, M) ← update_map M Mid;
           Some M)
        (Some M) vloc
  = Some (foldl pointwise_max M (stored (local_m_map_t._M m) <$> vloc)).
Proof.
  intros (HM & HMs) HcM Hvloc. revert M HcM.
  induction Hvloc as [|id vloc Hid _ IH]; intros M HcM; [done|].
  destruct (deref_stored _ _ _ id HM HMs Hid) as [HdM HsM].
  cbn [foldl fmap list_fmap]. rewrite <- IH.
  - f_equal. simpl. rewrite assert_true by (by apply bool_decide_eq_true).
    simpl. rewrite HdM. simpl. by rewrite update_map_max by lia.
  - rewrite capacity_pointwise_max; congruence.
Qed.

(** C4. For a vloc whose locations are all below the location count, the
    vloc query of the local LU map returns the pointwise maximum of the
    per-location queries, the maximum of no array being [NO_BOUND]
    everywhere; likewise for the local M map. *)
Theorem local_bounds_vloc_is_pointwise_max
    (lu : local_lu_map_t.t) (mm : local_m_map_t.t) (vloc : vloc_t)
    (L U M : map_t) :
  local_lu_map_t.wf lu → 0 < local_lu_map_t._clock_nb lu →
  capacity L = local_lu_map_t._clock_nb lu →
  capacity U = local_lu_map_t._clock_nb lu →
  Forall (λ id, id < local_lu_map_t._loc_nb lu) vloc →
  local_m_map_t.wf mm → 0 < local_m_map_t._clock_nb mm →
  capacity M = local_m_map_t._clock_nb mm →
  Forall (λ id, id < local_m_map_t._loc_nb mm) vloc →
  (∃ per : list (map_t * map_t),
     mapM (λ id, local_lu_map_t.bounds_loc NO_BOUND lu id L U) vloc = Some per ∧
     local_lu_map_t.bounds NO_BOUND lu vloc L U
     = Some (pointwise_max_list NO_BOUND (local_lu_map_t._clock_nb lu) per.*1,
             pointwise_max_list NO_BOUND (local_lu_map_t._clock_nb lu) per.*2)) ∧
  (∃ per : list map_t,
     mapM (λ id, local_m_map_t.bounds_loc NO_BOUND mm id M) vloc = Some per ∧
     local_m_map_t.bounds NO_BOUND mm vloc M
     = Some (pointwise_max_list NO_BOUND (local_m_map_t._clock_nb mm) per)).
Proof.
  intros Hlu Hclk HcL HcU Hvloc Hmm Hclk' HcM Hvloc'. split.
  - exists ((λ id,
       (pointwise_max (replicate (local_lu_map_t._clock_nb lu) NO_BOUND)
          (stored (local_lu_map_t._L lu) id),
        pointwise_max (replicate (local_lu_map_t._clock_nb lu) NO_BOUND)
          (stored (local_lu_map_t._U lu) id))) <$> vloc).
    split.
    + apply mapM_Some. apply Forall2_fmap_r, Forall_Forall2_diag.
      eapply Forall_impl; [exact Hvloc|]. intros id Hid. simpl.
      by apply local_lu_bounds_loc.
    + unfold local_lu_map_t.bounds.
      rewrite !assert_true by (by apply bool_decide_eq_true). simpl.
      rewrite local_lu_bounds_fold by (by rewrite ?capacity_clear).
      rewrite !clear_replicate, HcL, HcU. rewrite <- !list_fmap_compose.
      f_equal. f_equal.
      * etrans; [symmetry; apply (pointwise_max_list_absorb NO_BOUND)|].
        by rewrite <- list_fmap_compose.
      * etrans; [symmetry; apply (pointwise_max_list_absorb NO_BOUND)|].
        by rewrite <- list_fmap_compose.
  - exists ((λ id,
       pointwise_max (replicate (local_m_map_t._clock_nb mm) NO_BOUND)
         (stored (local_m_map_t._M mm) id)) <$> vloc).
    split.
    + apply mapM_Some. apply Forall2_fmap_r, Forall_Forall2_diag.
      eapply Forall_impl; [exact Hvloc'|]. intros id Hid. simpl.
      by apply local_m_bounds_loc.
    + unfold local_m_map_t.bounds.
      rewrite !assert_true by (by apply bool_decide_eq_true). simpl.
      rewrite local_m_bounds_fold by (by rewrite ?capacity_clear).
      rewrite !clear_replicate, HcM. f_equal.
      etrans; [symmetry; apply (pointwise_max_list_absorb NO_BOUND)|].
      by rewrite <- list_fmap_compose.
Qed.

End local_maps.

(** *** More on arrays of bounds *)

Section arrays.
Variable NO_BOUND : bound_t.

Lemma allocate_map_replicate (clock_nb : clock_id_t) :
  allocate_map NO_BOUND clock_nb = replicate clock_nb NO_BOUND.
Proof.
  unfold allocate_map. rewrite clear_replicate. unfold capacity.
  by rewrite length_replicate.
Qed.

Lemma clone_map_prefix (m : map_t) (k : nat) :
  k ≤ capacity m →
  foldl (λ (acc : option map_t) (id : clock_id_t),
           clone ← acc;
           bound ← m !! id;
           write clone id bound)
        (Some (allocate_map NO_BOUND (capacity m))) (seq 0 k)
  = Some (take k m ++ replicate (capacity m - k) NO_BOUND).
Proof.
  unfold capacity. induction k as [|k IH]; intros Hk.
  - simpl. by rewrite allocate_map_replicate, Nat.sub_0_r.
  - rewrite seq_S, foldl_app, IH by lia. simpl.
    destruct (lookup_lt_is_Some_2 m k) as [b Hb]; [lia|].
    rewrite Hb. simpl. unfold write, capacity.
    rewrite bool_decide_eq_true_2
      by (rewrite length_app, length_take, length_replicate; lia).
    f_equal. rewrite (take_S_r _ _ _ Hb).
    rewrite insert_app_r_alt by (rewrite length_take; lia).
    rewrite length_take, Nat.min_l, Nat.sub_diag by lia.
    replace (length m - k) with (S (length m - S k)) by lia.
    simpl. by rewrite <- app_assoc.
Qed.

Lemma clone_map_eq (m : map_t) : clone_map NO_BOUND m = Some m.
Proof.
  unfold clone_map. rewrite clone_map_prefix by done.
  unfold capacity. by rewrite firstn_all, Nat.sub_diag, app_nil_r.
Qed.

(** X1. [allocate_map] answers an array of the capacity asked for, every
    entry of which is [NO_BOUND]; [clone_map] answers an array with the
    capacity and the entries of its argument. *)
Theorem allocate_map_is_cleared_and_clone_map_copies
    (clock_nb : clock_id_t) (m : map_t) :
  capacity (allocate_map NO_BOUND clock_nb) = clock_nb ∧
  (∀ id, id < clock_nb → allocate_map NO_BOUND clock_nb !! id = Some NO_BOUND) ∧
  ∃ clone,
    clone_map NO_BOUND m = Some clone ∧
    capacity clone = capacity m ∧
    ∀ id, clone !! id = m !! id.
Proof.
  rewrite allocate_map_replicate. split_and!.
  - unfold capacity. by rewrite length_replicate.
  - intros id Hid. by apply lookup_replicate_2.
  - exists m. by rewrite clone_map_eq.
Qed.

(** A failure of the body of a loop is the failure of the loop. *)
Lemma foldl_None {A B} (f : option A → B → option A) (l : list B) :
  (∀ b, f None b = None) → foldl f None l = None.
Proof. intros Hf. induction l as [|b l IH]; simpl; [done|]. by rewrite Hf. Qed.

Lemma update_map_steps (map upd : map_t) (k : nat) :
  k ≤ capacity map → k ≤ capacity upd →
  foldl (λ (acc : option (bool * map_t)) (id : clock_id_t),
           '(modified, map) ← acc;
           bound ← upd !! id;
           '(grew, map) ← update map id bound;
           Some (if (grew : bool) then true else modified, map))
        (Some (false, map)) (seq 0 k)
  = Some (grows (take k map) (take k upd),
          zip_with Z.max (take k map) (take k upd) ++ drop k map).
Proof.
  unfold capacity. induction k as [|k IH]; intros Hk Hupd.
  - by rewrite drop_0.
  - rewrite seq_S, foldl_app, IH by lia. simpl.
    destruct (lookup_lt_is_Some_2 map k) as [c Hc]; [lia|].
    destruct (lookup_lt_is_Some_2 upd k) as [b Hb]; [lia|].
    rewrite Hb. simpl.
    assert (Hlen : length (zip_with Z.max (take k map) (take k upd)) = k).
    { rewrite length_zip_with, !length_take. lia. }
    erewrite update_max; last first.
    { rewrite lookup_app_r by lia. rewrite Hlen, Nat.sub_diag.
      rewrite (drop_S _ _ _ Hc). done. }
    simpl. f_equal.
    rewrite (take_S_r _ _ _ Hc), (take_S_r _ _ _ Hb).
    f_equal.
    + unfold grows. rewrite zip_with_app by (rewrite !length_take; lia).
      rewrite existsb_app. simpl. rewrite orb_false_r.
      destruct (existsb _ _), (bool_decide _); done.
    + rewrite zip_with_app by (rewrite !length_take; lia). simpl.
      rewrite insert_app_r_alt by lia. rewrite Hlen, Nat.sub_diag.
      rewrite (drop_S _ _ _ Hc). simpl. by rewrite <- app_assoc.
Qed.

Lemma update_map_short (map upd : map_t) :
  capacity upd < capacity map → update_map map upd = None.
Proof.
  intros Hlt. unfold update_map.
  replace (capacity map) with (capacity upd + S (capacity map - S (capacity upd))) by lia.
  rewrite seq_app, foldl_app, update_map_steps by lia.
  cbn [seq foldl]. simpl.
  rewrite (lookup_ge_None_2 upd) by (unfold capacity; lia). simpl.
  by apply foldl_None.
Qed.

Lemma update_map_is_Some (map upd : map_t) :
  is_Some (update_map map upd) ↔ capacity map ≤ capacity upd.
Proof.
  split.
  - intros Hsome. destruct (decide (capacity map ≤ capacity upd)) as [|Hn]; [done|].
    rewrite update_map_short in Hsome by lia. by destruct Hsome.
  - intros Hle. rewrite update_map_max by done. by eexists.
Qed.

Lemma pointwise_max_take_r (a b : map_t) :
  pointwise_max a (take (capacity a) b) = pointwise_max a b.
Proof. unfold pointwise_max, capacity. by rewrite zip_with_take_r. Qed.

Lemma grows_take_r (a b : map_t) :
  grows a (take (capacity a) b) = grows a b.
Proof. unfold grows, capacity. by rewrite zip_with_take_r. Qed.

Lemma pointwise_max_unchanged (map upd : map_t) :
  capacity map ≤ capacity upd →
  pointwise_max map upd = map ↔ grows map upd = false.
Proof.
  intros Hcap. unfold capacity in *. split.
  - intros Heq. destruct (grows map upd) eqn:Hg; [|done].
    apply grows_true in Hg as (id & cur & bound & Hc & Hb & Hlt).
    assert (Hmax : pointwise_max map upd !! id = Some (Z.max cur bound)).
    { unfold pointwise_max. apply lookup_zip_with_Some. eauto. }
    rewrite Heq, Hc in Hmax. injection Hmax as Hmax.
    symmetry in Hmax. apply Z.max_l_iff in Hmax. lia.
  - intros Hg. apply list_eq. intros id. unfold pointwise_max.
    rewrite lookup_zip_with.
    destruct (map !! id) as [cur|] eqn:Hc; simpl; [|done].
    destruct (lookup_lt_is_Some_2 upd id) as [bound Hb].
    { apply lookup_lt_Some in Hc. lia. }
    rewrite Hb. simpl. f_equal.
    destruct (decide (cur < bound)%Z) as [Hlt|]; [|lia].
    assert (grows map upd = true) by (apply grows_true; eauto 6). congruence.
Qed.

Lemma capacity_pointwise_max_le (a b : map_t) :
  capacity a ≤ capacity b → capacity (pointwise_max a b) = capacity a.
Proof. unfold capacity, pointwise_max. rewrite length_zip_with. lia. Qed.

Lemma pointwise_max_absorb_r (a b : map_t) :
  pointwise_max (pointwise_max a b) b = pointwise_max a b.
Proof. by rewrite pointwise_max_assoc, pointwise_max_idemp. Qed.

(** X2. Both overloads of [update] answer false exactly when they leave
    the map as it is, and a second call with the same argument changes
    nothing and answers false. *)
Theorem update_answers_false_iff_map_unchanged (map : map_t) :
  (∀ id bound grew map',
     update map id bound = Some (grew, map') →
     (grew = false ↔ map' = map) ∧
     update map' id bound = Some (false, map')) ∧
  (∀ upd modified map',
     update_map map upd = Some (modified, map') →
     (modified = false ↔ map' = map) ∧
     update_map map' upd = Some (false, map')).
Proof.
  split.
  - intros id bound grew map' Hupd.
    destruct (map !! id) as [cur|] eqn:Hcur; last first.
    { rewrite update_out_of_range in Hupd; [done|].
      unfold capacity. by apply lookup_ge_None. }
    rewrite (update_max _ _ cur) in Hupd by done.
    injection Hupd as <- <-. split.
    + rewrite bool_decide_eq_false. split.
      * intros Hle. rewrite Z.max_l by lia. by apply list_insert_id.
      * intros Heq.
        assert (Hid : <[id:=Z.max cur bound]> map !! id = Some (Z.max cur bound)).
        { apply list_lookup_insert_eq. by eapply lookup_lt_Some. }
        rewrite Heq, Hcur in Hid. injection Hid as Hid.
        symmetry in Hid. apply Z.max_l_iff in Hid. lia.
    + rewrite (update_max _ _ (Z.max cur bound)).
      * pose proof (Z.le_max_r cur bound) as Hmax.
        rewrite (Z.max_l (Z.max cur bound) bound) by done. rewrite list_insert_id.
        -- by rewrite bool_decide_eq_false_2 by lia.
        -- apply list_lookup_insert_eq. by eapply lookup_lt_Some.
      * apply list_lookup_insert_eq. by eapply lookup_lt_Some.
  - intros upd modified map' Hupd.
    assert (Hcap : capacity map ≤ capacity upd).
    { apply update_map_is_Some. by eexists. }
    rewrite update_map_max in Hupd by done. injection Hupd as <- <-. split.
    + by rewrite pointwise_max_unchanged.
    + rewrite update_map_max by (by rewrite capacity_pointwise_max_le).
      rewrite pointwise_max_absorb_r. f_equal. f_equal.
      apply pointwise_max_unchanged; [by rewrite capacity_pointwise_max_le|].
      apply pointwise_max_absorb_r.
Qed.

(** X3. The map-level [update] reads [upd] at every index below the
    capacity of [map] and nowhere else: it fails exactly when [upd] is
    shorter than [map] (a read out of range), the entries of [upd] from
    the capacity of [map] on are ignored, and on a map of capacity zero it
    answers false. *)
Theorem update_map_reads_upd_below_capacity (map upd : map_t) :
  (is_Some (update_map map upd) ↔ capacity map ≤ capacity upd) ∧
  update_map map (take (capacity map) upd) = update_map map upd ∧
  (capacity map = 0 → update_map map upd = Some (false, map)).
Proof.
  split_and!.
  - apply update_map_is_Some.
  - destruct (decide (capacity map ≤ capacity upd)) as [Hle|Hlt].
    + rewrite !update_map_max; [|done|].
      * by rewrite grows_take_r, pointwise_max_take_r.
      * unfold capacity in *. rewrite length_take. lia.
    + rewrite !update_map_short; [done|lia|].
      unfold capacity in *. rewrite length_take. lia.
  - unfold capacity. intros Hnil%nil_length_inv. by subst map.
Qed.

Lemma update_map_Some (map upd : map_t) modified map' :
  update_map map upd = Some (modified, map') →
  capacity map ≤ capacity upd ∧ modified = grows map upd ∧
  map' = pointwise_max map upd ∧ capacity map' = capacity map.
Proof.
  intros Hupd.
  assert (Hcap : capacity map ≤ capacity upd).
  { apply update_map_is_Some. by eexists. }
  rewrite update_map_max in Hupd by done. injection Hupd as <- <-.
  by rewrite capacity_pointwise_max_le.
Qed.

(** X4. The order of two map-level updates does not matter: updating by
    [a] then by [b] gives the map that updating by [b] then by [a] gives;
    one of the two calls answers true in one order exactly when one does
    in the other, that is exactly when the map has changed. *)
Theorem update_map_order_is_irrelevant (map a b : map_t) ma mb map1 map2 :
  update_map map a = Some (ma, map1) →
  update_map map1 b = Some (mb, map2) →
  ∃ mb' map1' ma',
    update_map map b = Some (mb', map1') ∧
    update_map map1' a = Some (ma', map2) ∧
    ((ma || mb) = false ↔ map2 = map) ∧
    (ma || mb) = (mb' || ma').
Proof.
  intros (Ha & -> & -> & Hcap1)%update_map_Some (Hb & -> & -> & Hcap2)%update_map_Some.
  rewrite Hcap1 in Hb.
  assert (Hflags : ∀ x y : map_t,
            capacity map ≤ capacity x → capacity map ≤ capacity y →
            (grows map x || grows (pointwise_max map x) y) = false
            ↔ pointwise_max (pointwise_max map x) y = map).
  { intros x y Hx Hy. rewrite orb_false_iff.
    rewrite <- !pointwise_max_unchanged
      by (by rewrite ?capacity_pointwise_max_le). split.
    - intros [H1 H2]. by etrans.
    - intros Heq.
      assert (Hx' : pointwise_max map x = map).
      { rewrite <- Heq at 1.
        rewrite (pointwise_max_assoc map x y), (pointwise_max_assoc map _ x).
        rewrite (pointwise_max_comm (pointwise_max x y) x).
        rewrite <- (pointwise_max_assoc x x y), pointwise_max_idemp.
        by rewrite <- pointwise_max_assoc. }
      split; [done|]. rewrite Hx' in Heq. by rewrite Hx'. }
  assert (Hswap : pointwise_max (pointwise_max map b) a
                  = pointwise_max (pointwise_max map a) b).
  { rewrite !pointwise_max_assoc. by rewrite (pointwise_max_comm b a). }
  exists (grows map b), (pointwise_max map b), (grows (pointwise_max map b) a).
  split_and!.
  - by apply update_map_max.
  - rewrite update_map_max by (by rewrite capacity_pointwise_max_le).
    by rewrite Hswap.
  - by apply Hflags.
  - pose proof (Hflags a b Ha Hb) as H1. pose proof (Hflags b a Hb Ha) as H2.
    rewrite Hswap in H2.
    destruct (grows map a || _), (grows map b || _); try done.
    + by assert (true = false) by (by apply H1, H2).
    + by assert (true = false) by (by apply H2, H1).
Qed.

End arrays.

(** *** The location-indexed maps as objects *)

Section local_map_objects.
Variable NO_BOUND : bound_t.

Lemma local_lu_resize_no_clock (loc_nb : loc_id_t) :
  local_lu_map_t.resize NO_BOUND loc_nb 0
  = local_lu_map_t.mk loc_nb 0 (replicate loc_nb None) (replicate loc_nb None).
Proof. done. Qed.

Lemma local_m_resize (loc_nb : loc_id_t) (clock_nb : clock_id_t) :
  0 < clock_nb →
  local_m_map_t.resize NO_BOUND loc_nb clock_nb
  = local_m_map_t.mk loc_nb clock_nb
      (replicate loc_nb (Some (replicate clock_nb NO_BOUND))).
Proof.
  intros Hclk. unfold local_m_map_t.resize, null_vector, allocate_map.
  rewrite bool_decide_eq_true_2 by done.
  rewrite !clear_replicate. unfold capacity. rewrite !length_replicate.
  rewrite foldl_insert_seq by (by rewrite length_replicate).
  rewrite drop_ge by (by rewrite length_replicate).
  by rewrite app_nil_r.
Qed.



Lemma local_lu_bounds_fold_Some (m : local_lu_map_t.t) (vloc : vloc_t)
    (acc : option (map_t * map_t)) :
  is_Some
    (foldl (λ (acc : option (map_t * map_t)) (id : loc_id_t),
              '(L, U) ← acc;
              _ ← assert (bool_decide (id < local_lu_map_t._loc_nb m));
              Lid ← deref (local_lu_map_t._L m) id;
              '(_, L) ← update_map L Lid;
              Uid ← deref (local_lu_map_t._U m) id;
              '(_, U) ← update_map U Uid;
              Some (L, U))
           acc vloc) →
  Forall (λ id, id < local_lu_map_t._loc_nb m) vloc.
Proof.
  revert acc. induction vloc as [|id vloc IH]; intros acc Hsome; [done|].
  cbn [foldl] in Hsome. constructor; [|by eapply IH].
  destruct acc as [[L U]|]; simpl in Hsome.
  - case_bool_decide; [done|]. simpl in Hsome.
    rewrite foldl_None in Hsome by done. by destruct Hsome.
  - rewrite foldl_None in Hsome by done. by destruct Hsome.
Qed.

Lemma local_m_bounds_fold_Some (m : local_m_map_t.t) (vloc : vloc_t)
    (acc : option map_t) :
  is_Some
    (foldl (λ (acc : option map_t) (id : loc_id_t),
              M ← acc;
              _ ← assert (bool_decide (id < local_m_map_t._loc_nb m));
              Mid ← deref (local_m_map_t._M m) id;
              '(_, M) ← update_map M Mid;
              Some M)
           acc vloc) →
  Forall (λ id, id < local_m_map_t._loc_nb m) vloc.
Proof.
  revert acc. induction vloc as [|id vloc IH]; intros acc Hsome; [done|].
  cbn [foldl] in Hsome. constructor; [|by eapply IH].
  destruct acc as [M|]; simpl in Hsome.
  - case_bool_decide; [done|]. simpl in Hsome.
    rewrite foldl_None in Hsome by done. by destruct Hsome.
  - rewrite foldl_None in Hsome by done. by destruct Hsome.
Qed.

Lemma assert_is_Some (b : bool) {A} (k : option A) :
  is_Some (_ ← assert b; k) ↔ b = true ∧ is_Some k.
Proof.
  destruct b; simpl; split; try done; [by intros [_ ?]|by intros [? _]..].
Qed.

Lemma local_lu_bounds_loc_is_Some (lu : local_lu_map_t.t) (id : loc_id_t)
    (L U : map_t) :
  local_lu_map_t.wf lu →
  is_Some (local_lu_map_t.bounds_loc NO_BOUND lu id L U) ↔
    id < local_lu_map_t._loc_nb lu ∧ 0 < local_lu_map_t._clock_nb lu ∧
    capacity L = local_lu_map_t._clock_nb lu ∧
    capacity U = local_lu_map_t._clock_nb lu.
Proof.
  intros Hlu. split.
  - unfold local_lu_map_t.bounds_loc.
    rewrite !assert_is_Some, !bool_decide_eq_true. tauto.
  - intros (Hid & Hclk & HcL & HcU).
    rewrite local_lu_bounds_loc by done. by eexists.
Qed.

Lemma local_lu_bounds_is_Some (lu : local_lu_map_t.t) (vloc : vloc_t)
    (L U : map_t) :
  local_lu_map_t.wf lu →
  is_Some (local_lu_map_t.bounds NO_BOUND lu vloc L U) ↔
    0 < local_lu_map_t._clock_nb lu ∧
    capacity L = local_lu_map_t._clock_nb lu ∧
    capacity U = local_lu_map_t._clock_nb lu ∧
    Forall (λ id, id < local_lu_map_t._loc_nb lu) vloc.
Proof.
  intros Hlu. split.
  - unfold local_lu_map_t.bounds.
    rewrite !assert_is_Some, !bool_decide_eq_true.
    intros (? & ? & ? & Hfold). split_and!; try done.
    by eapply local_lu_bounds_fold_Some.
  - intros (Hclk & HcL & HcU & Hvloc). unfold local_lu_map_t.bounds.
    rewrite !assert_true by (by apply bool_decide_eq_true). simpl.
    rewrite local_lu_bounds_fold by (by rewrite ?capacity_clear).
    by eexists.
Qed.

Lemma local_m_bounds_loc_is_Some (mm : local_m_map_t.t) (id : loc_id_t)
    (M : map_t) :
  local_m_map_t.wf mm →
  is_Some (local_m_map_t.bounds_loc NO_BOUND mm id M) ↔
    0 < local_m_map_t._clock_nb mm ∧ id < local_m_map_t._loc_nb mm ∧
    capacity M = local_m_map_t._clock_nb mm.
Proof.
  intros Hmm. split.
  - unfold local_m_map_t.bounds_loc.
    rewrite !assert_is_Some, !bool_decide_eq_true. tauto.
  - intros (Hclk & Hid & HcM).
    rewrite local_m_bounds_loc by done. by eexists.
Qed.

Lemma local_m_bounds_is_Some (mm : local_m_map_t.t) (vloc : vloc_t)
    (M : map_t) :
  local_m_map_t.wf mm →
  is_Some (local_m_map_t.bounds NO_BOUND mm vloc M) ↔
    0 < local_m_map_t._clock_nb mm ∧
    capacity M = local_m_map_t._clock_nb mm ∧
    Forall (λ id, id < local_m_map_t._loc_nb mm) vloc.
Proof.
  intros Hmm. split.
  - unfold local_m_map_t.bounds.
    rewrite !assert_is_Some, !bool_decide_eq_true.
    intros (? & ? & Hfold). split_and!; try done.
    by eapply local_m_bounds_fold_Some.
  - intros (Hclk & HcM & Hvloc). unfold local_m_map_t.bounds.
    rewrite !assert_true by (by apply bool_decide_eq_true). simpl.
    rewrite local_m_bounds_fold by (by rewrite ?capacity_clear).
    by eexists.
Qed.

(** X6. On a well-formed map the queries fail only through their
    assertions: the query at a location succeeds exactly when the location
    is below the number of locations, there is a clock and the arrays given
    have as many entries as there are clocks; the query at a tuple of
    locations succeeds exactly when there is a clock, the arrays have that
    capacity and every location of the tuple is below the number of
    locations. *)
Theorem local_bounds_succeed_iff
    (lu : local_lu_map_t.t) (mm : local_m_map_t.t)
    (vloc : vloc_t) (id : loc_id_t) (L U M : map_t) :
  local_lu_map_t.wf lu → local_m_map_t.wf mm →
  (is_Some (local_lu_map_t.bounds_loc NO_BOUND lu id L U) ↔
     id < local_lu_map_t._loc_nb lu ∧ 0 < local_lu_map_t._clock_nb lu ∧
     capacity L = local_lu_map_t._clock_nb lu ∧
     capacity U = local_lu_map_t._clock_nb lu) ∧
  (is_Some (local_lu_map_t.bounds NO_BOUND lu vloc L U) ↔
     0 < local_lu_map_t._clock_nb lu ∧
     capacity L = local_lu_map_t._clock_nb lu ∧
     capacity U = local_lu_map_t._clock_nb lu ∧
     Forall (λ id, id < local_lu_map_t._loc_nb lu) vloc) ∧
  (is_Some (local_m_map_t.bounds_loc NO_BOUND mm id M) ↔
     0 < local_m_map_t._clock_nb mm ∧ id < local_m_map_t._loc_nb mm ∧
     capacity M = local_m_map_t._clock_nb mm) ∧
  (is_Some (local_m_map_t.bounds NO_BOUND mm vloc M) ↔
     0 < local_m_map_t._clock_nb mm ∧
     capacity M = local_m_map_t._clock_nb mm ∧
     Forall (λ id, id < local_m_map_t._loc_nb mm) vloc).
Proof.
  intros Hlu Hmm. split_and!.
  - by apply local_lu_bounds_loc_is_Some.
  - by apply local_lu_bounds_is_Some.
  - by apply local_m_bounds_loc_is_Some.
  - by apply local_m_bounds_is_Some.
Qed.

(** X7. The queries overwrite the arrays that they are given: their
    result depends on the capacity of these arrays and not on their
    contents. *)
Theorem local_bounds_overwrite_their_arguments
    (lu : local_lu_map_t.t) (mm : local_m_map_t.t)
    (vloc : vloc_t) (id : loc_id_t) (L U M L' U' M' : map_t) :
  capacity L' = capacity L → capacity U' = capacity U →
  capacity M' = capacity M →
  local_lu_map_t.bounds_loc NO_BOUND lu id L' U'
  = local_lu_map_t.bounds_loc NO_BOUND lu id L U ∧
  local_lu_map_t.bounds NO_BOUND lu vloc L' U'
  = local_lu_map_t.bounds NO_BOUND lu vloc L U ∧
  local_m_map_t.bounds_loc NO_BOUND mm id M'
  = local_m_map_t.bounds_loc NO_BOUND mm id M ∧
  local_m_map_t.bounds NO_BOUND mm vloc M'
  = local_m_map_t.bounds NO_BOUND mm vloc M.
Proof.
  intros HL HU HM.
  unfold local_lu_map_t.bounds_loc, local_lu_map_t.bounds,
    local_m_map_t.bounds_loc, local_m_map_t.bounds.
  rewrite !clear_replicate. by rewrite HL, HU, HM.
Qed.

(** The maximum of a list of bounds, starting from [v]. *)
Lemma foldl_max_le (v z : Z) (l : list Z) :
  (foldl Z.max v l ≤ z)%Z ↔ (v ≤ z)%Z ∧ Forall (λ x, (x ≤ z)%Z) l.
Proof.
  revert v. induction l as [|x l IH]; intros v; simpl.
  - split; [by intros ?|by intros [? _]].
  - rewrite IH, Forall_cons, Z.max_lub_iff. tauto.
Qed.

Lemma foldl_max_same_elements (v : Z) (l l' : list Z) :
  (∀ x, x ∈ l ↔ x ∈ l') → foldl Z.max v l = foldl Z.max v l'.
Proof.
  intros Hsame.
  assert (Hle : ∀ l l' : list Z, (∀ x, x ∈ l → x ∈ l') →
            (foldl Z.max v l ≤ foldl Z.max v l')%Z).
  { intros l1 l2 Hsub. apply foldl_max_le.
    destruct (proj1 (foldl_max_le v (foldl Z.max v l2) l2)) as [Hv Hall]; [lia|].
    split; [done|]. rewrite Forall_forall in Hall |- *.
    intros x Hx. by apply Hall, Hsub. }
  apply Z.le_antisymm; apply Hle; intros x; apply Hsame.
Qed.

Lemma pointwise_max_list_same_elements (n : nat) (ms ms' : list map_t) :
  (∀ m, m ∈ ms ↔ m ∈ ms') →
  Forall (λ m, capacity m = n) ms →
  pointwise_max_list NO_BOUND n ms = pointwise_max_list NO_BOUND n ms'.
Proof.
  intros Hsame Hms.
  assert (Hms' : Forall (λ m, capacity m = n) ms').
  { rewrite Forall_forall in Hms |- *. intros m Hm. by apply Hms, Hsame. }
  apply list_eq. intros c.
  destruct (decide (c < n)) as [Hc|Hc].
  - rewrite !pointwise_max_list_lookup by done. f_equal.
    apply foldl_max_same_elements. intros x.
    rewrite !list_elem_of_fmap. split; intros (m & -> & Hm); exists m;
      (split; [done|by apply Hsame]).
  - rewrite !lookup_ge_None_2; [done|..].
    + unfold pointwise_max_list.
      pose proof (capacity_foldl_pointwise_max n (replicate n NO_BOUND) ms') as H.
      unfold capacity in H. rewrite H; [lia|by rewrite length_replicate|done].
    + unfold pointwise_max_list.
      pose proof (capacity_foldl_pointwise_max n (replicate n NO_BOUND) ms) as H.
      unfold capacity in H. rewrite H; [lia|by rewrite length_replicate|done].
Qed.

Lemma stored_capacities (v : list (option map_t)) (n : nat)
    (clock_nb : clock_id_t) (vloc : vloc_t) :
  length v = n →
  Forall (λ a, allocated clock_nb a = true) v →
  Forall (λ id, id < n) vloc →
  Forall (λ m, capacity m = clock_nb) (stored v <$> vloc).
Proof.
  intros Hlen Hall Hvloc. apply Forall_fmap.
  eapply Forall_impl; [exact Hvloc|]. intros id Hid. simpl.
  by destruct (deref_stored v n clock_nb id Hlen Hall Hid).
Qed.

Lemma stored_same_elements (v : list (option map_t)) (vloc vloc' : vloc_t) :
  (∀ id, id ∈ vloc ↔ id ∈ vloc') →
  ∀ m, m ∈ stored v <$> vloc ↔ m ∈ stored v <$> vloc'.
Proof.
  intros Hsame m. rewrite !list_elem_of_fmap.
  split; intros (id & -> & Hid); exists id; (split; [done|by apply Hsame]).
Qed.

Lemma local_lu_bounds_eq (lu : local_lu_map_t.t) (vloc : vloc_t) (L U : map_t) :
  local_lu_map_t.wf lu → 0 < local_lu_map_t._clock_nb lu →
  capacity L = local_lu_map_t._clock_nb lu →
  capacity U = local_lu_map_t._clock_nb lu →
  Forall (λ id, id < local_lu_map_t._loc_nb lu) vloc →
  local_lu_map_t.bounds NO_BOUND lu vloc L U
  = Some (pointwise_max_list NO_BOUND (local_lu_map_t._clock_nb lu)
            (stored (local_lu_map_t._L lu) <$> vloc),
          pointwise_max_list NO_BOUND (local_lu_map_t._clock_nb lu)
            (stored (local_lu_map_t._U lu) <$> vloc)).
Proof.
  intros Hlu Hclk HcL HcU Hvloc. unfold local_lu_map_t.bounds.
  rewrite !assert_true by (by apply bool_decide_eq_true). simpl.
  rewrite local_lu_bounds_fold by (by rewrite ?capacity_clear).
  by rewrite !clear_replicate, HcL, HcU.
Qed.

Lemma local_m_bounds_eq (mm : local_m_map_t.t) (vloc : vloc_t) (M : map_t) :
  local_m_map_t.wf mm → 0 < local_m_map_t._clock_nb mm →
  capacity M = local_m_map_t._clock_nb mm →
  Forall (λ id, id < local_m_map_t._loc_nb mm) vloc →
  local_m_map_t.bounds NO_BOUND mm vloc M
  = Some (pointwise_max_list NO_BOUND (local_m_map_t._clock_nb mm)
            (stored (local_m_map_t._M mm) <$> vloc)).
Proof.
  intros Hmm Hclk HcM Hvloc. unfold local_m_map_t.bounds.
  rewrite !assert_true by (by apply bool_decide_eq_true). simpl.
  rewrite local_m_bounds_fold by (by rewrite ?capacity_clear).
  by rewrite !clear_replicate, HcM.
Qed.

Lemma Forall_same_elements {A} (P : A → Prop) (l l' : list A) :
  (∀ x, x ∈ l ↔ x ∈ l') → Forall P l ↔ Forall P l'.
Proof.
  intros Hsame. rewrite !Forall_forall. split; intros H x Hx; by apply H, Hsame.
Qed.

(** X8. On well-formed maps, the bounds of a tuple of locations depend on
    the set of its locations only: neither the order of the locations nor
    their repetition matters. *)
Theorem local_bounds_depend_on_the_set_of_locations
    (lu : local_lu_map_t.t) (mm : local_m_map_t.t)
    (vloc vloc' : vloc_t) (L U M : map_t) :
  local_lu_map_t.wf lu → local_m_map_t.wf mm →
  (∀ id, id ∈ vloc ↔ id ∈ vloc') →
  local_lu_map_t.bounds NO_BOUND lu vloc' L U
  = local_lu_map_t.bounds NO_BOUND lu vloc L U ∧
  local_m_map_t.bounds NO_BOUND mm vloc' M
  = local_m_map_t.bounds NO_BOUND mm vloc M.
Proof.
  intros Hlu Hmm Hsame. split.
  - destruct (local_lu_map_t.bounds NO_BOUND lu vloc L U) as [r|] eqn:Hr.
    + assert (Hsome : is_Some (local_lu_map_t.bounds NO_BOUND lu vloc L U))
        by (by eexists).
      apply local_lu_bounds_is_Some in Hsome as (Hclk & HcL & HcU & Hvloc);
        [|done].
      assert (Hvloc' : Forall (λ id, id < local_lu_map_t._loc_nb lu) vloc')
        by (by apply (Forall_same_elements _ vloc)).
      rewrite local_lu_bounds_eq in Hr |- * by done. rewrite <- Hr.
      destruct Hlu as (HL & HU & HLs & HUs).
      f_equal. f_equal; symmetry; apply pointwise_max_list_same_elements;
        eauto using stored_same_elements, stored_capacities.
    + apply eq_None_not_Some. intros Hsome.
      apply local_lu_bounds_is_Some in Hsome as (Hclk & HcL & HcU & Hvloc');
        [|done].
      assert (is_Some (local_lu_map_t.bounds NO_BOUND lu vloc L U)) as [? ?];
        [|congruence].
      apply local_lu_bounds_is_Some; [done|]. split_and!; [done..|].
      by apply (Forall_same_elements _ vloc').
  - destruct (local_m_map_t.bounds NO_BOUND mm vloc M) as [r|] eqn:Hr.
    + assert (Hsome : is_Some (local_m_map_t.bounds NO_BOUND mm vloc M))
        by (by eexists).
      apply local_m_bounds_is_Some in Hsome as (Hclk & HcM & Hvloc); [|done].
      assert (Hvloc' : Forall (λ id, id < local_m_map_t._loc_nb mm) vloc')
        by (by apply (Forall_same_elements _ vloc)).
      rewrite local_m_bounds_eq in Hr |- * by done. rewrite <- Hr.
      destruct Hmm as (HM & HMs).
      f_equal. symmetry. apply pointwise_max_list_same_elements;
        eauto using stored_same_elements, stored_capacities.
    + apply eq_None_not_Some. intros Hsome.
      apply local_m_bounds_is_Some in Hsome as (Hclk & HcM & Hvloc'); [|done].
      assert (is_Some (local_m_map_t.bounds NO_BOUND mm vloc M)) as [? ?];
        [|congruence].
      apply local_m_bounds_is_Some; [done|]. split_and!; [done..|].
      by apply (Forall_same_elements _ vloc').
Qed.

Lemma pointwise_max_replicate (x : Z) (n : nat) (l : map_t) :
  capacity l ≤ n → pointwise_max (replicate n x) l = Z.max x <$> l.
Proof.
  unfold capacity, pointwise_max. revert n.
  induction l as [|y l IH]; intros [|n] Hn; simpl in *; try done; try lia.
  f_equal. apply IH. lia.
Qed.

Lemma fmap_max_above (x : Z) (l : map_t) :
  Forall (λ b, (x ≤ b)%Z) l → Z.max x <$> l = l.
Proof.
  induction 1 as [|b l Hb _ IH]; simpl; [done|].
  f_equal; [by apply Z.max_r|done].
Qed.

Lemma local_lu_bounds_singleton (lu : local_lu_map_t.t) (id : loc_id_t)
    (L U : map_t) :
  local_lu_map_t.bounds NO_BOUND lu [id] L U
  = local_lu_map_t.bounds_loc NO_BOUND lu id L U.
Proof.
  unfold local_lu_map_t.bounds, local_lu_map_t.bounds_loc.
  repeat (case_bool_decide; simpl; try done).
Qed.

Lemma local_m_bounds_singleton (mm : local_m_map_t.t) (id : loc_id_t)
    (M : map_t) :
  local_m_map_t.bounds NO_BOUND mm [id] M
  = local_m_map_t.bounds_loc NO_BOUND mm id M.
Proof.
  unfold local_m_map_t.bounds, local_m_map_t.bounds_loc.
  repeat (case_bool_decide; simpl; try done).
Qed.

(** X9. On well-formed maps, the bounds of a location are the arrays
    stored for it, those that [L], [U] and [M] answer, an entry below
    [NO_BOUND] being reported as [NO_BOUND]; they are the stored arrays
    themselves when no entry is below [NO_BOUND].  The query at the tuple
    made of one location is the query at that location. *)
Theorem local_bounds_at_a_location_are_the_stored_bounds
    (lu : local_lu_map_t.t) (mm : local_m_map_t.t) (id : loc_id_t)
    (L U M : map_t) :
  local_lu_map_t.wf lu → 0 < local_lu_map_t._clock_nb lu →
  capacity L = local_lu_map_t._clock_nb lu →
  capacity U = local_lu_map_t._clock_nb lu →
  id < local_lu_map_t._loc_nb lu →
  local_m_map_t.wf mm → 0 < local_m_map_t._clock_nb mm →
  capacity M = local_m_map_t._clock_nb mm →
  id < local_m_map_t._loc_nb mm →
  ∃ l u m : map_t,
    local_lu_map_t.L lu id = Some l ∧
    local_lu_map_t.U lu id = Some u ∧
    local_m_map_t.M mm id = Some m ∧
    local_lu_map_t.bounds_loc NO_BOUND lu id L U
    = Some (Z.max NO_BOUND <$> l, Z.max NO_BOUND <$> u) ∧
    local_m_map_t.bounds_loc NO_BOUND mm id M = Some (Z.max NO_BOUND <$> m) ∧
    (Forall (λ b, (NO_BOUND ≤ b)%Z) l → Forall (λ b, (NO_BOUND ≤ b)%Z) u →
     local_lu_map_t.bounds_loc NO_BOUND lu id L U = Some (l, u)) ∧
    (Forall (λ b, (NO_BOUND ≤ b)%Z) m →
     local_m_map_t.bounds_loc NO_BOUND mm id M = Some m) ∧
    local_lu_map_t.bounds NO_BOUND lu [id] L U
    = local_lu_map_t.bounds_loc NO_BOUND lu id L U ∧
    local_m_map_t.bounds NO_BOUND mm [id] M
    = local_m_map_t.bounds_loc NO_BOUND mm id M.
Proof.
  intros Hlu Hclk HcL HcU Hid Hmm Hclk' HcM Hid'.
  pose proof Hlu as (HL & HU & HLs & HUs). pose proof Hmm as (HM & HMs).
  destruct (deref_stored _ _ _ id HL HLs Hid) as [HdL HsL].
  destruct (deref_stored _ _ _ id HU HUs Hid) as [HdU HsU].
  destruct (deref_stored _ _ _ id HM HMs Hid') as [HdM HsM].
  exists (stored (local_lu_map_t._L lu) id), (stored (local_lu_map_t._U lu) id),
    (stored (local_m_map_t._M mm) id).
  assert (Hlu_loc : local_lu_map_t.bounds_loc NO_BOUND lu id L U
            = Some (Z.max NO_BOUND <$> stored (local_lu_map_t._L lu) id,
                    Z.max NO_BOUND <$> stored (local_lu_map_t._U lu) id)).
  { rewrite local_lu_bounds_loc by done.
    by rewrite !pointwise_max_replicate by lia. }
  assert (Hmm_loc : local_m_map_t.bounds_loc NO_BOUND mm id M
            = Some (Z.max NO_BOUND <$> stored (local_m_map_t._M mm) id)).
  { rewrite local_m_bounds_loc by done.
    by rewrite !pointwise_max_replicate by lia. }
  unfold local_lu_map_t.L, local_lu_map_t.U, local_m_map_t.M.
  rewrite !assert_true by (by apply bool_decide_eq_true). simpl.
  split_and!; try done.
  - intros Hl Hu. by rewrite Hlu_loc, !fmap_max_above.
  - intros Hm. by rewrite Hmm_loc, !fmap_max_above.
  - apply local_lu_bounds_singleton.
  - apply local_m_bounds_singleton.
Qed.

(** *** Copies and moves *)

Lemma insert_take_replicate {A} (l : list A) (k n : nat) (x d : A) :
  l !! k = Some x → k < n →
  <[k := x]> (take k l ++ replicate (n - k) d)
  = take (S k) l ++ replicate (n - S k) d.
Proof.
  intros Hk Hn. pose proof (lookup_lt_Some _ _ _ Hk) as Hlen.
  rewrite (take_S_r _ _ _ Hk).
  rewrite insert_app_r_alt by (rewrite length_take; lia).
  rewrite length_take, Nat.min_l, Nat.sub_diag by lia.
  replace (n - k) with (S (n - S k)) by lia.
  simpl. by rewrite <- app_assoc.
Qed.

Lemma deref_Some (v : list (option map_t)) (id : loc_id_t) (m : map_t) :
  deref v id = Some m ↔ v !! id = Some (Some m).
Proof.
  unfold deref. destruct (v !! id) as [[?|]|]; simpl; naive_solver.
Qed.

Lemma local_lu_copy_steps (m : local_lu_map_t.t) (k : nat) :
  local_lu_map_t.wf m → k ≤ local_lu_map_t._loc_nb m →
  foldl (λ (acc : option (list (option map_t) * list (option map_t)))
           (id : loc_id_t),
           '(L, U) ← acc;
           Lid ← deref (local_lu_map_t._L m) id;
           Lclone ← clone_map NO_BOUND Lid;
           Uid ← deref (local_lu_map_t._U m) id;
           Uclone ← clone_map NO_BOUND Uid;
           Some (<[id := Some Lclone]> L, <[id := Some Uclone]> U))
        (Some (null_vector (local_lu_map_t._loc_nb m),
               null_vector (local_lu_map_t._loc_nb m))) (seq 0 k)
  = Some (take k (local_lu_map_t._L m)
            ++ replicate (local_lu_map_t._loc_nb m - k) None,
          take k (local_lu_map_t._U m)
            ++ replicate (local_lu_map_t._loc_nb m - k) None).
Proof.
  intros (HL & HU & HLs & HUs). induction k as [|k IH]; intros Hk.
  - simpl. by rewrite Nat.sub_0_r.
  - rewrite seq_S, foldl_app, IH by lia. simpl.
    destruct (deref_stored _ _ _ k HL HLs) as [HdL _]; [lia|].
    destruct (deref_stored _ _ _ k HU HUs) as [HdU _]; [lia|].
    rewrite HdL. simpl. rewrite clone_map_eq. simpl.
    rewrite HdU. simpl. rewrite clone_map_eq. simpl.
    apply deref_Some in HdL, HdU.
    by rewrite !insert_take_replicate by (done || lia).
Qed.

Lemma local_m_copy_steps (m : local_m_map_t.t) (k : nat) :
  local_m_map_t.wf m → k ≤ local_m_map_t._loc_nb m →
  foldl (λ (acc : option (list (option map_t))) (id : loc_id_t),
           M ← acc;
           Mid ← deref (local_m_map_t._M m) id;
           Mclone ← clone_map NO_BOUND Mid;
           Some (<[id := Some Mclone]> M))
        (Some (null_vector (local_m_map_t._loc_nb m))) (seq 0 k)
  = Some (take k (local_m_map_t._M m)
            ++ replicate (local_m_map_t._loc_nb m - k) None).
Proof.
  intros (HM & HMs). induction k as [|k IH]; intros Hk.
  - simpl. by rewrite Nat.sub_0_r.
  - rewrite seq_S, foldl_app, IH by lia. simpl.
    destruct (deref_stored _ _ _ k HM HMs) as [HdM _]; [lia|].
    rewrite HdM. simpl. rewrite clone_map_eq. simpl.
    apply deref_Some in HdM.
    by rewrite !insert_take_replicate by (done || lia).
Qed.

(** X10. The copy constructors of the local maps answer a map equal to
    their argument when it is well formed and has a clock; when it has no
    clock they answer the map that [resize] gives for the same number of
    locations, with null entries. *)
Theorem local_copy_constructors_copy
    (lu : local_lu_map_t.t) (mm : local_m_map_t.t) :
  (local_lu_map_t.wf lu → 0 < local_lu_map_t._clock_nb lu →
   local_lu_map_t.copy NO_BOUND lu = Some lu) ∧
  (local_m_map_t.wf mm → 0 < local_m_map_t._clock_nb mm →
   local_m_map_t.copy NO_BOUND mm = Some mm) ∧
  (local_lu_map_t._clock_nb lu = 0 →
   local_lu_map_t.copy NO_BOUND lu
   = Some (local_lu_map_t.resize NO_BOUND (local_lu_map_t._loc_nb lu) 0)) ∧
  (local_m_map_t._clock_nb mm = 0 →
   local_m_map_t.copy NO_BOUND mm
   = Some (local_m_map_t.resize NO_BOUND (local_m_map_t._loc_nb mm) 0)).
Proof.
  split_and!.
  - intros Hlu Hclk. unfold local_lu_map_t.copy.
    rewrite bool_decide_eq_true_2 by done.
    rewrite local_lu_copy_steps by done. simpl.
    destruct Hlu as (HL & HU & _). destruct lu as [loc_nb clock_nb Ls Us].
    simpl in *. rewrite Nat.sub_diag. simpl. rewrite !app_nil_r.
    by rewrite !take_ge by lia.
  - intros Hmm Hclk. unfold local_m_map_t.copy.
    rewrite bool_decide_eq_true_2 by done.
    rewrite local_m_copy_steps by done. simpl.
    destruct Hmm as (HM & _). destruct mm as [loc_nb clock_nb Ms].
    simpl in *. rewrite Nat.sub_diag. simpl. rewrite !app_nil_r.
    by rewrite !take_ge by lia.
  - intros Hclk. unfold local_lu_map_t.copy. by rewrite Hclk.
  - intros Hclk. unfold local_m_map_t.copy. by rewrite Hclk.
Qed.

Lemma local_lu_clear_Some (m : local_lu_map_t.t) :
  (0 < local_lu_map_t._clock_nb m → local_lu_map_t.wf m) →
  local_lu_map_t.clear m = Some (local_lu_map_t.mk 0 0 [] []).
Proof.
  intros Hwf. unfold local_lu_map_t.clear. case_bool_decide as Hclk; [|done].
  destruct (Hwf Hclk) as (HL & HU & HLs & HUs).
  assert (Hsteps : ∀ k, k ≤ local_lu_map_t._loc_nb m →
            foldl (λ (acc : option unit) (id : loc_id_t),
                     _ ← acc;
                     _ ← deref (local_lu_map_t._L m) id;
                     _ ← deref (local_lu_map_t._U m) id;
                     Some ())
                  (Some ()) (seq 0 k) = Some ()).
  { induction k as [|k IH]; intros Hk; [done|].
    rewrite seq_S, foldl_app, IH by lia. simpl.
    destruct (deref_stored _ _ _ k HL HLs) as [-> _]; [lia|].
    by destruct (deref_stored _ _ _ k HU HUs) as [-> _]; [lia|]. }
  by rewrite Hsteps.
Qed.

Lemma local_lu_clear_None (m : local_lu_map_t.t) :
  0 < local_lu_map_t._clock_nb m → 0 < local_lu_map_t._loc_nb m →
  local_lu_map_t._L m = [] →
  local_lu_map_t.clear m = None.
Proof.
  intros Hclk Hloc HL. unfold local_lu_map_t.clear.
  rewrite bool_decide_eq_true_2 by done.
  destruct (local_lu_map_t._loc_nb m) as [|n]; [lia|].
  cbn [seq foldl]. rewrite HL. simpl. by rewrite foldl_None.
Qed.

(** X11. The move constructor of the local LU map takes the two vectors
    of its argument and then sets to zero the numbers of locations and of
    clocks of the object that it constructs, not those of its argument.
    The object constructed reports no location and no clock, and every
    accessor and query fails on it, though it holds the arrays; its
    [clear] deallocates nothing.  The argument keeps its two numbers with
    empty vectors: its accessors fail, and its [clear] reads out of range
    as soon as it had a location and a clock.  The move constructor of the
    local M map hands its argument over as it is, and empties it. *)
Theorem local_lu_move_constructor_resets_the_object_constructed
    (m : local_lu_map_t.t) (mm : local_m_map_t.t) :
  let '(this, m') := local_lu_map_t.move m in
  local_lu_map_t._L this = local_lu_map_t._L m ∧
  local_lu_map_t._U this = local_lu_map_t._U m ∧
  local_lu_map_t.loc_number this = 0 ∧
  local_lu_map_t.clock_number this = 0 ∧
  (∀ id, local_lu_map_t.L this id = None ∧ local_lu_map_t.U this id = None) ∧
  (∀ id L U, local_lu_map_t.bounds_loc NO_BOUND this id L U = None) ∧
  (∀ vloc L U, local_lu_map_t.bounds NO_BOUND this vloc L U = None) ∧
  local_lu_map_t.clear this = Some (local_lu_map_t.mk 0 0 [] []) ∧
  local_lu_map_t.loc_number m' = local_lu_map_t.loc_number m ∧
  local_lu_map_t.clock_number m' = local_lu_map_t.clock_number m ∧
  (∀ id, local_lu_map_t.L m' id = None ∧ local_lu_map_t.U m' id = None) ∧
  (0 < local_lu_map_t.loc_number m → 0 < local_lu_map_t.clock_number m →
   local_lu_map_t.clear m' = None) ∧
  local_m_map_t.move mm = (mm, local_m_map_t.mk 0 0 []).
Proof.
  simpl. split_and!; try done.
  - intros id. unfold local_lu_map_t.L, local_lu_map_t.U, deref. simpl.
    by repeat case_bool_decide.
  - intros Hloc Hclk. by apply local_lu_clear_None.
  - by destruct mm.
Qed.

(** X12. Move assignment to a local LU map, well formed when it has a
    clock, gives the argument as it was and leaves the argument empty;
    copy assignment gives a map equal to the argument when the argument is
    well formed and has a clock. *)
Theorem local_lu_assignments_replace_the_target
    (this m : local_lu_map_t.t) :
  (0 < local_lu_map_t._clock_nb this → local_lu_map_t.wf this) →
  local_lu_map_t.move_assign this m = Some (m, local_lu_map_t.mk 0 0 [] []) ∧
  (local_lu_map_t.wf m → 0 < local_lu_map_t._clock_nb m →
   local_lu_map_t.copy_assign NO_BOUND this m = Some m).
Proof.
  intros Hthis.
  unfold local_lu_map_t.move_assign, local_lu_map_t.copy_assign.
  rewrite local_lu_clear_Some by done. simpl. split.
  - by destruct m.
  - intros Hm Hclk. unfold local_lu_map_t.copy.
    rewrite bool_decide_eq_true_2 by done.
    rewrite local_lu_copy_steps by done. simpl.
    destruct Hm as (HL & HU & _). destruct m as [loc_nb clock_nb Ls Us].
    simpl in *. rewrite Nat.sub_diag. simpl. rewrite !app_nil_r.
    by rewrite !take_ge by lia.
Qed.

End local_map_objects.

(** *** The maps that do not depend on the location *)

Section global_maps.
Variable NO_BOUND : bound_t.

Lemma global_lu_clear_ok (m : global_lu_map_t.t) :
  global_lu_ok m →
  ∃ m', global_lu_map_t.clear m = Some m' ∧
        global_lu_map_t._clock_nb m' = 0 ∧
        (0 < global_lu_map_t._clock_nb m →
         global_lu_map_t._L m' = dangling ∧ global_lu_map_t._U m' = dangling).
Proof.
  intros Hok. unfold global_lu_map_t.clear. case_bool_decide as Hclk.
  - destruct (Hok Hclk) as (l & u & -> & -> & _). simpl. by eexists.
  - eexists. split_and!; [done..|]. by intros ?.
Qed.

Lemma global_m_clear_ok (m : global_m_map_t.t) :
  global_m_ok m → global_m_map_t.clear m = Some global_m_map_t.init.
Proof.
  intros Hok. unfold global_m_map_t.clear. case_bool_decide as Hclk; [|done].
  by destruct (Hok Hclk) as (mM & -> & _).
Qed.

Lemma cleared_allocate_map (clock_nb : clock_id_t) :
  clockbounds.clear NO_BOUND (allocate_map NO_BOUND clock_nb)
  = replicate clock_nb NO_BOUND.
Proof.
  rewrite allocate_map_replicate, clear_replicate. unfold capacity.
  by rewrite length_replicate.
Qed.

Lemma global_lu_resize_ok (lu : global_lu_map_t.t) (clock_nb : clock_id_t) :
  global_lu_ok lu →
  ∃ lu',
    global_lu_map_t.resize NO_BOUND lu clock_nb = Some lu' ∧
    global_lu_ok lu' ∧ global_lu_map_t.clock_number lu' = clock_nb ∧
    global_lu_map_t.L lu'
    = (if bool_decide (0 < clock_nb) then Some (replicate clock_nb NO_BOUND)
       else None) ∧
    global_lu_map_t.U lu'
    = (if bool_decide (0 < clock_nb) then Some (replicate clock_nb NO_BOUND)
       else None).
Proof.
  intros Hlu.
  destruct (global_lu_clear_ok lu Hlu) as (lu0 & Hclear & Hclk0 & Hdangling).
  unfold global_lu_map_t.resize. rewrite Hclear. simpl.
  case_bool_decide as Hclk.
  - eexists. split; [done|]. rewrite cleared_allocate_map.
    unfold global_lu_map_t.L, global_lu_map_t.U. simpl.
    rewrite bool_decide_eq_true_2 by done. split_and!; try done.
    intros _. simpl. eexists _, _. split_and!; try done;
      unfold capacity; by rewrite length_replicate.
  - eexists. split; [done|]. assert (clock_nb = 0) as -> by lia.
    split_and!; try done. intros Hpos. simpl in Hpos. lia.
Qed.

Lemma global_m_resize_ok (mm : global_m_map_t.t) (clock_nb : clock_id_t) :
  global_m_ok mm →
  ∃ mm',
    global_m_map_t.resize NO_BOUND mm clock_nb = Some mm' ∧
    global_m_ok mm' ∧ global_m_map_t.clock_number mm' = clock_nb ∧
    global_m_map_t.M mm'
    = (if bool_decide (0 < clock_nb) then Some (replicate clock_nb NO_BOUND)
       else None).
Proof.
  intros Hmm.
  unfold global_m_map_t.resize. rewrite (global_m_clear_ok mm Hmm). simpl.
  case_bool_decide as Hclk.
  - eexists. split; [done|]. rewrite cleared_allocate_map.
    unfold global_m_map_t.M. simpl.
    rewrite bool_decide_eq_true_2 by done. split_and!; try done.
    intros _. simpl. eexists. split; [done|].
    unfold capacity. by rewrite length_replicate.
  - eexists. split; [done|]. assert (clock_nb = 0) as -> by lia.
    split_and!; try done. intros Hpos. simpl in Hpos. lia.
Qed.

(** X13. On global maps whose pointers point to arrays of the right
    capacity whenever there is a clock, [resize] and [clear] do not fail
    and keep that property.  After [resize] the accessors answer arrays of
    [NO_BOUND], and fail when there is no clock.  [clear] leaves the two
    pointers of the global LU map dangling, and resets the pointer of the
    global M map; no member function follows a dangling pointer: on the
    cleared map the accessors and the query fail on their assertion, the
    copy constructor answers null pointers, and a second [clear]
    deallocates nothing. *)
Theorem global_resize_and_clear_guard_the_pointers
    (lu : global_lu_map_t.t) (mm : global_m_map_t.t) (clock_nb : clock_id_t) :
  global_lu_ok lu → global_m_ok mm →
  let cleared :=
    if bool_decide (0 < clock_nb) then Some (replicate clock_nb NO_BOUND)
    else None in
  (∃ lu',
     global_lu_map_t.resize NO_BOUND lu clock_nb = Some lu' ∧
     global_lu_ok lu' ∧ global_lu_map_t.clock_number lu' = clock_nb ∧
     global_lu_map_t.L lu' = cleared ∧ global_lu_map_t.U lu' = cleared) ∧
  (∃ mm',
     global_m_map_t.resize NO_BOUND mm clock_nb = Some mm' ∧
     global_m_ok mm' ∧ global_m_map_t.clock_number mm' = clock_nb ∧
     global_m_map_t.M mm' = cleared) ∧
  (∃ lu',
     global_lu_map_t.clear lu = Some lu' ∧
     global_lu_ok lu' ∧ global_lu_map_t.clock_number lu' = 0 ∧
     (0 < global_lu_map_t.clock_number lu →
      global_lu_map_t._L lu' = dangling ∧ global_lu_map_t._U lu' = dangling) ∧
     global_lu_map_t.L lu' = None ∧ global_lu_map_t.U lu' = None ∧
     (∀ L U, global_lu_map_t.bounds NO_BOUND lu' L U = None) ∧
     global_lu_map_t.copy NO_BOUND lu' = Some global_lu_map_t.init ∧
     global_lu_map_t.clear lu' = Some lu') ∧
  global_m_map_t.clear mm = Some global_m_map_t.init.
Proof.
  intros Hlu Hmm cleared. subst cleared.
  destruct (global_lu_clear_ok lu Hlu) as (lu0 & Hclear & Hclk0 & Hdangling).
  split_and!.
  - by apply global_lu_resize_ok.
  - by apply global_m_resize_ok.
  - exists lu0. destruct lu0 as [n0 L0 U0]. simpl in *. subst n0.
    split_and!; try done.
    intros Hpos. simpl in Hpos. lia.
  - by apply global_m_clear_ok.
Qed.

(** X14. The bounds of the global LU map are the stored arrays, an entry
    below [NO_BOUND] being reported as [NO_BOUND], at every location and
    at every tuple of locations: the location is not looked at, and no
    location is refused. *)
Theorem global_lu_bounds_are_the_same_at_every_location
    (m : global_lu_map_t.t) (L U : map_t) :
  global_lu_ok m → 0 < global_lu_map_t._clock_nb m →
  capacity L = global_lu_map_t._clock_nb m →
  capacity U = global_lu_map_t._clock_nb m →
  ∃ l u : map_t,
    global_lu_map_t.L m = Some l ∧ global_lu_map_t.U m = Some u ∧
    global_lu_map_t.bounds NO_BOUND m L U
    = Some (Z.max NO_BOUND <$> l, Z.max NO_BOUND <$> u) ∧
    (Forall (λ b, (NO_BOUND ≤ b)%Z) l → Forall (λ b, (NO_BOUND ≤ b)%Z) u →
     global_lu_map_t.bounds NO_BOUND m L U = Some (l, u)) ∧
    ∀ (id : loc_id_t) (vloc : vloc_t),
      global_lu_map_t.bounds_loc NO_BOUND m id L U = Some (Z.max NO_BOUND <$> l, Z.max NO_BOUND <$> u) ∧
      global_lu_map_t.bounds_vloc NO_BOUND m vloc L U = Some (Z.max NO_BOUND <$> l, Z.max NO_BOUND <$> u).
Proof.
  intros Hok Hclk HcL HcU. destruct (Hok Hclk) as (l & u & HL & HU & Hl & Hu).
  exists l, u.
  assert (Hbounds : global_lu_map_t.bounds NO_BOUND m L U
            = Some (Z.max NO_BOUND <$> l, Z.max NO_BOUND <$> u)).
  { unfold global_lu_map_t.bounds.
    rewrite !assert_true by (by apply bool_decide_eq_true). simpl.
    rewrite HL, HU. simpl.
    rewrite !clear_then_update by congruence. simpl.
    by rewrite !pointwise_max_replicate by lia. }
  unfold global_lu_map_t.L, global_lu_map_t.U.
  rewrite !assert_true by (by apply bool_decide_eq_true). simpl.
  rewrite HL, HU. split_and!; try done.
  intros Hl' Hu'. by rewrite Hbounds, !fmap_max_above.
Qed.

(** X15. The query of the global M map does not assert the capacity of
    the array that it is given: an array shorter than the number of
    clocks is filled from the first entries of the stored array, and a
    longer one is a read out of range.  The location is not looked at. *)
Theorem global_m_bounds_do_not_check_the_capacity
    (m : global_m_map_t.t) (M : map_t) :
  global_m_ok m → 0 < global_m_map_t._clock_nb m →
  ∃ mM : map_t,
    global_m_map_t.M m = Some mM ∧
    (capacity M ≤ global_m_map_t._clock_nb m →
     global_m_map_t.bounds NO_BOUND m M
     = Some (Z.max NO_BOUND <$> take (capacity M) mM)) ∧
    (global_m_map_t._clock_nb m < capacity M →
     global_m_map_t.bounds NO_BOUND m M = None) ∧
    ∀ (id : loc_id_t) (vloc : vloc_t),
      global_m_map_t.bounds_loc NO_BOUND m id M
      = global_m_map_t.bounds NO_BOUND m M ∧
      global_m_map_t.bounds_vloc NO_BOUND m vloc M
      = global_m_map_t.bounds NO_BOUND m M.
Proof.
  intros Hok Hclk. destruct (Hok Hclk) as (mM & HM & Hcap). exists mM.
  split_and!; [| | |done]; unfold global_m_map_t.M, global_m_map_t.bounds;
    rewrite !assert_true by (by apply bool_decide_eq_true); simpl;
    rewrite HM; simpl; [done| |].
  - intros Hle. rewrite update_map_max by (rewrite capacity_clear; lia).
    simpl. rewrite clear_replicate. f_equal.
    rewrite <- pointwise_max_take_r. unfold capacity at 2.
    rewrite length_replicate. apply pointwise_max_replicate.
    unfold capacity. rewrite length_take. lia.
  - intros Hlt. by rewrite update_map_short by (rewrite capacity_clear; lia).
Qed.

Lemma local_m_clear_Some (m : local_m_map_t.t) :
  (0 < local_m_map_t._clock_nb m → local_m_map_t.wf m) →
  local_m_map_t.clear m = Some (local_m_map_t.mk 0 0 []).
Proof.
  intros Hwf. unfold local_m_map_t.clear. case_bool_decide as Hclk; [|done].
  destruct (Hwf Hclk) as (HM & HMs).
  assert (Hsteps : ∀ k, k ≤ local_m_map_t._loc_nb m →
            foldl (λ (acc : option unit) (id : loc_id_t),
                     _ ← acc;
                     _ ← deref (local_m_map_t._M m) id;
                     Some ())
                  (Some ()) (seq 0 k) = Some ()).
  { induction k as [|k IH]; intros Hk; [done|].
    rewrite seq_S, foldl_app, IH by lia. simpl.
    by destruct (deref_stored _ _ _ k HM HMs) as [-> _]; [lia|]. }
  by rewrite Hsteps.
Qed.

Lemma local_resize_dimensions (loc_nb : loc_id_t) (clock_nb : clock_id_t) :
  local_lu_map_t._loc_nb (local_lu_map_t.resize NO_BOUND loc_nb clock_nb) = loc_nb ∧
  local_lu_map_t._clock_nb (local_lu_map_t.resize NO_BOUND loc_nb clock_nb) = clock_nb ∧
  local_m_map_t._loc_nb (local_m_map_t.resize NO_BOUND loc_nb clock_nb) = loc_nb ∧
  local_m_map_t._clock_nb (local_m_map_t.resize NO_BOUND loc_nb clock_nb) = clock_nb.
Proof.
  destruct (decide (0 < clock_nb)) as [Hclk|Hclk].
  - by rewrite local_lu_resize, local_m_resize.
  - by assert (clock_nb = 0) as -> by lia.
Qed.

Lemma resized_consistent (glu : global_lu_map_t.t) (gm : global_m_map_t.t)
    (loc_nb : loc_id_t) (clock_nb : clock_id_t) :
  global_lu_ok glu → global_lu_map_t.clock_number glu = clock_nb →
  global_m_ok gm → global_m_map_t.clock_number gm = clock_nb →
  consistent
    (clockbounds_t.mk glu gm
       (local_lu_map_t.resize NO_BOUND loc_nb clock_nb)
       (local_m_map_t.resize NO_BOUND loc_nb clock_nb))
    loc_nb clock_nb.
Proof.
  intros Hglu Hn Hgm Hn'.
  destruct (local_resize_dimensions loc_nb clock_nb) as (? & ? & ? & ?).
  unfold consistent. simpl. split_and!; try done.
  intros Hclk. split; [by apply local_lu_resize_wf|by apply local_m_resize_wf].
Qed.

(** X16. The constructor of [clockbounds_t], its [resize] and its [clear]
    keep the four maps consistent: they agree on the numbers of clocks and
    of locations, and each obeys the invariant of its class; [resize] and
    [clear] do not fail on four consistent maps. *)
Theorem clockbounds_resize_keeps_the_four_maps_consistent
    (c : clockbounds_t.t) (l loc_nb : loc_id_t) (k clock_nb : clock_id_t) :
  (∃ c0,
     clockbounds_t.make NO_BOUND loc_nb clock_nb = Some c0 ∧
     consistent c0 loc_nb clock_nb) ∧
  (consistent c l k →
   (∃ c',
      clockbounds_t.resize NO_BOUND c loc_nb clock_nb = Some c' ∧
      consistent c' loc_nb clock_nb) ∧
   (∃ c', clockbounds_t.clear c = Some c' ∧ consistent c' 0 0)).
Proof.
  split.
  - unfold clockbounds_t.make.
    destruct (global_lu_resize_ok global_lu_map_t.init clock_nb)
      as (glu & -> & Hglu & Hn & _); [intros Hpos; simpl in Hpos; lia|].
    destruct (global_m_resize_ok global_m_map_t.init clock_nb)
      as (gm & -> & Hgm & Hn' & _); [intros Hpos; simpl in Hpos; lia|].
    simpl. eexists. split; [done|]. by apply resized_consistent.
  - intros (Hglu & Hgm & Hwf & Hk1 & Hk2 & Hk3 & Hk4 & Hl1 & Hl2). split.
    + unfold clockbounds_t.resize.
      destruct (global_lu_resize_ok _ clock_nb Hglu) as (glu & -> & Hglu' & Hn & _).
      destruct (global_m_resize_ok _ clock_nb Hgm) as (gm & -> & Hgm' & Hn' & _).
      simpl.
      rewrite local_lu_clear_Some, local_m_clear_Some; simpl.
      * eexists. split; [done|]. by apply resized_consistent.
      * unfold local_m_map_t.clock_number in Hk4. rewrite Hk4. by intros [? ?]%Hwf.
      * unfold local_lu_map_t.clock_number in Hk3. rewrite Hk3. by intros [? ?]%Hwf.
    + unfold clockbounds_t.clear.
      destruct (global_lu_clear_ok _ Hglu) as (glu & -> & Hn & _).
      rewrite (global_m_clear_ok _ Hgm). simpl.
      rewrite local_lu_clear_Some, local_m_clear_Some; simpl.
      * eexists. split; [done|]. unfold consistent. simpl.
        split_and!; try done; intros Hpos; simpl in *; lia.
      * unfold local_m_map_t.clock_number in Hk4. rewrite Hk4. by intros [? ?]%Hwf.
      * unfold local_lu_map_t.clock_number in Hk3. rewrite Hk3. by intros [? ?]%Hwf.
Qed.

(** *** Printing *)

Lemma append_assoc (s1 s2 s3 : string) : (s1 +:+ s2) +:+ s3 = s1 +:+ (s2 +:+ s3).
Proof.
  induction s1 as [|a s1 IH]; [done|].
  change (String a ((s1 +:+ s2) +:+ s3) = String a (s1 +:+ (s2 +:+ s3))).
  by rewrite IH.
Qed.

Lemma append_empty_r (s : string) : s +:+ "" = s.
Proof.
  induction s as [|a s IH]; [done|].
  change (String a (s +:+ "") = String a s). by rewrite IH.
Qed.

Lemma concat_snoc (sep : string) (l : list string) (x : string) :
  String.concat sep (l ++ [x])
  = String.concat sep l +:+ (if bool_decide (l = []) then "" else sep) +:+ x.
Proof.
  induction l as [|y l IH]; simpl; [done|].
  destruct l as [|z l]; simpl in *.
  - done.
  - rewrite IH. by rewrite !append_assoc.
Qed.

Lemma output_map_steps (os : string) (map : map_t) (k : nat) :
  k ≤ capacity map →
  foldl (λ (acc : option string) (i : nat),
           os ← acc;
           let os := if bool_decide (i ≠ 0) then os +:+ "," else os in
           bound ← map !! i;
           if bool_decide (bound = NO_BOUND) then Some (os +:+ ".")
           else Some (os +:+ pretty bound))
        (Some os) (seq 0 k)
  = Some (os +:+ String.concat "," (show_bound NO_BOUND <$> take k map)).
Proof.
  unfold capacity. induction k as [|k IH]; intros Hk.
  - simpl. by rewrite append_empty_r.
  - rewrite seq_S, foldl_app, IH by lia. simpl.
    destruct (lookup_lt_is_Some_2 map k) as [b Hb]; [lia|].
    rewrite Hb. simpl. rewrite (take_S_r _ _ _ Hb), fmap_app. simpl.
    rewrite concat_snoc.
    destruct k as [|k].
    + simpl. rewrite append_empty_r.
      change ("" +:+ "" +:+ show_bound NO_BOUND b) with (show_bound NO_BOUND b).
      change (show_bound NO_BOUND b)
        with (if bool_decide (b = NO_BOUND) then "." else pretty b).
      by destruct (bool_decide (b = NO_BOUND)).
    + rewrite (bool_decide_eq_true_2 (S k ≠ 0)) by done.
      rewrite (bool_decide_eq_false_2 (_ <$> _ = [])); last first.
      { destruct map; simpl in *; [lia|done]. }
      rewrite !append_assoc.
      change (show_bound NO_BOUND b)
        with (if bool_decide (b = NO_BOUND) then "." else pretty b).
      by destruct (bool_decide (b = NO_BOUND)).
Qed.

Lemma output_map_eq (os : string) (map : map_t) :
  output_map NO_BOUND os map
  = Some (os +:+ String.concat "," (show_bound NO_BOUND <$> map)).
Proof.
  unfold output_map. rewrite output_map_steps by done.
  unfold capacity. by rewrite firstn_all.
Qed.

(** X17. [operator<<] appends to the stream the bounds of the array
    separated by commas, a dot standing for [NO_BOUND]; printing a local
    LU map with no clock appends the words no clock and a newline, and
    printing a well-formed one does not fail: the accessors are called
    within their assertions. *)
Theorem output_prints_bounds_separated_by_commas
    (os : string) (map : map_t) (m : local_lu_map_t.t) :
  output_map NO_BOUND os map
  = Some (os +:+ String.concat "," (show_bound NO_BOUND <$> map)) ∧
  (local_lu_map_t.clock_number m = 0 →
   local_lu_map_t.output NO_BOUND os m = Some (os +:+ "no clock" +:+ endl)) ∧
  (local_lu_map_t.wf m → is_Some (local_lu_map_t.output NO_BOUND os m)).
Proof.
  split_and!.
  - apply output_map_eq.
  - intros Hclk. unfold local_lu_map_t.output. by rewrite Hclk.
  - intros (HL & HU & HLs & HUs). unfold local_lu_map_t.output.
    case_bool_decide as Hclk; [by eexists|].
    unfold local_lu_map_t.clock_number, local_lu_map_t.loc_number in *.
    assert (Hsteps : ∀ k, k ≤ local_lu_map_t._loc_nb m →
              is_Some
                (foldl (λ (acc : option string) (l : loc_id_t),
                          os ← acc;
                          let os := os +:+ pretty l +:+ ": L=" in
                          Ll ← local_lu_map_t.L m l;
                          os ← output_map NO_BOUND os Ll;
                          let os := os +:+ " U=" in
                          Ul ← local_lu_map_t.U m l;
                          os ← output_map NO_BOUND os Ul;
                          Some (os +:+ endl))
                       (Some os) (seq 0 k))).
    { induction k as [|k IH]; intros Hk; [by eexists|].
      rewrite seq_S, foldl_app. destruct IH as [os' ->]; [lia|]. simpl.
      unfold local_lu_map_t.L, local_lu_map_t.U.
      rewrite !assert_true by (apply bool_decide_eq_true; lia). simpl.
      destruct (deref_stored _ _ _ k HL HLs) as [-> _]; [lia|].
      destruct (deref_stored _ _ _ k HU HUs) as [-> _]; [lia|].
      simpl. rewrite !output_map_eq. simpl. rewrite !output_map_eq.
      by eexists. }
    by apply Hsteps.
Qed.

End global_maps.

End clockbounds_proofs.

Module refzg_proofs.
Import refzg.

Section state.

Context {vloc_t intval_t zone_t : Type}.
Context `{EqDecision vloc_t, EqDecision intval_t, EqDecision zone_t}.

Variable zone_le : zone_t → zone_t → bool.
Variable zone_is_alu_star_le :
  zone_t → zone_t → list Z → list Z → bool.
Variable zone_is_time_elapse_alu_star_le :
  zone_t → zone_t → list Z → list Z → bool.
Variable zone_is_sync_alu_le :
  zone_t → zone_t → list Z → list Z → bool.
Variable ta_hash_value : ta.store_t vloc_t intval_t → ta.state_t → Z.
Variable ta_shared_hash_value : ta.state_t → Z.
Variable zone_hash_value : zone_t → Z.
Variable ptr_hash_value : N → Z.
Variable hash_combine : Z → Z → Z.

Implicit Types (st : refzg.store_t vloc_t intval_t zone_t) (s : refzg.state_t).

Lemma ta_op_eq_true (st : ta.store_t vloc_t intval_t) (s1 s2 : ta.state_t) :
  ta.op_eq st s1 s2 = true ↔
  ta.vloc st s1 = ta.vloc st s2 ∧ ta.intval st s1 = ta.intval st s2.
Proof.
  unfold ta.op_eq. by rewrite andb_true_iff, !bool_decide_eq_true.
Qed.

Lemma ta_shared_equal_to_true (s1 s2 : ta.state_t) :
  ta.shared_equal_to s1 s2 = true ↔ s1 = s2.
Proof.
  unfold ta.shared_equal_to. rewrite andb_true_iff, !bool_decide_eq_true.
  destruct s1, s2; simpl. split; [intros [-> ->]; done | by intros [= -> ->]].
Qed.

Lemma shared_equal_to_true s1 s2 :
  refzg.shared_equal_to s1 s2 = true ↔ s1 = s2.
Proof.
  unfold refzg.shared_equal_to.
  rewrite andb_true_iff, bool_decide_eq_true, ta_shared_equal_to_true.
  destruct s1, s2; simpl. split; [intros [-> ->]; done | by intros [= -> ->]].
Qed.

(** Pointer equality is finer than equality by content. *)
Lemma shared_equal_to_op_eq st s1 s2 :
  refzg.shared_equal_to s1 s2 = true → refzg.op_eq st s1 s2 = true.
Proof.
  intros ->%shared_equal_to_true. unfold refzg.op_eq.
  apply andb_true_iff. split; [by apply ta_op_eq_true|].
  by apply bool_decide_eq_true.
Qed.

(** C6. Two states are equal exactly when their tuples of locations,
    their integer valuations and their zones are equal; a state is below
    another one exactly when the tuples of locations and the integer
    valuations are equal and the zone of the first is included in the
    zone of the second. *)
Theorem op_eq_op_le_componentwise st s1 s2 :
  (refzg.op_eq st s1 s2 = true ↔
     ta.vloc st s1 = ta.vloc st s2 ∧
     ta.intval st s1 = ta.intval st s2 ∧
     refzg.zone st s1 = refzg.zone st s2) ∧
  (refzg.op_le zone_le st s1 s2 = true ↔
     ta.vloc st s1 = ta.vloc st s2 ∧
     ta.intval st s1 = ta.intval st s2 ∧
     zone_le (refzg.zone st s1) (refzg.zone st s2) = true).
Proof.
  unfold refzg.op_eq, refzg.op_le.
  rewrite !andb_true_iff, bool_decide_eq_true, ta_op_eq_true. tauto.
Qed.

(** C7. Provided that the two hashes of the [ta] layer agree with the two
    equalities of that layer, equal states have equal hashes, and states
    that are equal as shared objects have equal shared hashes. *)
Theorem hashes_agree_with_equalities st s1 s2 :
  (∀ (st : ta.store_t vloc_t intval_t) (s1 s2 : ta.state_t),
     ta.op_eq st s1 s2 = true → ta_hash_value st s1 = ta_hash_value st s2) →
  (∀ s1 s2 : ta.state_t,
     ta.shared_equal_to s1 s2 = true →
     ta_shared_hash_value s1 = ta_shared_hash_value s2) →
  (refzg.op_eq st s1 s2 = true →
     refzg.hash_value ta_hash_value zone_hash_value hash_combine st s1
     = refzg.hash_value ta_hash_value zone_hash_value hash_combine st s2) ∧
  (refzg.shared_equal_to s1 s2 = true →
     refzg.shared_hash_value ta_shared_hash_value ptr_hash_value hash_combine s1
     = refzg.shared_hash_value ta_shared_hash_value ptr_hash_value hash_combine s2).
Proof.
  intros Hta Hshared. split.
  - unfold refzg.op_eq, refzg.hash_value.
    intros [Heq Hzone%bool_decide_eq_true]%andb_true_iff.
    by rewrite (Hta _ _ _ Heq), Hzone.
  - unfold refzg.shared_equal_to, refzg.shared_hash_value.
    intros [Heq Hzone%bool_decide_eq_true]%andb_true_iff.
    by rewrite (Hshared _ _ Heq), Hzone.
Qed.

(** C10. The four shared inclusion tests answer true as soon as the [ta]
    parts are equal as shared objects and the two zone pointers are the
    same, whatever the inclusion of zones answers; each of them is
    reflexive. *)
Theorem shared_inclusions_same_zone_pointer st l u :
  (∀ s1 s2,
     ta.shared_equal_to s1 s2 = true →
     refzg.zone_ptr s1 = refzg.zone_ptr s2 →
     refzg.shared_is_le zone_le st s1 s2 = true ∧
     refzg.shared_is_alu_star_le zone_is_alu_star_le st s1 s2 l u = true ∧
     refzg.shared_is_time_elapse_alu_star_le
       zone_is_time_elapse_alu_star_le st s1 s2 l u = true ∧
     refzg.shared_is_sync_alu_le zone_is_sync_alu_le st s1 s2 l u = true) ∧
  (∀ s,
     refzg.shared_is_le zone_le st s s = true ∧
     refzg.shared_is_alu_star_le zone_is_alu_star_le st s s l u = true ∧
     refzg.shared_is_time_elapse_alu_star_le
       zone_is_time_elapse_alu_star_le st s s l u = true ∧
     refzg.shared_is_sync_alu_le zone_is_sync_alu_le st s s l u = true).
Proof.
  assert (Hgen : ∀ s1 s2,
     ta.shared_equal_to s1 s2 = true →
     refzg.zone_ptr s1 = refzg.zone_ptr s2 →
     refzg.shared_is_le zone_le st s1 s2 = true ∧
     refzg.shared_is_alu_star_le zone_is_alu_star_le st s1 s2 l u = true ∧
     refzg.shared_is_time_elapse_alu_star_le
       zone_is_time_elapse_alu_star_le st s1 s2 l u = true ∧
     refzg.shared_is_sync_alu_le zone_is_sync_alu_le st s1 s2 l u = true).
  { intros s1 s2 Hta Hptr.
    unfold refzg.shared_is_le, refzg.shared_is_alu_star_le,
      refzg.shared_is_time_elapse_alu_star_le, refzg.shared_is_sync_alu_le.
    rewrite Hta, (bool_decide_eq_true_2 _ Hptr). done. }
  split; [exact Hgen|].
  intros s. apply Hgen; [by apply ta_shared_equal_to_true | done].
Qed.

End state.

(** *** Orders on states *)

Section orders.

Context {vloc_t intval_t zone_t : Type}.
Context `{EqDecision vloc_t, EqDecision intval_t, EqDecision zone_t}.

Variable zone_le : zone_t → zone_t → bool.
Variable zone_is_alu_star_le :
  zone_t → zone_t → list Z → list Z → bool.
Variable zone_is_time_elapse_alu_star_le :
  zone_t → zone_t → list Z → list Z → bool.
Variable zone_is_sync_alu_le :
  zone_t → zone_t → list Z → list Z → bool.
Variable ta_lexical_cmp : ta.store_t vloc_t intval_t → ta.state_t → ta.state_t → Z.
Variable zone_lexical_cmp : zone_t → zone_t → Z.

Implicit Types (st : refzg.store_t vloc_t intval_t zone_t) (s : refzg.state_t).

Lemma op_eq_true st s1 s2 :
  refzg.op_eq st s1 s2 = true ↔
  ta.vloc st s1 = ta.vloc st s2 ∧ ta.intval st s1 = ta.intval st s2 ∧
  refzg.zone st s1 = refzg.zone st s2.
Proof.
  unfold refzg.op_eq.
  rewrite !andb_true_iff, bool_decide_eq_true, ta_op_eq_true. tauto.
Qed.

Lemma op_le_true st s1 s2 :
  refzg.op_le zone_le st s1 s2 = true ↔
  ta.vloc st s1 = ta.vloc st s2 ∧ ta.intval st s1 = ta.intval st s2 ∧
  zone_le (refzg.zone st s1) (refzg.zone st s2) = true.
Proof.
  unfold refzg.op_le. rewrite !andb_true_iff, ta_op_eq_true. tauto.
Qed.

(** X18. Equality of states is an equivalence and [operator!=] is its
    negation; when the inclusion of zones is reflexive and transitive,
    [operator<=] is a preorder that contains equality, and it is
    antisymmetric up to equality when the inclusion of zones is
    antisymmetric. *)
Theorem op_le_is_a_preorder_above_op_eq st :
  (∀ z, zone_le z z = true) →
  (∀ z1 z2 z3,
     zone_le z1 z2 = true → zone_le z2 z3 = true → zone_le z1 z3 = true) →
  (∀ s, refzg.op_eq st s s = true) ∧
  (∀ s1 s2, refzg.op_eq st s1 s2 = refzg.op_eq st s2 s1) ∧
  (∀ s1 s2 s3,
     refzg.op_eq st s1 s2 = true → refzg.op_eq st s2 s3 = true →
     refzg.op_eq st s1 s3 = true) ∧
  (∀ s1 s2, refzg.op_ne st s1 s2 = true ↔ refzg.op_eq st s1 s2 = false) ∧
  (∀ s, refzg.op_le zone_le st s s = true) ∧
  (∀ s1 s2 s3,
     refzg.op_le zone_le st s1 s2 = true → refzg.op_le zone_le st s2 s3 = true →
     refzg.op_le zone_le st s1 s3 = true) ∧
  (∀ s1 s2,
     refzg.op_eq st s1 s2 = true → refzg.op_le zone_le st s1 s2 = true) ∧
  ((∀ z1 z2, zone_le z1 z2 = true → zone_le z2 z1 = true → z1 = z2) →
   ∀ s1 s2,
     refzg.op_le zone_le st s1 s2 = true → refzg.op_le zone_le st s2 s1 = true →
     refzg.op_eq st s1 s2 = true).
Proof.
  intros Hrefl Htrans. split_and!.
  - intros s. by apply op_eq_true.
  - intros s1 s2. apply eq_true_iff_eq. rewrite !op_eq_true.
    split; intros (H1 & H2 & H3); by rewrite H1, H2, H3.
  - intros s1 s2 s3. rewrite !op_eq_true.
    intros (H1 & H2 & H3) (H4 & H5 & H6). by rewrite H1, H2, H3.
  - intros s1 s2. unfold refzg.op_ne. apply negb_true_iff.
  - intros s. apply op_le_true. eauto.
  - intros s1 s2 s3. rewrite !op_le_true.
    intros (-> & -> & H12) (-> & -> & H23). eauto.
  - intros s1 s2. rewrite op_eq_true, op_le_true.
    intros (-> & -> & ->). eauto.
  - intros Hanti s1 s2. rewrite !op_le_true, op_eq_true.
    intros (-> & -> & H12) (_ & _ & H21). eauto.
Qed.


Lemma shared_test_sound (le : zone_t → zone_t → bool) st s1 s2 :
  (∀ z, le z z = true) →
  ta.shared_equal_to s1 s2
  && (bool_decide (refzg.zone_ptr s1 = refzg.zone_ptr s2)
      || le (refzg.zone st s1) (refzg.zone st s2)) = true →
  ta.op_eq st s1 s2 && le (refzg.zone st s1) (refzg.zone st s2) = true.
Proof.
  intros Hrefl.
  rewrite !andb_true_iff, orb_true_iff, bool_decide_eq_true.
  intros [Heq%ta_shared_equal_to_true Hzone]. split.
  - apply ta_op_eq_true. by rewrite Heq.
  - destruct Hzone as [Hptr|Hle]; [|done]. unfold refzg.zone. rewrite Hptr.
    apply Hrefl.
Qed.

Lemma shared_test_complete (le : zone_t → zone_t → bool) st s1 s2 :
  ta.shared_equal_to s1 s2 = true →
  ta.op_eq st s1 s2 && le (refzg.zone st s1) (refzg.zone st s2) = true →
  ta.shared_equal_to s1 s2
  && (bool_decide (refzg.zone_ptr s1 = refzg.zone_ptr s2)
      || le (refzg.zone st s1) (refzg.zone st s2)) = true.
Proof.
  intros ->. rewrite andb_true_iff. intros [_ ->]. by rewrite orb_true_r.
Qed.

(** X20. When the inclusions of zones are reflexive, the short cut on the
    zone pointers is sound: a shared test that answers true has its test
    by content answer true; on states whose [ta] parts are equal as shared
    objects the shared test and the test by content agree. *)
Theorem shared_inclusions_agree_with_inclusions_by_content st s1 s2 l u :
  (∀ z, zone_le z z = true) →
  (∀ z, zone_is_alu_star_le z z l u = true) →
  (∀ z, zone_is_time_elapse_alu_star_le z z l u = true) →
  (∀ z, zone_is_sync_alu_le z z l u = true) →
  (refzg.shared_is_le zone_le st s1 s2 = true →
   refzg.op_le zone_le st s1 s2 = true) ∧
  (refzg.shared_is_alu_star_le zone_is_alu_star_le st s1 s2 l u = true →
   refzg.is_alu_star_le zone_is_alu_star_le st s1 s2 l u = true) ∧
  (refzg.shared_is_time_elapse_alu_star_le zone_is_time_elapse_alu_star_le
     st s1 s2 l u = true →
   refzg.is_time_elapse_alu_star_le zone_is_time_elapse_alu_star_le
     st s1 s2 l u = true) ∧
  (refzg.shared_is_sync_alu_le zone_is_sync_alu_le st s1 s2 l u = true →
   refzg.is_sync_alu_le zone_is_sync_alu_le st s1 s2 l u = true) ∧
  (ta.shared_equal_to s1 s2 = true →
   refzg.shared_is_le zone_le st s1 s2 = refzg.op_le zone_le st s1 s2 ∧
   refzg.shared_is_alu_star_le zone_is_alu_star_le st s1 s2 l u
   = refzg.is_alu_star_le zone_is_alu_star_le st s1 s2 l u ∧
   refzg.shared_is_time_elapse_alu_star_le zone_is_time_elapse_alu_star_le
     st s1 s2 l u
   = refzg.is_time_elapse_alu_star_le zone_is_time_elapse_alu_star_le
       st s1 s2 l u ∧
   refzg.shared_is_sync_alu_le zone_is_sync_alu_le st s1 s2 l u
   = refzg.is_sync_alu_le zone_is_sync_alu_le st s1 s2 l u).
Proof.
  intros H1 H2 H3 H4.
  unfold refzg.is_alu_star_le, refzg.is_time_elapse_alu_star_le,
    refzg.is_sync_alu_le, refzg.shared_is_le, refzg.shared_is_alu_star_le,
    refzg.shared_is_time_elapse_alu_star_le, refzg.shared_is_sync_alu_le,
    refzg.op_le.
  split_and!.
  - by apply shared_test_sound.
  - by apply (shared_test_sound (λ z1 z2, zone_is_alu_star_le z1 z2 l u)).
  - by apply (shared_test_sound
                (λ z1 z2, zone_is_time_elapse_alu_star_le z1 z2 l u)).
  - by apply (shared_test_sound (λ z1 z2, zone_is_sync_alu_le z1 z2 l u)).
  - intros Heq. split_and!; apply eq_true_iff_eq; split.
    + by apply shared_test_sound.
    + by apply shared_test_complete.
    + by apply (shared_test_sound (λ z1 z2, zone_is_alu_star_le z1 z2 l u)).
    + by apply (shared_test_complete (λ z1 z2, zone_is_alu_star_le z1 z2 l u)).
    + by apply (shared_test_sound
                  (λ z1 z2, zone_is_time_elapse_alu_star_le z1 z2 l u)).
    + by apply (shared_test_complete
                  (λ z1 z2, zone_is_time_elapse_alu_star_le z1 z2 l u)).
    + by apply (shared_test_sound (λ z1 z2, zone_is_sync_alu_le z1 z2 l u)).
    + by apply (shared_test_complete (λ z1 z2, zone_is_sync_alu_le z1 z2 l u)).
Qed.

(** X21. [lexical_cmp] compares the [ta] parts first, and the zones only
    when the [ta] parts compare equal; it answers zero exactly when both
    comparisons do, hence exactly on equal states when each comparison
    answers zero on equal arguments only; it is antisymmetric when the two
    comparisons are. *)
Theorem lexical_cmp_compares_the_ta_states_first st s1 s2 :
  (ta_lexical_cmp st s1 s2 ≠ 0%Z →
   refzg.lexical_cmp ta_lexical_cmp zone_lexical_cmp st s1 s2
   = ta_lexical_cmp st s1 s2) ∧
  (ta_lexical_cmp st s1 s2 = 0%Z →
   refzg.lexical_cmp ta_lexical_cmp zone_lexical_cmp st s1 s2
   = zone_lexical_cmp (refzg.zone st s1) (refzg.zone st s2)) ∧
  (refzg.lexical_cmp ta_lexical_cmp zone_lexical_cmp st s1 s2 = 0%Z ↔
     ta_lexical_cmp st s1 s2 = 0%Z ∧
     zone_lexical_cmp (refzg.zone st s1) (refzg.zone st s2) = 0%Z) ∧
  ((∀ a b : ta.state_t,
      ta_lexical_cmp st a b = 0%Z ↔ ta.op_eq st a b = true) →
   (∀ z1 z2, zone_lexical_cmp z1 z2 = 0%Z ↔ z1 = z2) →
   (refzg.lexical_cmp ta_lexical_cmp zone_lexical_cmp st s1 s2 = 0%Z ↔
      refzg.op_eq st s1 s2 = true)) ∧
  ((∀ a b : ta.state_t, ta_lexical_cmp st b a = (- ta_lexical_cmp st a b)%Z) →
   (∀ z1 z2, zone_lexical_cmp z2 z1 = (- zone_lexical_cmp z1 z2)%Z) →
   refzg.lexical_cmp ta_lexical_cmp zone_lexical_cmp st s2 s1
   = (- refzg.lexical_cmp ta_lexical_cmp zone_lexical_cmp st s1 s2)%Z).
Proof.
  unfold refzg.lexical_cmp. split_and!.
  - intros Hne. by rewrite bool_decide_eq_true_2.
  - intros Heq. rewrite bool_decide_eq_false_2; [done|]. by intros ?.
  - case_bool_decide as Hta; [tauto|].
    assert (ta_lexical_cmp st s1 s2 = 0%Z) by lia. tauto.
  - intros Hta_eq Hzone_eq. unfold refzg.op_eq.
    rewrite andb_true_iff, bool_decide_eq_true, <- Hta_eq, <- Hzone_eq.
    case_bool_decide as Hta; [tauto|].
    assert (ta_lexical_cmp st s1 s2 = 0%Z) by lia. tauto.
  - intros Hta Hzone. rewrite (Hta s1 s2), Hzone.
    repeat case_bool_decide; try done; lia.
Qed.

End orders.

End refzg_proofs.

Module stats_proofs.

Section stats.

Variable show_seconds : Z → string.
Variable ru_maxrss : option Z.


End stats.

End stats_proofs.

Module graph_proofs.
Import graph_spec.

Section graph.

Context {state_t transition_t : Type}.
Variable covers : state_t → state_t → bool.

Implicit Types (g : graph.t state_t transition_t) (s : state_t) (n : nat).

Lemma length_states g : length (states g) = length (graph.nodes g).
Proof. unfold states. by rewrite length_fmap. Qed.

Lemma node_state_ptr_lookup g n :
  graph.node_state_ptr g n = states g !! n.
Proof. unfold graph.node_state_ptr, states. by rewrite list_lookup_fmap. Qed.

Lemma node_state_ptr_valid g n s :
  graph.node_state_ptr g n = Some s → valid g n.
Proof.
  rewrite node_state_ptr_lookup. intros Hn%lookup_lt_Some.
  unfold valid. by rewrite <- length_states.
Qed.

Lemma valid_node_state_ptr g n :
  valid g n → ∃ s, graph.node_state_ptr g n = Some s.
Proof.
  unfold valid. rewrite node_state_ptr_lookup, <- length_states.
  intros Hn. by apply lookup_lt_is_Some_2.
Qed.

(** The two ways in which [add_node] answers. *)
Lemma add_node_cases g s :
  (∃ n nd,
     graph.add_node covers g s = (false, n, g) ∧
     graph.nodes g !! n = Some nd ∧ covers s (graph.state_ptr nd) = true ∧
     (∀ j y, graph.nodes g !! j = Some y → j < n →
             covers s (graph.state_ptr y) ≠ true)) ∨
  (graph.add_node covers g s
   = (true, length (graph.nodes g),
      graph.mk (graph.nodes g ++ [graph.mk_node s false false]) (graph.edges g)) ∧
   Forall (λ nd, covers s (graph.state_ptr nd) ≠ true) (graph.nodes g)).
Proof.
  unfold graph.add_node.
  destruct (list_find _ _) as [[n nd]|] eqn:Hfind.
  - left. apply list_find_Some in Hfind as (Hn & Hc & Hmin). eauto 8.
  - right. by apply list_find_None in Hfind.
Qed.

Lemma add_node_old g s n g' :
  graph.add_node covers g s = (false, n, g') →
  g' = g ∧ ∃ nd, graph.nodes g !! n = Some nd ∧ covers s (graph.state_ptr nd) = true.
Proof.
  destruct (add_node_cases g s) as [(n' & nd & -> & Hn & Hc & _)|[-> _]];
    [|done].
  intros [= <- <-]. eauto.
Qed.

Lemma add_node_new g s n g' :
  graph.add_node covers g s = (true, n, g') →
  n = length (graph.nodes g) ∧
  g' = graph.mk (graph.nodes g ++ [graph.mk_node s false false]) (graph.edges g) ∧
  Forall (λ nd, covers s (graph.state_ptr nd) ≠ true) (graph.nodes g).
Proof.
  destruct (add_node_cases g s) as [(n' & nd & -> & _)|[-> Hall]]; [done|].
  by intros [= <- <-].
Qed.

(** The node that [add_node] answers is a node of the graph afterwards,
    and its state is the state given or covers it. *)
Lemma add_node_answer g s b n g' :
  graph.add_node covers g s = (b, n, g') →
  ∃ nd, graph.nodes g' !! n = Some nd ∧
        (if b then graph.state_ptr nd = s
         else covers s (graph.state_ptr nd) = true).
Proof.
  destruct b; intros Hadd.
  - apply add_node_new in Hadd as (-> & -> & _). simpl.
    exists (graph.mk_node s false false). split; [|done].
    by rewrite lookup_app_r, Nat.sub_diag.
  - apply add_node_old in Hadd as (-> & nd & Hn & Hc). eauto.
Qed.

(** Interning: a state that has been added is found again, at the same
    address, and the graph does not grow. *)
Lemma add_node_idempotent g s b n g' :
  covers s s = true →
  graph.add_node covers g s = (b, n, g') →
  graph.add_node covers g' s = (false, n, g').
Proof.
  intros Hrefl Hadd. destruct b.
  - apply add_node_new in Hadd as (-> & -> & Hall).
    unfold graph.add_node. simpl.
    assert (list_find (λ nd, covers s (graph.state_ptr nd) = true)
              (graph.nodes g ++ [graph.mk_node s false false])
            = Some (length (graph.nodes g), graph.mk_node s false false)) as ->; [|done].
    apply list_find_Some. split_and!.
    + by rewrite lookup_app_r, Nat.sub_diag.
    + done.
    + intros j y Hj Hlt. rewrite lookup_app_l in Hj by done.
      rewrite Forall_lookup in Hall. by apply (Hall j).
  - pose proof Hadd as Hsame. by apply add_node_old in Hsame as (-> & _).
Qed.

End graph.

End graph_proofs.

Module waiting_proofs.
Import waiting_spec.

Lemma empty_false_contents {W} `{lawful W} (w : W) :
  waiting.empty w = false → contents w ≠ [].
Proof.
  intros He Hnil. apply empty_contents in Hnil. congruence.
Qed.

Lemma factory_contents (p : waiting.policy_t) :
  contents (waiting.factory p) = [].
Proof. done. Qed.

End waiting_proofs.

Module reach_proofs.
Import graph_spec graph_proofs waiting_spec waiting_proofs reach_spec.

Section steps.

Context {state_t transition_t exn : Type}.
Context {W : Type} `{!waiting.t W}.
Variable covers : state_t → state_t → bool.

Implicit Types (g : graph.t state_t transition_t) (w : W).
Implicit Types (stats : reach.stats_t) (ts : ts.t state_t transition_t exn).
Implicit Types (s : state_t) (t : transition_t) (n node : nat) (labels : N).
Implicit Types (sst : list (state_status_t * state_t * transition_t)).

Lemma add_successor_eq node g w stats status s t is_new next g1 :
  graph.add_node covers g s = (is_new, next, g1) →
  reach.add_successor covers node (g, w, stats) (status, s, t)
  = (graph.add_edge g1 node next t,
     if is_new then waiting.insert w next else w,
     reach.incr_visited_transitions stats).
Proof. intros Hadd. unfold reach.add_successor. by rewrite Hadd. Qed.

Lemma add_successors_stats node sst g w stats :
  (foldl (reach.add_successor covers node) (g, w, stats) sst).2
  = more_transitions stats (length sst).
Proof.
  revert g w stats. induction sst as [|[[status s] t] sst IH]; intros g w stats.
  - simpl. destruct stats. unfold more_transitions. simpl. f_equal. lia.
  - destruct (graph.add_node covers g s) as [[is_new next] g1] eqn:Hadd.
    cbn [foldl]. rewrite (add_successor_eq _ _ _ _ _ _ _ _ _ _ Hadd), IH.
    unfold more_transitions, reach.incr_visited_transitions. simpl.
    f_equal. lia.
Qed.

Lemma add_initial_eq g w status s t is_new initial_node g1 :
  graph.add_node covers g s = (is_new, initial_node, g1) →
  reach.add_initial covers (g, w) (status, s, t)
  = (graph.node_set_initial g1 initial_node true,
     if is_new then waiting.insert w initial_node else w).
Proof. intros Hadd. unfold reach.add_initial. by rewrite Hadd. Qed.

Lemma visit_counters ts labels g w stats c :
  reach.visit covers ts labels g w stats = Ok c →
  reach.visited_states (stats_of c) = (reach.visited_states stats + 1)%N ∧
  (reach.visited_transitions stats ≤ reach.visited_transitions (stats_of c))%N.
Proof.
  unfold reach.visit.
  destruct (reach.accepting _ _ _ _) as [[]|e]; simpl; [| |done].
  - intros [= <-]. simpl. split; [done|lia].
  - destruct (reach.state_of _ _) as [s|e]; simpl; [|done].
    destruct (ts.next ts s) as [sst|e]; simpl; [|done].
    intros [= <-].
    pose proof (add_successors_stats (waiting.first w) sst g
                  (waiting.remove_first w) (reach.incr_visited_states stats))
      as Hstats.
    destruct (foldl _ _ sst) as [[g' w'] stats']. simpl in *. subst stats'.
    simpl. split; [done|lia].
Qed.

Lemma while_waiting_counters ts labels fuel g w stats g' w' stats' :
  reach.while_waiting covers fuel ts labels g w stats = Some (Ok (g', w', stats')) →
  reach.visited_states stats'
  = (reach.visited_states stats
     + N.of_nat (length (reach.popped covers fuel ts labels g w stats)))%N ∧
  (reach.visited_transitions stats ≤ reach.visited_transitions stats')%N.
Proof.
  revert g w stats.
  induction fuel as [|fuel IH]; intros g w stats; simpl; [done|].
  destruct (waiting.empty w); simpl.
  { intros [= <- <- <-]. split; lia. }
  destruct (reach.visit covers ts labels g w stats)
    as [[[[g1 w1] stats1]|[[g1 w1] stats1]]|e] eqn:Hvisit; [| |done].
  - destruct (visit_counters _ _ _ _ _ _ Hvisit) as [Hs Ht]. simpl in Hs, Ht.
    intros [Hs' Ht']%IH. split; lia.
  - destruct (visit_counters _ _ _ _ _ _ Hvisit) as [Hs Ht]. simpl in Hs, Ht.
    intros [= <- <- <-]. simpl. split; lia.
Qed.

(** C2. In the loop over the successors, whatever the status of the
    triple: the state is interned (adding it again answers the same node
    and leaves the graph as it is), the node is inserted into the waiting
    container exactly when it is new, that is when it was not a node of
    the graph before, an edge from the current node to it is added in both
    cases, and the counter of visited transitions grows by one for each
    triple. *)
Theorem successor_is_interned_pushed_when_new
    node g w stats status s t is_new next_node g1 :
  graph.add_node covers g s = (is_new, next_node, g1) →
  reach.add_successor covers node (g, w, stats) (status, s, t)
  = (graph.add_edge g1 node next_node t,
     if is_new then waiting.insert w next_node else w,
     reach.incr_visited_transitions stats) ∧
  (covers s s = true → graph.add_node covers g1 s = (false, next_node, g1)) ∧
  (is_new = true ↔ ¬ valid g next_node) ∧
  valid g1 next_node ∧
  (node, next_node, t) ∈ graph.edges (graph.add_edge g1 node next_node t) ∧
  reach.visited_transitions (reach.incr_visited_transitions stats)
  = (reach.visited_transitions stats + 1)%N ∧
  ∀ sst,
    reach.visited_transitions
      (foldl (reach.add_successor covers node) (g, w, stats) sst).2
    = (reach.visited_transitions stats + N.of_nat (length sst))%N.
Proof.
  intros Hadd. split_and!.
  - by apply add_successor_eq.
  - intros Hrefl. by eapply add_node_idempotent.
  - unfold valid. destruct is_new.
    + apply add_node_new in Hadd as (-> & _). split; [lia|done].
    + apply add_node_old in Hadd as (_ & nd & Hn%lookup_lt_Some & _).
      split; [done|lia].
  - destruct (add_node_answer _ _ _ _ _ _ Hadd) as (nd & Hn%lookup_lt_Some & _).
    done.
  - simpl. apply elem_of_app. right. by apply list_elem_of_singleton.
  - done.
  - intros sst. by rewrite add_successors_stats.
Qed.

(** The attributes of the base class alone are the running time and the
    memory: on the empty map they have these two keys and no other. *)
Lemma base_attributes_keys (show_seconds : Z → string) (ru_maxrss : option Z)
    (s : stats.stats_t) :
  dom (stats.attributes show_seconds ru_maxrss s ∅)
  = {["RUNNING_TIME_SECONDS"; "MEMORY_MAX_RSS"]}.
Proof.
  unfold stats.attributes. rewrite !dom_insert_L, dom_empty_L. set_solver.
Qed.

(** C8. The attributes of the statistics of a run have the five keys; an
    iteration of the main loop, which removes one node from the waiting
    container, adds one to the counter of visited states and does not
    decrease the counter of visited transitions; at the end of a run the
    counter of visited states has grown by the number of nodes removed,
    and no counter has decreased. *)
Theorem statistics_keys_and_counters ts labels
    (show_seconds : Z → string) (ru_maxrss : option Z) :
  (∀ stats (m : gmap string string),
     reach.attributes show_seconds ru_maxrss stats m !! "RUNNING_TIME_SECONDS"
     = Some (show_seconds (stats.running_time (reach.base stats))) ∧
     reach.attributes show_seconds ru_maxrss stats m !! "MEMORY_MAX_RSS"
     = Some (pretty (stats.max_rss ru_maxrss (reach.base stats))) ∧
     reach.attributes show_seconds ru_maxrss stats m !! "VISITED_STATES"
     = Some (pretty (reach.visited_states stats)) ∧
     reach.attributes show_seconds ru_maxrss stats m !! "VISITED_TRANSITIONS"
     = Some (pretty (reach.visited_transitions stats)) ∧
     reach.attributes show_seconds ru_maxrss stats m !! "REACHABLE"
     = Some (if reach.reachable stats then "true" else "false")) ∧
  (∀ g w stats c,
     reach.visit covers ts labels g w stats = Ok c →
     reach.visited_states (stats_of c) = (reach.visited_states stats + 1)%N ∧
     (reach.visited_transitions stats ≤ reach.visited_transitions (stats_of c))%N) ∧
  (∀ fuel g w stats g' w' stats',
     reach.run_from_waiting covers fuel ts g labels w stats
     = Some (Ok (g', w', stats')) →
     reach.visited_states stats'
     = (reach.visited_states stats
        + N.of_nat (length (reach.popped covers fuel ts labels g w stats)))%N ∧
     (reach.visited_transitions stats ≤ reach.visited_transitions stats')%N).
Proof.
  split_and!.
  - intros stats m. unfold reach.attributes, stats.attributes.
    by split_and!; simplify_map_eq.
  - intros g w stats c. apply visit_counters.
  - intros fuel g w stats g' w' stats'. unfold reach.run_from_waiting.
    destruct (reach.while_waiting _ _ _ _ _ _ _)
      as [[[[g1 w1] stats1]|e]|] eqn:Hloop; [|done..].
    intros [= <- <- <-]. by eapply while_waiting_counters.
Qed.

End steps.

Section exploration.

Context {state_t transition_t exn : Type}.
Context {W : Type} `{!waiting.t W} `{!lawful W}.
Variable covers : state_t → state_t → bool.
Variable ts : ts.t state_t transition_t exn.

Local Abbreviation stands_for := (reach_spec.stands_for covers).
Local Abbreviation expanded := (reach_spec.expanded covers).
Local Abbreviation closed := (reach_spec.closed covers ts).
Local Abbreviation finite_ts := (reach_spec.finite_ts ts).
Local Abbreviation invariant := (reach_spec.invariant covers ts).
Local Abbreviation explored := (reach_spec.explored covers ts).
Local Abbreviation exhausted := (reach_spec.exhausted covers ts).
Local Abbreviation accepted := (reach_spec.accepted ts).
Local Abbreviation seeded := (reach_spec.seeded covers).
Local Abbreviation full_graph := (reach_spec.full_graph covers ts).

Implicit Types (g : graph.t state_t transition_t) (w : W).
Implicit Types (stats : reach.stats_t).
Implicit Types (s : state_t) (t : transition_t) (n node : nat) (labels : N).
Implicit Types (sst : list (state_status_t * state_t * transition_t)).
Implicit Types (nd : graph.node_t state_t).

Lemma fresh_for_app sst sst' nd : fresh_for sst nd → fresh_for (sst ++ sst') nd.
Proof.
  intros (Hi & Hf & status & t & Hin). split_and!; [done..|].
  exists status, t. apply elem_of_app. by left.
Qed.

Lemma add_successors_expanded node sst g w stats :
  let '(g', w', _) := foldl (reach.add_successor covers node) (g, w, stats) sst in
  expanded node sst g w g' w'.
Proof.
  induction sst as [|[[status s] t] sst IH] using rev_ind.
  - simpl. exists [], []. rewrite !app_nil_r. simpl.
    split_and!; try done. intros ??? Hin. by apply elem_of_nil in Hin.
  - rewrite foldl_app. simpl.
    destruct (foldl _ _ sst) as [[g1 w1] stats1].
    destruct IH as (new & more & Hnodes & Hedges & Hfresh & Hnodup & Hw & Hcov).
    assert (Hold : ∀ status' s' t' g2 extra,
              graph.nodes g2 = graph.nodes g1 ++ extra →
              (∃ m nd, graph.nodes g2 !! m = Some nd ∧ stands_for nd s ∧
                       (node, m, t) ∈ graph.edges g2) →
              (∀ e, e ∈ graph.edges g1 → e ∈ graph.edges g2) →
              (status', s', t') ∈ sst ++ [(status, s, t)] →
              ∃ m nd, graph.nodes g2 !! m = Some nd ∧ stands_for nd s' ∧
                      (node, m, t') ∈ graph.edges g2).
    { intros status' s' t' g2 extra Hg2 Hlast Hsub [Hin|Hin]%elem_of_app.
      - destruct (Hcov _ _ _ Hin) as (m & nd & Hm & Hs & He).
        exists m, nd. split_and!; [|done|by apply Hsub].
        rewrite Hg2. by apply lookup_app_l_Some.
      - apply list_elem_of_singleton in Hin as [= -> -> ->]. done. }
    destruct (add_node_cases covers g1 s)
      as [(m & nd & Hadd & Hm & Hc & _)|[Hadd Hall]].
    + erewrite add_successor_eq by exact Hadd.
      exists new, (more ++ [(node, m, t)]). simpl. split_and!.
      * done.
      * by rewrite Hedges, app_assoc.
      * eapply Forall_impl; [done|]. intros ?. apply fresh_for_app.
      * done.
      * done.
      * intros status' s' t' Hin.
        eapply (Hold _ _ _
          (graph.mk (graph.nodes g1) (graph.edges g1 ++ [(node, m, t)])) []);
          [| | |exact Hin]; simpl.
        -- by rewrite app_nil_r.
        -- exists m, nd. split_and!; [done|by right|].
           apply elem_of_app. right. by apply list_elem_of_singleton.
        -- intros e He. apply elem_of_app. by left.
    + erewrite add_successor_eq by exact Hadd.
      exists (new ++ [graph.mk_node s false false]), (more ++ [(node, length (graph.nodes g1), t)]).
      simpl. split_and!.
      * by rewrite Hnodes, app_assoc.
      * by rewrite Hedges, app_assoc.
      * apply Forall_app. split.
        -- eapply Forall_impl; [done|]. intros ?. apply fresh_for_app.
        -- apply Forall_singleton. split_and!; [done..|].
           exists status, t. simpl. apply elem_of_app. right.
           by apply list_elem_of_singleton.
      * intros Hnd Hrefl. unfold states in *. simpl.
        rewrite fmap_app. simpl. apply NoDup_app. split_and!.
        -- by apply Hnodup.
        -- intros x Hx ->%list_elem_of_singleton.
           apply list_elem_of_fmap in Hx as (nd & -> & Hnd').
           rewrite Forall_forall in Hall. by apply (Hall nd).
        -- apply NoDup_singleton.
      * rewrite insert_contents, Hw. rewrite length_app. simpl.
        rewrite Nat.add_1_r, seq_S, Hnodes, length_app.
        rewrite (Permutation_cons_append _ (length (graph.nodes g) + length new)).
        by rewrite app_assoc.
      * intros status' s' t' Hin.
        eapply (Hold _ _ _
          (graph.mk (graph.nodes g1 ++ [graph.mk_node s false false])
             (graph.edges g1 ++ [(node, length (graph.nodes g1), t)]))
          [graph.mk_node s false false]); [| | |exact Hin]; simpl.
        -- done.
        -- exists (length (graph.nodes g1)), (graph.mk_node s false false).
           split_and!.
           ++ by rewrite lookup_app_r, Nat.sub_diag.
           ++ by left.
           ++ apply elem_of_app. right. by apply list_elem_of_singleton.
        -- intros e He. apply elem_of_app. by left.
Qed.

(** *** The main loop *)

Lemma state_of_valid g n s :
  graph.node_state_ptr g n = Some s → reach.state_of (exn:=exn) g n = Ok s.
Proof. unfold reach.state_of. by intros ->. Qed.

Lemma accepting_valid g n labels s :
  graph.node_state_ptr g n = Some s →
  reach.accepting g n ts labels
  = Ok (negb (bitset.none labels)
        && (bitset.is_subset_of labels (ts.labels ts s) && ts.is_valid_final ts s)).
Proof.
  intros Hs. unfold reach.accepting. rewrite (state_of_valid _ _ _ Hs).
  by destruct (bitset.none labels).
Qed.

Lemma accepting_no_label g n labels :
  bitset.none labels = true → reach.accepting g n ts labels = Ok false.
Proof. unfold reach.accepting. by intros ->. Qed.

Lemma closed_mono g g' n :
  states g `prefix_of` states g' →
  graph.edges g `prefix_of` graph.edges g' →
  closed g n → closed g' n.
Proof.
  intros [news Hstates] [more Hedges] (s & sst & Hs & Hnext & Hcov).
  exists s, sst. split_and!; [|done|].
  - rewrite node_state_ptr_lookup in *. rewrite Hstates.
    by apply lookup_app_l_Some.
  - intros status s' t Hin. destruct (Hcov _ _ _ Hin) as (m & nd & Hm & Hfor & He).
    assert (Hm' : states g' !! m = Some (graph.state_ptr nd)).
    { rewrite Hstates. apply lookup_app_l_Some.
      unfold states. by rewrite list_lookup_fmap, Hm. }
    unfold states in Hm'. rewrite list_lookup_fmap in Hm'.
    destruct (graph.nodes g' !! m) as [nd'|] eqn:Hnd'; [|done].
    injection Hm' as Hst.
    exists m, nd'. split_and!; [done| |].
    + unfold reach_spec.stands_for. by rewrite Hst.
    + rewrite Hedges. apply elem_of_app. by left.
Qed.

Lemma invariant_nodes_bound universe g w :
  invariant universe g w → length (graph.nodes g) ≤ length universe.
Proof.
  intros (_ & Hnd & Hsub & _). rewrite <- length_states.
  apply submseteq_length, NoDup_submseteq; done.
Qed.

Lemma visit_invariant universe labels g w stats :
  (∀ s, covers s s = true) → finite_ts universe →
  invariant universe g w → waiting.empty w = false →
  match reach.visit covers ts labels g w stats with
  | Throw e => ∃ x, e = reach.ts_exception x
  | Ok (reach.Break (g', w', stats')) =>
      ∃ s, graph.node_state_ptr g (waiting.first w) = Some s ∧
           bitset.none labels = false ∧
           bitset.is_subset_of labels (ts.labels ts s) = true ∧
           ts.is_valid_final ts s = true ∧
           g' = graph.node_set_final g (waiting.first w) true ∧
           reach.reachable stats' = true
  | Ok (reach.Continue (g', w', stats')) =>
      invariant universe g' w' ∧
      measure universe g' w' < measure universe g w ∧
      graph.nodes g `prefix_of` graph.nodes g' ∧
      graph.edges g `prefix_of` graph.edges g' ∧
      reach.reachable stats' = reach.reachable stats
  end.
Proof.
  intros Hrefl [_ Huniv] Hinv Hne.
  pose proof (invariant_nodes_bound _ _ _ Hinv) as Hbound.
  destruct Hinv as (Hvalid & Hnd & Hsub & Hclosed & Hfinal).
  pose proof (first_contents w Hne) as Hfirst.
  set (node := waiting.first w) in *.
  assert (Hnode : valid g node).
  { apply Hvalid. rewrite Hfirst. by left. }
  destruct (valid_node_state_ptr _ _ Hnode) as [s Hs].
  unfold reach.visit. fold node. rewrite (accepting_valid _ _ _ _ Hs). simpl.
  destruct (negb (bitset.none labels) && _) eqn:Hacc; simpl.
  { apply andb_true_iff in Hacc as [Hnone%negb_true_iff [Hsubset Hvf]%andb_true_iff].
    by exists s. }
  rewrite (state_of_valid _ _ _ Hs). simpl.
  destruct (ts.next ts s) as [sst|e] eqn:Hnext; simpl; [|by eauto].
  pose proof (add_successors_expanded node sst g (waiting.remove_first w)
                (reach.incr_visited_states stats)) as Hexp.
  pose proof (add_successors_stats covers node sst g (waiting.remove_first w)
                (reach.incr_visited_states stats)) as Hstats.
  destruct (foldl _ _ sst) as [[g' w'] stats'].
  simpl in Hstats. subst stats'.
  destruct Hexp as (new & more & Hnodes & Hedges & Hfresh & Hnodup & Hw & Hcov).
  assert (Hs_univ : s ∈ universe).
  { apply Hsub. rewrite node_state_ptr_lookup in Hs.
    by eapply list_elem_of_lookup_2. }
  assert (Hlen : length (graph.nodes g') = length (graph.nodes g) + length new).
  { by rewrite Hnodes, length_app. }
  assert (Hinv' : invariant universe g' w').
  { split_and!.
    - intros n. rewrite Hw. unfold valid in *.
      intros [Hn|Hn]%elem_of_app.
      + assert (n ∈ contents w) as Hn'%Hvalid by (rewrite Hfirst; by right). lia.
      + apply elem_of_seq in Hn. lia.
    - by apply Hnodup.
    - intros s'. unfold states. rewrite Hnodes, fmap_app.
      intros [Hin|Hin]%elem_of_app; [by apply Hsub|].
      apply list_elem_of_fmap in Hin as (nd & -> & Hin).
      rewrite Forall_forall in Hfresh.
      destruct (Hfresh _ Hin) as (_ & _ & status & t & Hin').
      by eapply Huniv.
    - intros n Hn. unfold valid in *.
      destruct (decide (n < length (graph.nodes g))) as [Hold|Hnew].
      + destruct (Hclosed n Hold) as [Hin|Hcl].
        * rewrite Hfirst in Hin. apply elem_of_cons in Hin as [->|Hin].
          -- right. exists s, sst. split_and!; [|done|done].
             unfold graph.node_state_ptr in *. rewrite Hnodes.
             destruct (graph.nodes g !! node) as [nd|] eqn:Hnd'; [|done].
             by rewrite (lookup_app_l_Some _ _ _ _ Hnd').
          -- left. rewrite Hw. apply elem_of_app. by left.
        * right. eapply closed_mono; [|by eexists|done].
          unfold states. rewrite Hnodes, fmap_app. by eexists.
      + left. rewrite Hw. apply elem_of_app. right. apply elem_of_seq. lia.
    - rewrite Hnodes. apply Forall_app. split; [done|].
      eapply Forall_impl; [exact Hfresh|]. by intros nd (_ & ? & _). }
  split_and!; [done| |by eexists|by eexists|done].
  pose proof (invariant_nodes_bound _ _ _ Hinv') as Hbound'.
  unfold measure. rewrite Hw, Hfirst, length_app, length_seq. simpl. lia.
Qed.

Lemma node_set_final_accepted labels g n s stats' :
  Forall (λ nd, graph.final nd = false) (graph.nodes g) →
  graph.node_state_ptr g n = Some s →
  bitset.none labels = false →
  bitset.is_subset_of labels (ts.labels ts s) = true →
  ts.is_valid_final ts s = true →
  reach.reachable stats' = true →
  accepted labels (graph.node_set_final g n true) stats'.
Proof.
  intros Hfinal Hs Hnone Hsubset Hvf Hreach. split_and!; [done..|].
  unfold graph.node_state_ptr in Hs.
  destruct (graph.nodes g !! n) as [nd|] eqn:Hn; [|done].
  injection Hs as <-.
  exists n, (graph.mk_node (graph.state_ptr nd) (graph.initial nd) true).
  simpl. split_and!; [|done..|].
  - by rewrite list_lookup_alter_eq, Hn.
  - intros n' nd' Hn' Hf. destruct (decide (n' = n)) as [|Hne]; [done|].
    rewrite list_lookup_alter_ne in Hn' by done.
    rewrite Forall_lookup in Hfinal. specialize (Hfinal _ _ Hn'). congruence.
Qed.

Lemma while_waiting_terminates universe labels :
  (∀ s, covers s s = true) → finite_ts universe →
  ∀ (m : nat) g w stats,
    invariant universe g w → measure universe g w ≤ m →
    ∀ fuel, m < fuel →
      ∃ r, reach.while_waiting covers fuel ts labels g w stats = Some r ∧
           match r with
           | Throw e => ∃ x, e = reach.ts_exception x
           | Ok (g', w', stats') =>
               exhausted g stats g' w' stats' ∨ accepted labels g' stats'
           end.
Proof.
  intros Hrefl Hfin m.
  induction m as [m IH] using lt_wf_ind. intros g w stats Hinv Hm fuel Hfuel.
  destruct fuel as [|fuel]; [lia|]. simpl.
  destruct (waiting.empty w) eqn:Hempty; simpl.
  { eexists. split; [done|]. left.
    apply empty_contents in Hempty.
    destruct Hinv as (_ & _ & _ & Hclosed & Hfinal).
    split_and!; [done..|].
    intros n Hn. destruct (Hclosed n Hn) as [Hin|]; [|done].
    rewrite Hempty in Hin. by apply elem_of_nil in Hin. }
  pose proof (visit_invariant universe labels g w stats Hrefl Hfin Hinv Hempty)
    as Hvisit.
  destruct (reach.visit covers ts labels g w stats)
    as [[[[g' w'] stats']|[[g' w'] stats']]|e].
  - destruct Hvisit as (Hinv' & Hlt & Hnodes & Hedges & Hreach).
    destruct (IH (measure universe g' w') ltac:(lia) g' w' stats' Hinv'
                ltac:(lia) fuel ltac:(lia)) as (r & -> & Hr).
    exists r. split; [done|]. destruct r as [[[g'' w''] stats'']|e]; [|done].
    destruct Hr as [(Hw & Hreach' & Hnodes' & Hfinal & Hclosed)|Hacc];
      [left|by right].
    split_and!; [done|congruence| |done..]. by etrans.
  - destruct Hvisit as (s & Hs & Hnone & Hsubset & Hvf & -> & Hreach).
    eexists. split; [done|]. right.
    destruct Hinv as (_ & _ & _ & _ & Hfinal).
    by eapply node_set_final_accepted.
  - by eexists.
Qed.

(** *** The initial states *)

Lemma fmap_alter_same {A B} (f : A → B) (F : A → A) (i : nat) (l : list A) :
  (∀ x, f (F x) = f x) → f <$> alter F i l = f <$> l.
Proof.
  intros HF. apply list_eq. intros j.
  rewrite !list_lookup_fmap, list_lookup_alter.
  case_decide as Hij; [subst j|done].
  destruct (l !! i); simpl; [|done]. by rewrite HF.
Qed.

Lemma states_node_set_initial g n b :
  states (graph.node_set_initial g n b) = states g.
Proof. unfold states. simpl. by apply fmap_alter_same. Qed.

Lemma finals_node_set_initial g n b :
  graph.final <$> graph.nodes (graph.node_set_initial g n b)
  = graph.final <$> graph.nodes g.
Proof. simpl. by apply fmap_alter_same. Qed.

Lemma node_set_initial_lookup g n j nd :
  graph.nodes g !! j = Some nd →
  ∃ nd', graph.nodes (graph.node_set_initial g n true) !! j = Some nd' ∧
         graph.state_ptr nd' = graph.state_ptr nd ∧
         graph.initial nd' = (if decide (n = j) then true else graph.initial nd).
Proof.
  intros Hj. simpl. rewrite list_lookup_alter.
  case_decide as Hnj; [subst j|]; rewrite Hj; simpl; eauto.
Qed.

Lemma add_initials_seeded sst g w :
  let '(g', w') := foldl (reach.add_initial covers) (g, w) sst in
  seeded sst g w g' w'.
Proof.
  induction sst as [|[[status s] t] sst IH] using rev_ind.
  - simpl. exists []. rewrite !app_nil_r. simpl.
    split_and!; try done; [by eauto|]. intros ??? Hin. by apply elem_of_nil in Hin.
  - rewrite foldl_app. simpl.
    destruct (foldl _ _ sst) as [g1 w1].
    destruct IH as (news & Hstates & Hnews & Hfinals & Hedges & Hnodup & Hw
                    & Hinit & Hcov).
    assert (Hlen1 : length (graph.nodes g1) = length (graph.nodes g) + length news).
    { by rewrite <- !length_states, Hstates, length_app. }
    assert (Hnews' : Forall (λ s', ∃ status' t',
                        (status', s', t') ∈ sst ++ [(status, s, t)]) news).
    { eapply Forall_impl; [done|]. intros s' (status' & t' & Hin).
      exists status', t'. apply elem_of_app. by left. }
    destruct (graph.add_node covers g1 s) as [[is_new n] g2] eqn:Hadd.
    erewrite add_initial_eq by exact Hadd.
    destruct (add_node_answer _ _ _ _ _ _ Hadd) as (nd & Hn & Hfor).
    assert (Hext : ∃ extra, graph.nodes g2 = graph.nodes g1 ++ extra).
    { destruct is_new.
      - apply add_node_new in Hadd as (_ & -> & _). by eexists.
      - apply add_node_old in Hadd as (-> & _). exists []. by rewrite app_nil_r. }
    destruct Hext as [extra Hext].
    assert (Hkeep : ∀ j ndj, graph.nodes g1 !! j = Some ndj →
              graph.initial ndj = true →
              ∃ nd', graph.nodes (graph.node_set_initial g2 n true) !! j = Some nd' ∧
                     graph.state_ptr nd' = graph.state_ptr ndj ∧
                     graph.initial nd' = true).
    { intros j ndj Hj Htrue.
      destruct (node_set_initial_lookup g2 n j ndj) as (nd' & Hj' & Hst & Hi).
      { rewrite Hext. by apply lookup_app_l_Some. }
      exists nd'. split_and!; [done..|]. rewrite Hi. by case_decide. }
    assert (Hcov' : ∀ status' s' t', (status', s', t') ∈ sst ++ [(status, s, t)] →
              ∃ n' nd', graph.nodes (graph.node_set_initial g2 n true) !! n' = Some nd' ∧
                        graph.initial nd' = true ∧ stands_for nd' s').
    { intros status' s' t' [Hin|Hin]%elem_of_app.
      - destruct (Hcov _ _ _ Hin) as (n' & nd' & Hn' & Hi & Hf).
        destruct (Hkeep _ _ Hn' Hi) as (nd'' & Hn'' & Hst & Hi'').
        exists n', nd''. split_and!; [done..|]. unfold reach_spec.stands_for. by rewrite Hst.
      - apply list_elem_of_singleton in Hin as [= -> -> ->].
        destruct (node_set_initial_lookup g2 n n nd Hn) as (nd' & Hn' & Hst & Hi).
        exists n, nd'. split_and!; [done| |].
        + rewrite Hi. by case_decide.
        + unfold reach_spec.stands_for. rewrite Hst. destruct is_new; [by left|by right]. }
    assert (Hinit' : ∀ j ndj, graph.nodes g !! j = Some ndj →
              graph.initial ndj = true →
              ∃ nd', graph.nodes (graph.node_set_initial g2 n true) !! j = Some nd' ∧
                     graph.initial nd' = true).
    { intros j ndj Hj Htrue. destruct (Hinit _ _ Hj Htrue) as (nd1 & Hj1 & Hi1).
      destruct (Hkeep _ _ Hj1 Hi1) as (nd' & ? & _ & ?). eauto. }
    destruct is_new.
    + apply add_node_new in Hadd as (-> & -> & Hall).
      exists (news ++ [s]). split_and!; [| | | | | |done..].
      * rewrite states_node_set_initial. unfold states in *. simpl.
        by rewrite fmap_app, Hstates, app_assoc.
      * apply Forall_app. split; [done|]. apply Forall_singleton.
        exists status, t. apply elem_of_app. right. by apply list_elem_of_singleton.
      * rewrite finals_node_set_initial. simpl.
        rewrite fmap_app, Hfinals, length_app. simpl.
        by rewrite Nat.add_1_r, replicate_S_end, app_assoc.
      * done.
      * intros Hnd Hrefl. rewrite states_node_set_initial.
        unfold states in *. simpl. rewrite fmap_app. simpl.
        apply NoDup_app. split_and!.
        -- by apply Hnodup.
        -- intros x Hx ->%list_elem_of_singleton.
           apply list_elem_of_fmap in Hx as (nd' & -> & Hnd').
           rewrite Forall_forall in Hall. by apply (Hall nd').
        -- apply NoDup_singleton.
      * rewrite insert_contents, Hw, length_app. simpl.
        rewrite Nat.add_1_r, seq_S, Hlen1.
        rewrite (Permutation_cons_append _ (length (graph.nodes g) + length news)).
        by rewrite app_assoc.
    + apply add_node_old in Hadd as (-> & _).
      exists news. split_and!; [| | | | | |done..].
      * by rewrite states_node_set_initial.
      * done.
      * by rewrite finals_node_set_initial.
      * done.
      * intros Hnd Hrefl. rewrite states_node_set_initial. by apply Hnodup.
      * done.
Qed.

(** *** Whole runs *)

Lemma explored_empty universe : explored universe graph.empty.
Proof.
  split_and!; [apply NoDup_nil_2| | |done].
  - intros s Hin. by apply elem_of_nil in Hin.
  - unfold valid. simpl. lia.
Qed.

Lemma seeded_invariant universe sst g w0 g' w' :
  (∀ s, covers s s = true) → finite_ts universe →
  ts.initial ts = Ok sst → contents w0 = [] →
  explored universe g → seeded sst g w0 g' w' →
  invariant universe g' w' ∧ measure universe g' w' ≤ length universe.
Proof.
  intros Hrefl [Hinit _] Hsst Hw0 (Hnd & Hsub & Hclosed & Hfinal)
    (news & Hstates & Hnews & Hfinals & Hedges & Hnodup & Hw & _ & _).
  rewrite Hw0 in Hw. simpl in Hw.
  assert (Hlen : length (graph.nodes g') = length (graph.nodes g) + length news).
  { by rewrite <- !length_states, Hstates, length_app. }
  assert (Hinv : invariant universe g' w').
  { split_and!.
    - intros n. rewrite Hw. intros Hn%elem_of_seq. unfold valid. lia.
    - by apply Hnodup.
    - intros s. rewrite Hstates. intros [Hin|Hin]%elem_of_app; [by apply Hsub|].
      rewrite Forall_forall in Hnews.
      destruct (Hnews _ Hin) as (status & t & Hin'). by eapply Hinit.
    - intros n Hn. unfold valid in *.
      destruct (decide (n < length (graph.nodes g))) as [Hold|Hnew].
      + right. eapply closed_mono; [by eexists| |by apply Hclosed].
        exists []. by rewrite app_nil_r.
      + left. rewrite Hw. apply elem_of_seq. lia.
    - apply Forall_forall. intros nd Hin.
      assert (Hf : graph.final nd ∈ graph.final <$> graph.nodes g')
        by (by apply list_elem_of_fmap_2).
      rewrite Hfinals in Hf. apply elem_of_app in Hf as [Hf|Hf].
      + apply list_elem_of_fmap in Hf as (nd0 & -> & Hin0).
        rewrite Forall_forall in Hfinal. by apply Hfinal.
      + by apply elem_of_replicate in Hf as [? _]. }
  split; [done|].
  pose proof (invariant_nodes_bound _ _ _ Hinv).
  unfold measure. rewrite Hw, length_seq. lia.
Qed.

(** C3, amended. On a transition system whose states all belong to a
    finite list, with a graph that interns by a reflexive relation, a run
    from the empty graph (or from any graph in which no node is final and
    every node has its successors) and an empty waiting container returns
    as soon as the fuel exceeds the number of states, in exactly one of
    three ways:
    an exception of the transition system; [reachable] false and the full
    graph, in which no node is final; or [reachable] true and exactly one
    final node, which is accepting.  With no label the third way is
    excluded. *)
Theorem run_on_finite_ts_ends_in_one_of_three_ways
    universe labels g w0 start stop :
  (∀ s, covers s s = true) → finite_ts universe →
  explored universe g → contents w0 = [] →
  (bitset.none labels = true →
   ∀ g n, reach.accepting g n ts labels = Ok false) ∧
  ∀ fuel, length universe < fuel →
    ∃ r, reach.run covers fuel ts g labels w0 start stop = Some r ∧
         match r with
         | Throw e => ∃ x, e = reach.ts_exception x
         | Ok (g', stats') =>
             (bitset.none labels = true → reach.reachable stats' = false) ∧
             if reach.reachable stats' then accepted labels g' stats'
             else full_graph g'
         end.
Proof.
  intros Hrefl Hfin Hg Hw0.
  split; [intros Hnone g0 n; by apply accepting_no_label|].
  intros fuel Hfuel. unfold reach.run.
  destruct (ts.initial ts) as [sst|e] eqn:Hsst; simpl;
    [|eexists; split; [done|]; by eexists].
  pose proof (add_initials_seeded sst g w0) as Hseeded.
  destruct (foldl _ _ sst) as [g1 w1].
  destruct (seeded_invariant universe _ _ _ _ _ Hrefl Hfin Hsst Hw0 Hg Hseeded)
    as [Hinv Hm].
  destruct (while_waiting_terminates universe labels Hrefl Hfin _ g1 w1
              (reach.set_start_time reach.new_stats start) Hinv Hm fuel Hfuel)
    as (r & Hr & Hpost).
  unfold reach.run_from_waiting. rewrite Hr.
  destruct r as [[[g' w'] stats']|e]; simpl;
    [|eexists; split; [done|exact Hpost]].
  eexists. split; [done|]. simpl.
  destruct Hpost as [(Hw & Hreach & Hnodes & Hfinal & Hclosed)|Hacc].
  - simpl in Hreach. rewrite Hreach. split; [done|]. split_and!; [done..|].
    intros sst' status s t Hsst' Hin.
    assert (sst' = sst) as -> by congruence.
    destruct Hseeded as (_ & _ & _ & _ & _ & _ & _ & _ & Hcov).
    destruct (Hcov _ _ _ Hin) as (n & nd & Hn & Hi & Hf).
    destruct Hnodes as [new Hnodes].
    exists n, nd. split_and!; [|done..]. rewrite Hnodes. by apply lookup_app_l_Some.
  - pose proof Hacc as (Hreach & Hnone & _). rewrite Hreach.
    split; [congruence|done].
Qed.

Lemma run_from_waiting_clears fuel labels g w stats g' w' stats' :
  reach.run_from_waiting covers fuel ts g labels w stats = Some (Ok (g', w', stats')) →
  waiting.empty w' = true.
Proof.
  unfold reach.run_from_waiting.
  destruct (reach.while_waiting _ _ _ _ _ _ _) as [[[[g1 w1] stats1]|e]|]; [|done..].
  intros [= <- <- <-]. apply empty_contents, clear_contents.
Qed.

(** C1. When the node that the main loop removes from the waiting
    container is accepting, the run ends at once: the flag [final] of the
    node is set, [reachable] is set, the node is the only one removed, the
    graph is otherwise as it was, so the successors of the node are not
    computed (the result does not depend on what [next] and [initial]
    answer), and the waiting container is empty at the end, as it is at
    the end of every run that returns. *)
Theorem accepting_node_ends_the_run labels g w stats fuel s :
  waiting.empty w = false →
  graph.node_state_ptr g (waiting.first w) = Some s →
  bitset.none labels = false →
  bitset.is_subset_of labels (ts.labels ts s) = true →
  ts.is_valid_final ts s = true →
  reach.run_from_waiting covers (S fuel) ts g labels w stats
  = Some (Ok (graph.node_set_final g (waiting.first w) true,
              waiting.clear (waiting.remove_first w),
              reach.set_reachable (reach.incr_visited_states stats) true)) ∧
  graph.node_final (graph.node_set_final g (waiting.first w) true) (waiting.first w)
  = Some true ∧
  reach.reachable (reach.set_reachable (reach.incr_visited_states stats) true)
  = true ∧
  reach.popped covers (S fuel) ts labels g w stats = [waiting.first w] ∧
  waiting.empty (waiting.clear (waiting.remove_first w)) = true ∧
  (∀ ts' : ts.t state_t transition_t exn,
     ts.labels ts' = ts.labels ts →
     ts.is_valid_final ts' = ts.is_valid_final ts →
     reach.run_from_waiting covers (S fuel) ts' g labels w stats
     = reach.run_from_waiting covers (S fuel) ts g labels w stats) ∧
  (∀ fuel' g0 w0 stats0 g' w' stats',
     reach.run_from_waiting covers fuel' ts g0 labels w0 stats0
     = Some (Ok (g', w', stats')) →
     waiting.empty w' = true).
Proof.
  intros Hne Hs Hnone Hsubset Hvf.
  assert (Hvisit : ∀ ts' : ts.t state_t transition_t exn,
            ts.labels ts' = ts.labels ts →
            ts.is_valid_final ts' = ts.is_valid_final ts →
            reach.visit covers ts' labels g w stats
            = Ok (reach.Break
                    (graph.node_set_final g (waiting.first w) true,
                     waiting.remove_first w,
                     reach.set_reachable (reach.incr_visited_states stats) true))).
  { intros ts' Hl Hf. unfold reach.visit, reach.accepting.
    rewrite Hnone. simpl. rewrite (state_of_valid _ _ _ Hs). simpl.
    by rewrite Hl, Hf, Hsubset, Hvf. }
  assert (Hrun : ∀ ts' : ts.t state_t transition_t exn,
            ts.labels ts' = ts.labels ts →
            ts.is_valid_final ts' = ts.is_valid_final ts →
            reach.run_from_waiting covers (S fuel) ts' g labels w stats
            = Some (Ok (graph.node_set_final g (waiting.first w) true,
                        waiting.clear (waiting.remove_first w),
                        reach.set_reachable (reach.incr_visited_states stats) true))).
  { intros ts' Hl Hf. unfold reach.run_from_waiting. simpl.
    by rewrite Hne, (Hvisit ts' Hl Hf). }
  split_and!.
  - by apply Hrun.
  - unfold graph.node_final, graph.node_state_ptr in *. simpl.
    rewrite list_lookup_alter_eq.
    by destruct (graph.nodes g !! waiting.first w).
  - done.
  - simpl. by rewrite Hne, (Hvisit ts).
  - apply empty_contents, clear_contents.
  - intros ts' Hl Hf. by rewrite (Hrun ts' Hl Hf), (Hrun ts).
  - intros fuel' g0 w0 stats0 g' w' stats'. apply run_from_waiting_clears.
Qed.

(** C9. In the loop over the initial states, the flag [initial] of the
    node that [add_node] answers is set whether the node is new or was a
    node of the graph already, and the node is inserted into the waiting
    container only when it is new; at the end of the loop every initial
    state has a node flagged initial that stands for it, and the nodes
    inserted are exactly those allocated. *)
Theorem initial_node_is_flagged_pushed_when_new
    g w status s t is_new initial_node g1 :
  graph.add_node covers g s = (is_new, initial_node, g1) →
  reach.add_initial covers (g, w) (status, s, t)
  = (graph.node_set_initial g1 initial_node true,
     if is_new then waiting.insert w initial_node else w) ∧
  graph.node_initial (graph.node_set_initial g1 initial_node true) initial_node
  = Some true ∧
  (is_new = true ↔ ¬ valid g initial_node) ∧
  contents (if is_new then waiting.insert w initial_node else w)
  ≡ₚ (if is_new then [initial_node] else []) ++ contents w ∧
  ∀ sst,
    seeded sst g w
      (foldl (reach.add_initial covers) (g, w) sst).1
      (foldl (reach.add_initial covers) (g, w) sst).2.
Proof.
  intros Hadd. split_and!.
  - by apply add_initial_eq.
  - destruct (add_node_answer _ _ _ _ _ _ Hadd) as (nd & Hn & _).
    unfold graph.node_initial. simpl. by rewrite list_lookup_alter_eq, Hn.
  - unfold valid. destruct is_new.
    + apply add_node_new in Hadd as (-> & _). split; [lia|done].
    + apply add_node_old in Hadd as (_ & nd & Hn%lookup_lt_Some & _).
      split; [done|lia].
  - destruct is_new; [|done]. apply insert_contents.
  - intros sst. pose proof (add_initials_seeded sst g w) as Hseeded.
    by destruct (foldl _ _ sst).
Qed.

End exploration.

(** *** Sets of labels *)

Lemma is_subset_of_spec (a b : N) :
  bitset.is_subset_of a b = true ↔
  ∀ i, N.testbit a i = true → N.testbit b i = true.
Proof.
  unfold bitset.is_subset_of. rewrite N.eqb_eq. split.
  - intros Hdiff i Ha.
    assert (Hi : N.testbit (N.ldiff a b) i = false) by (by rewrite Hdiff, N.bits_0).
    rewrite N.ldiff_spec, Ha in Hi. simpl in Hi. by apply negb_false_iff.
  - intros Hsub. apply N.bits_inj. intros i. rewrite N.ldiff_spec, N.bits_0.
    destruct (N.testbit a i) eqn:Ha; [|done]. by rewrite (Hsub i Ha).
Qed.

Lemma is_subset_of_trans (a b c : N) :
  bitset.is_subset_of a b = true → bitset.is_subset_of b c = true →
  bitset.is_subset_of a c = true.
Proof. rewrite !is_subset_of_spec. intros Hab Hbc i Ha. by apply Hbc, Hab. Qed.

Section accepting.
Context {state_t transition_t exn : Type}.
Variable ts : ts.t state_t transition_t exn.
Implicit Types (g : graph.t state_t transition_t) (n : nat) (labels : N).

(** X23. A node that is accepting for a set of labels is accepting for
    every non-empty subset of it: its state carries the labels of the
    subset and is a valid final state. *)
Theorem accepting_for_a_label_set_is_accepting_for_its_subsets
    g n labels labels' :
  bitset.none labels = false →
  bitset.is_subset_of labels labels' = true →
  reach.accepting g n ts labels' = Ok true →
  reach.accepting g n ts labels = Ok true ∧
  ∃ s, graph.node_state_ptr g n = Some s ∧
       bitset.is_subset_of labels (ts.labels ts s) = true ∧
       ts.is_valid_final ts s = true.
Proof.
  intros Hnone Hsub. unfold reach.accepting, reach.state_of. rewrite Hnone.
  destruct (bitset.none labels'); simpl; [done|].
  destruct (graph.node_state_ptr g n) as [s|]; simpl; [|done].
  intros [= [Hlabels Hfinal]%andb_true_iff].
  pose proof (is_subset_of_trans _ _ _ Hsub Hlabels) as Hsub'.
  rewrite Hsub', Hfinal. split; [done|]. by exists s.
Qed.

End accepting.

(** *** Graphs that extend a graph *)

Section extends.
Context {state_t transition_t : Type}.
Variable covers : state_t → state_t → bool.
Implicit Types (g : graph.t state_t transition_t) (s : state_t) (n : nat).

Lemma extends_refl g : extends g g.
Proof. split_and!; [done..|]. eauto. Qed.

Lemma extends_trans g1 g2 g3 : extends g1 g2 → extends g2 g3 → extends g1 g3.
Proof.
  intros (Hs12 & He12 & Hn12) (Hs23 & He23 & Hn23).
  split_and!; [by etrans..|].
  intros n nd Hn. destruct (Hn12 _ _ Hn) as (nd2 & Hn2 & Hi2 & Hf2).
  destruct (Hn23 _ _ Hn2) as (nd3 & Hn3 & Hi3 & Hf3).
  exists nd3. split_and!; [done|by intros ?%Hi2%Hi3|by intros ?%Hf2%Hf3].
Qed.

Lemma extends_add_node g s b n g' :
  graph.add_node covers g s = (b, n, g') → extends g g'.
Proof.
  destruct b; intros Hadd.
  - apply add_node_new in Hadd as (_ & -> & _).
    split_and!; simpl; [|done|].
    + unfold states. simpl. rewrite fmap_app. by eexists.
    + intros j nd Hj. exists nd. split; [|done]. by apply lookup_app_l_Some.
  - apply add_node_old in Hadd as (-> & _). apply extends_refl.
Qed.

Lemma extends_add_edge g src tgt (tr : transition_t) :
  extends g (graph.add_edge g src tgt tr).
Proof. split_and!; simpl; [done|by eexists|eauto]. Qed.

Lemma extends_set_flag g n (F : graph.node_t state_t → graph.node_t state_t) :
  (∀ nd, graph.state_ptr (F nd) = graph.state_ptr nd) →
  (∀ nd, graph.initial nd = true → graph.initial (F nd) = true) →
  (∀ nd, graph.final nd = true → graph.final (F nd) = true) →
  extends g (graph.mk (alter F n (graph.nodes g)) (graph.edges g)).
Proof.
  intros Hs Hi Hf. split_and!; simpl; [|done|].
  - unfold states. simpl. by rewrite fmap_alter_same.
  - intros j nd Hj. rewrite list_lookup_alter. case_decide as Hnj.
    + subst j. rewrite Hj. simpl. exists (F nd). eauto.
    + exists nd. eauto.
Qed.

Lemma extends_node_set_initial g n : extends g (graph.node_set_initial g n true).
Proof. by apply extends_set_flag. Qed.

Lemma extends_node_set_final g n : extends g (graph.node_set_final g n true).
Proof. by apply extends_set_flag. Qed.

End extends.

(** *** Runs with any waiting container *)

Section any_container.

Context {state_t transition_t exn : Type}.
Context {W : Type} `{!waiting.t W}.
Variable covers : state_t → state_t → bool.
Variable ts : ts.t state_t transition_t exn.

Local Abbreviation stands_for := (reach_spec.stands_for covers).
Local Abbreviation reachable_state := (reach_spec.reachable_state ts).
Local Abbreviation transition_of := (reach_spec.transition_of covers ts).
Local Abbreviation sound := (reach_spec.sound covers ts).

Implicit Types (g : graph.t state_t transition_t) (w : W).
Implicit Types (stats : reach.stats_t).
Implicit Types (s : state_t) (t : transition_t) (n node : nat) (labels : N).
Implicit Types (sst : list (state_status_t * state_t * transition_t)).
Implicit Types (nd : graph.node_t state_t).

(** *** The graph only grows *)

Lemma add_successor_extends node g w stats x :
  extends g (reach.add_successor covers node (g, w, stats) x).1.1.
Proof.
  destruct x as [[status s] t].
  destruct (graph.add_node covers g s) as [[b m] g1] eqn:Hadd.
  erewrite add_successor_eq by exact Hadd. simpl.
  eapply extends_trans; [by eapply extends_add_node|apply extends_add_edge].
Qed.

Lemma add_successors_extends node sst g w stats :
  extends g (foldl (reach.add_successor covers node) (g, w, stats) sst).1.1.
Proof.
  revert g w stats. induction sst as [|x sst IH]; intros g w stats.
  - apply extends_refl.
  - cbn [foldl].
    pose proof (add_successor_extends node g w stats x) as Hx.
    destruct (reach.add_successor covers node (g, w, stats) x) as [[g1 w1] stats1].
    eapply extends_trans; [exact Hx|apply IH].
Qed.

Lemma add_initial_extends g w x :
  extends g (reach.add_initial covers (g, w) x).1.
Proof.
  destruct x as [[status s] t].
  destruct (graph.add_node covers g s) as [[b m] g1] eqn:Hadd.
  erewrite add_initial_eq by exact Hadd. simpl.
  eapply extends_trans; [by eapply extends_add_node|].
  apply extends_node_set_initial.
Qed.

Lemma add_initials_extends sst g w :
  extends g (foldl (reach.add_initial covers) (g, w) sst).1.
Proof.
  revert g w. induction sst as [|x sst IH]; intros g w.
  - apply extends_refl.
  - cbn [foldl]. pose proof (add_initial_extends g w x) as Hx.
    destruct (reach.add_initial covers (g, w) x) as [g1 w1].
    eapply extends_trans; [exact Hx|apply IH].
Qed.

(** What an iteration of the main loop that does not throw has done. *)
Lemma visit_cases labels g w stats c :
  reach.visit covers ts labels g w stats = Ok c →
  ∃ s, graph.node_state_ptr g (waiting.first w) = Some s ∧
    ((bitset.none labels = false ∧
      bitset.is_subset_of labels (ts.labels ts s) = true ∧
      ts.is_valid_final ts s = true ∧
      c = reach.Break (graph.node_set_final g (waiting.first w) true,
                       waiting.remove_first w,
                       reach.set_reachable (reach.incr_visited_states stats) true)) ∨
     (∃ sst, ts.next ts s = Ok sst ∧
        c = reach.Continue
              (foldl (reach.add_successor covers (waiting.first w))
                 (g, waiting.remove_first w, reach.incr_visited_states stats) sst))).
Proof.
  unfold reach.visit, reach.accepting, reach.state_of.
  destruct (graph.node_state_ptr g (waiting.first w)) as [s|] eqn:Hs.
  - destruct (bitset.none labels) eqn:Hnone; simpl.
    + destruct (ts.next ts s) as [sst|e] eqn:Hnext; simpl; [|done].
      intros [= <-]. exists s. split; [done|]. right. by exists sst.
    + destruct (bitset.is_subset_of _ _ && _) eqn:Hacc; simpl.
      * intros [= <-]. apply andb_true_iff in Hacc as [? ?].
        exists s. split; [done|]. by left.
      * destruct (ts.next ts s) as [sst|e] eqn:Hnext; simpl; [|done].
        intros [= <-]. exists s. split; [done|]. right. by exists sst.
  - by destruct (bitset.none labels).
Qed.


Lemma visit_extends labels g w stats c :
  reach.visit covers ts labels g w stats = Ok c →
  extends g (match c with reach.Continue a | reach.Break a => a.1.1 end).
Proof.
  intros (s & Hs & [(_ & _ & _ & ->)|(sst & _ & ->)])%visit_cases.
  - apply extends_node_set_final.
  - apply add_successors_extends.
Qed.

Lemma while_waiting_extends fuel labels g w stats g' w' stats' :
  reach.while_waiting covers fuel ts labels g w stats = Some (Ok (g', w', stats')) →
  extends g g'.
Proof.
  revert g w stats. induction fuel as [|fuel IH]; intros g w stats; [done|].
  simpl. destruct (waiting.empty w); simpl.
  { intros [= <- <- <-]. apply extends_refl. }
  destruct (reach.visit covers ts labels g w stats)
    as [[[[g1 w1] stats1]|[[g1 w1] stats1]]|e] eqn:Hvisit; [| |done].
  - apply visit_extends in Hvisit. intros Hloop%IH. by eapply extends_trans.
  - apply visit_extends in Hvisit. by intros [= <- <- <-].
Qed.

Lemma run_from_waiting_Ok fuel labels g w stats g' w' stats' :
  reach.run_from_waiting covers fuel ts g labels w stats = Some (Ok (g', w', stats')) →
  ∃ w1, reach.while_waiting covers fuel ts labels g w stats = Some (Ok (g', w1, stats')) ∧
        w' = waiting.clear w1.
Proof.
  unfold reach.run_from_waiting.
  destruct (reach.while_waiting _ _ _ _ _ _ _) as [[[[g1 w1] stats1]|e]|]; [|done..].
  intros [= <- <- <-]. by exists w1.
Qed.

Lemma run_Ok fuel labels g w start stop g' stats' :
  reach.run covers fuel ts g labels w start stop = Some (Ok (g', stats')) →
  ∃ sst w1 stats1,
    ts.initial ts = Ok sst ∧
    reach.while_waiting covers fuel ts labels
      (foldl (reach.add_initial covers) (g, w) sst).1
      (foldl (reach.add_initial covers) (g, w) sst).2
      (reach.set_start_time reach.new_stats start)
    = Some (Ok (g', w1, stats1)) ∧
    stats' = reach.set_end_time stats1 stop.
Proof.
  unfold reach.run. destruct (ts.initial ts) as [sst|e]; simpl; [|done].
  destruct (foldl (reach.add_initial covers) (g, w) sst) as [g1 w1] eqn:Hfold.
  simpl.
  destruct (reach.run_from_waiting _ _ _ _ _ _ _)
    as [[[[g2 w2] stats2]|e]|] eqn:Hrun; [|done..].
  intros [= <- <-]. apply run_from_waiting_Ok in Hrun as (w3 & Hloop & _).
  exists sst, w3, stats2. rewrite Hfold. split_and!; [done|exact Hloop|done].
Qed.

Lemma run_waiting_Ok fuel labels g w start stop g' w' stats' :
  reach.run_waiting covers fuel ts g labels w start stop = Some (Ok (g', w', stats')) →
  ∃ w1 stats1,
    reach.while_waiting covers fuel ts labels g w
      (reach.set_start_time reach.new_stats start)
    = Some (Ok (g', w1, stats1)) ∧
    w' = waiting.clear w1 ∧ stats' = reach.set_end_time stats1 stop.
Proof.
  unfold reach.run_waiting.
  destruct (reach.run_from_waiting _ _ _ _ _ _ _)
    as [[[[g2 w2] stats2]|e]|] eqn:Hrun; [|done..].
  intros [= <- <- <-]. apply run_from_waiting_Ok in Hrun as (w3 & Hloop & ->).
  by exists w3, stats2.
Qed.

(** X24. A run only adds to the graph: the nodes of the graph given are
    nodes of the graph returned, at the same addresses and with the same
    states, no flag that was set is reset, and the edges of the graph given
    are the first edges of the graph returned.  This holds for both
    overloads of [run], whatever the transition system, the waiting
    container and the labels. *)
Theorem run_only_adds_to_the_graph fuel labels g w start stop :
  (∀ g' stats',
     reach.run covers fuel ts g labels w start stop = Some (Ok (g', stats')) →
     extends g g') ∧
  (∀ g' w' stats',
     reach.run_waiting covers fuel ts g labels w start stop
     = Some (Ok (g', w', stats')) →
     extends g g').
Proof.
  split.
  - intros g' stats' (sst & w1 & stats1 & _ & Hloop & _)%run_Ok.
    apply while_waiting_extends in Hloop.
    eapply extends_trans; [apply (add_initials_extends sst g w)|exact Hloop].
  - intros g' w' stats' (w1 & stats1 & Hloop & _)%run_waiting_Ok.
    by eapply while_waiting_extends.
Qed.

(** *** Nothing in the graph is made up *)

Lemma extends_node_state_ptr g g' n s :
  extends g g' → graph.node_state_ptr g n = Some s →
  graph.node_state_ptr g' n = Some s.
Proof.
  intros ([news Hstates] & _) Hs. rewrite node_state_ptr_lookup in *.
  rewrite Hstates. by apply lookup_app_l_Some.
Qed.

Lemma extends_stands_for g g' n nd s :
  extends g g' → graph.nodes g !! n = Some nd → stands_for nd s →
  ∃ nd', graph.nodes g' !! n = Some nd' ∧ stands_for nd' s.
Proof.
  intros Hext Hn Hfor. pose proof Hext as (_ & _ & Hnodes).
  destruct (Hnodes _ _ Hn) as (nd' & Hn' & _). exists nd'. split; [done|].
  assert (Hs : graph.node_state_ptr g n = Some (graph.state_ptr nd)).
  { unfold graph.node_state_ptr. by rewrite Hn. }
  apply (extends_node_state_ptr _ _ _ _ Hext) in Hs.
  unfold graph.node_state_ptr in Hs. rewrite Hn' in Hs. injection Hs as Hs.
  unfold reach_spec.stands_for. by rewrite Hs.
Qed.

Lemma transition_of_extends g g' e :
  extends g g' → transition_of g e → transition_of g' e.
Proof.
  intros Hext (s & sst & status & s' & nd & Hs & Hnext & Hin & Hn & Hfor).
  destruct (extends_stands_for _ _ _ _ _ Hext Hn Hfor) as (nd' & Hn' & Hfor').
  exists s, sst, status, s', nd'. split_and!; [|done..].
  by eapply extends_node_state_ptr.
Qed.

Lemma sound_extends g g' :
  sound g → extends g g' →
  (∀ s, s ∈ states g' → s ∈ states g ∨ reachable_state s) →
  (∀ e, e ∈ graph.edges g' → e ∈ graph.edges g ∨ transition_of g' e) →
  sound g'.
Proof.
  intros [Hstates Hedges] Hext Hnews Hmore. split.
  - intros s [Hin|Hin]%Hnews; [by apply Hstates|done].
  - apply Forall_forall. intros e [Hin|Hin]%Hmore; [|done].
    rewrite Forall_forall in Hedges.
    eapply transition_of_extends; [done|by apply Hedges].
Qed.

Lemma states_add_node g s b n g' :
  graph.add_node covers g s = (b, n, g') →
  ∀ s', s' ∈ states g' → s' ∈ states g ∨ s' = s.
Proof.
  destruct b; intros Hadd s'.
  - apply add_node_new in Hadd as (_ & -> & _). unfold states. simpl.
    rewrite fmap_app. simpl. rewrite elem_of_app, list_elem_of_singleton. tauto.
  - apply add_node_old in Hadd as (-> & _). tauto.
Qed.

Lemma edges_add_node g s b n g' :
  graph.add_node covers g s = (b, n, g') → graph.edges g' = graph.edges g.
Proof.
  destruct b; intros Hadd.
  - by apply add_node_new in Hadd as (_ & -> & _).
  - by apply add_node_old in Hadd as (-> & _).
Qed.

Lemma add_successor_sound node s sst g w stats x :
  sound g → graph.node_state_ptr g node = Some s →
  ts.next ts s = Ok sst → x ∈ sst →
  sound (reach.add_successor covers node (g, w, stats) x).1.1.
Proof.
  intros Hsound Hs Hnext Hin.
  pose proof (add_successor_extends node g w stats x) as Hext.
  destruct x as [[status s'] t].
  destruct (graph.add_node covers g s') as [[b m] g1] eqn:Hadd.
  erewrite add_successor_eq in Hext |- * by exact Hadd. simpl in *.
  assert (Hreach : reachable_state s).
  { apply Hsound. rewrite node_state_ptr_lookup in Hs.
    by eapply list_elem_of_lookup_2. }
  eapply sound_extends; [done..| |].
  - simpl. intros s0 [?| ->]%(states_add_node _ _ _ _ _ Hadd); [by left|].
    right. by eapply reachable_next.
  - simpl. rewrite (edges_add_node _ _ _ _ _ Hadd).
    intros e [?| ->%list_elem_of_singleton]%elem_of_app; [by left|]. right.
    destruct (add_node_answer _ _ _ _ _ _ Hadd) as (nd & Hm & Hfor).
    exists s, sst, status, s', nd. simpl. split_and!; [|done..|].
    + by eapply extends_node_state_ptr.
    + destruct b; [by left|by right].
Qed.

Lemma add_successors_sound node s sst g w stats (l : list _) :
  sound g → graph.node_state_ptr g node = Some s →
  ts.next ts s = Ok sst → (∀ x, x ∈ l → x ∈ sst) →
  sound (foldl (reach.add_successor covers node) (g, w, stats) l).1.1.
Proof.
  revert g w stats. induction l as [|x l IH]; intros g w stats Hsound Hs Hnext Hl.
  - done.
  - cbn [foldl].
    pose proof (add_successor_sound node s sst g w stats x Hsound Hs Hnext) as Hx.
    pose proof (add_successor_extends node g w stats x) as Hext.
    destruct (reach.add_successor covers node (g, w, stats) x) as [[g1 w1] stats1].
    simpl in *. apply IH; [|by eapply extends_node_state_ptr|done|].
    + apply Hx, Hl. by left.
    + intros y Hy. apply Hl. by right.
Qed.

Lemma add_initial_sound sst g w x :
  sound g → ts.initial ts = Ok sst → x ∈ sst →
  sound (reach.add_initial covers (g, w) x).1.
Proof.
  intros Hsound Hinit Hin.
  pose proof (add_initial_extends g w x) as Hext.
  destruct x as [[status s] t].
  destruct (graph.add_node covers g s) as [[b m] g1] eqn:Hadd.
  erewrite add_initial_eq in Hext |- * by exact Hadd. simpl in *.
  eapply sound_extends; [done..| |].
  - rewrite states_node_set_initial.
    intros s0 [?| ->]%(states_add_node _ _ _ _ _ Hadd); [by left|].
    right. by eapply reachable_initial.
  - simpl. rewrite (edges_add_node _ _ _ _ _ Hadd). by left.
Qed.

Lemma add_initials_sound sst g w (l : list _) :
  sound g → ts.initial ts = Ok sst → (∀ x, x ∈ l → x ∈ sst) →
  sound (foldl (reach.add_initial covers) (g, w) l).1.
Proof.
  revert g w. induction l as [|x l IH]; intros g w Hsound Hinit Hl; [done|].
  cbn [foldl].
  pose proof (add_initial_sound sst g w x Hsound Hinit) as Hx.
  destruct (reach.add_initial covers (g, w) x) as [g1 w1].
  simpl in *. apply IH; [|done|].
  - apply Hx, Hl. by left.
  - intros y Hy. apply Hl. by right.
Qed.

Lemma visit_sound labels g w stats c :
  sound g → reach.visit covers ts labels g w stats = Ok c →
  sound (match c with reach.Continue a | reach.Break a => a.1.1 end).
Proof.
  intros Hsound (s & Hs & [(_ & _ & _ & ->)|(sst & Hnext & ->)])%visit_cases.
  - simpl. eapply sound_extends; [done|apply extends_node_set_final|..].
    + unfold states. simpl. rewrite fmap_alter_same by done. by left.
    + by left.
  - by eapply add_successors_sound.
Qed.

Lemma while_waiting_sound fuel labels g w stats g' w' stats' :
  sound g →
  reach.while_waiting covers fuel ts labels g w stats = Some (Ok (g', w', stats')) →
  sound g'.
Proof.
  revert g w stats. induction fuel as [|fuel IH]; intros g w stats Hsound; [done|].
  simpl. destruct (waiting.empty w); simpl.
  { by intros [= <- <- <-]. }
  destruct (reach.visit covers ts labels g w stats)
    as [[[[g1 w1] stats1]|[[g1 w1] stats1]]|e] eqn:Hvisit; [| |done].
  - apply (visit_sound _ _ _ _ _ Hsound) in Hvisit. by apply IH.
  - apply (visit_sound _ _ _ _ _ Hsound) in Hvisit. by intros [= <- <- <-].
Qed.

Lemma sound_empty : sound graph.empty.
Proof.
  split; [|done]. intros s Hin. by apply elem_of_nil in Hin.
Qed.

(** X25. A run makes nothing up: from a graph whose node states are
    reached by the transition system and whose edges are transitions of it
    (the empty graph is one), both overloads of [run] return such a
    graph. *)
Theorem run_builds_a_sound_graph fuel labels g w start stop :
  sound graph.empty ∧
  (sound g →
   (∀ g' stats',
      reach.run covers fuel ts g labels w start stop = Some (Ok (g', stats')) →
      sound g') ∧
   (∀ g' w' stats',
      reach.run_waiting covers fuel ts g labels w start stop
      = Some (Ok (g', w', stats')) →
      sound g')).
Proof.
  split; [apply sound_empty|]. intros Hsound. split.
  - intros g' stats' (sst & w1 & stats1 & Hinit & Hloop & _)%run_Ok.
    eapply while_waiting_sound; [|exact Hloop].
    by eapply add_initials_sound.
  - intros g' w' stats' (w1 & stats1 & Hloop & _)%run_waiting_Ok.
    by eapply while_waiting_sound.
Qed.

End any_container.

(** *** Runs with a waiting container that obeys the contract *)

Section lawful_container.

Context {state_t transition_t exn : Type}.
Context {W : Type} `{!waiting.t W} `{!lawful W}.
Variable covers : state_t → state_t → bool.
Variable ts : ts.t state_t transition_t exn.

Local Abbreviation reachable_state := (reach_spec.reachable_state ts).
Local Abbreviation sound := (reach_spec.sound covers ts).
Local Abbreviation seeded := (reach_spec.seeded covers).
Local Abbreviation expanded := (reach_spec.expanded covers).

Implicit Types (g : graph.t state_t transition_t) (w : W).
Implicit Types (stats : reach.stats_t).
Implicit Types (s : state_t) (t : transition_t) (n node : nat) (labels : N).
Implicit Types (sst : list (state_status_t * state_t * transition_t)).

(** *** Statistics *)

Lemma add_successors_edges node sst g w stats :
  length (graph.edges (foldl (reach.add_successor covers node) (g, w, stats) sst).1.1)
  = length (graph.edges g) + length sst.
Proof.
  revert g w stats. induction sst as [|[[status s] t] sst IH]; intros g w stats.
  - simpl. lia.
  - destruct (graph.add_node covers g s) as [[b m] g1] eqn:Hadd.
    cbn [foldl]. erewrite add_successor_eq by exact Hadd. rewrite IH. simpl.
    rewrite length_app, (edges_add_node _ _ _ _ _ _ Hadd). simpl. lia.
Qed.

(** The invariant of the main loop on the statistics: the nodes of the
    graph are those present at the start, those visited and those
    waiting; the edges are those present at the start and those counted;
    the waiting nodes are nodes of the graph. *)
Lemma visit_statistics labels g w stats c :
  waiting.empty w = false →
  reach.visit covers ts labels g w stats = Ok c →
  let '(g', w', stats') :=
    match c with reach.Continue a | reach.Break a => a end in
  reach.base stats' = reach.base stats ∧
  (reach.visited_states stats' + N.of_nat (length (contents w'))
   + N.of_nat (length (graph.nodes g))
   = reach.visited_states stats + N.of_nat (length (contents w))
     + N.of_nat (length (graph.nodes g')))%N ∧
  (reach.visited_transitions stats' + N.of_nat (length (graph.edges g))
   = reach.visited_transitions stats + N.of_nat (length (graph.edges g')))%N ∧
  ((∀ n, n ∈ contents w → valid g n) → ∀ n, n ∈ contents w' → valid g' n) ∧
  match c with
  | reach.Continue _ => reach.reachable stats' = reach.reachable stats
  | reach.Break _ => reach.reachable stats' = true
  end.
Proof.
  intros Hne (s & Hs & [(_ & _ & _ & ->)|(sst & Hnext & ->)])%visit_cases.
  - pose proof (first_contents w Hne) as Hfirst.
    apply Permutation_length in Hfirst as Hlen. simpl in Hlen.
    simpl. rewrite length_alter. split_and!; [done|lia|lia| |done].
    intros Hvalid n Hn. unfold valid. simpl. rewrite length_alter.
    apply Hvalid. rewrite Hfirst. by right.
  - pose proof (first_contents w Hne) as Hfirst.
    apply Permutation_length in Hfirst as Hlen. simpl in Hlen.
    pose proof (add_successors_expanded covers (waiting.first w) sst g
                  (waiting.remove_first w) (reach.incr_visited_states stats))
      as Hexp.
    pose proof (add_successors_stats covers (waiting.first w) sst g
                  (waiting.remove_first w) (reach.incr_visited_states stats))
      as Hstats.
    pose proof (add_successors_edges (waiting.first w) sst g
                  (waiting.remove_first w) (reach.incr_visited_states stats))
      as Hedges.
    destruct (foldl _ _ sst) as [[g' w'] stats']. simpl in Hstats, Hedges.
    subst stats'.
    destruct Hexp as (new & more & Hnodes & _ & _ & _ & Hw & _).
    apply Permutation_length in Hw as Hlenw.
    rewrite length_app, length_seq in Hlenw.
    simpl. rewrite Hnodes, length_app, Hedges.
    split_and!; [done|lia|lia| |done].
    intros Hvalid n. rewrite Hw. unfold valid in *. rewrite Hnodes, length_app.
    intros [Hn|Hn]%elem_of_app.
    + assert (n ∈ contents w) as Hn'%Hvalid by (rewrite Hfirst; by right). lia.
    + apply elem_of_seq in Hn. lia.
Qed.

Lemma while_waiting_statistics fuel labels g w stats g' w' stats' :
  reach.while_waiting covers fuel ts labels g w stats = Some (Ok (g', w', stats')) →
  reach.base stats' = reach.base stats ∧
  (reach.visited_states stats' + N.of_nat (length (contents w'))
   + N.of_nat (length (graph.nodes g))
   = reach.visited_states stats + N.of_nat (length (contents w))
     + N.of_nat (length (graph.nodes g')))%N ∧
  (reach.visited_transitions stats' + N.of_nat (length (graph.edges g))
   = reach.visited_transitions stats + N.of_nat (length (graph.edges g')))%N ∧
  (reach.reachable stats = false → reach.reachable stats' = false →
   contents w' = []).
Proof.
  revert g w stats. induction fuel as [|fuel IH]; intros g w stats; [done|].
  simpl. destruct (waiting.empty w) eqn:Hempty; simpl.
  { intros [= <- <- <-]. split_and!; [done..|].
    intros _ _. by apply empty_contents. }
  destruct (reach.visit covers ts labels g w stats)
    as [[[[g1 w1] stats1]|[[g1 w1] stats1]]|e] eqn:Hvisit; [| |done].
  - destruct (visit_statistics _ _ _ _ _ Hempty Hvisit)
      as (Hbase & Hstates & Hedges & _ & Hreach).
    intros (Hbase' & Hstates' & Hedges' & Hexhausted)%IH.
    split_and!; [congruence|lia|lia|].
    intros Hfalse. apply Hexhausted. congruence.
  - destruct (visit_statistics _ _ _ _ _ Hempty Hvisit)
      as (Hbase & Hstates & Hedges & _ & Hreach).
    intros [= <- <- <-]. split_and!; [done..|]. congruence.
Qed.

(** X26. The statistics of a run from an empty waiting container
    describe what the run added to the graph: [visited_transitions] is the
    number of edges added; [visited_states] is at most the number of nodes
    added, and is that number when [reachable] is false; the two times are
    the two readings of the clock. *)
Theorem statistics_count_what_the_run_added
    fuel labels g w0 start stop g' stats' :
  contents w0 = [] →
  reach.run covers fuel ts g labels w0 start stop = Some (Ok (g', stats')) →
  (reach.visited_transitions stats' + N.of_nat (length (graph.edges g))
   = N.of_nat (length (graph.edges g')))%N ∧
  (reach.visited_states stats' + N.of_nat (length (graph.nodes g))
   ≤ N.of_nat (length (graph.nodes g')))%N ∧
  (reach.reachable stats' = false →
   (reach.visited_states stats' + N.of_nat (length (graph.nodes g))
    = N.of_nat (length (graph.nodes g')))%N) ∧
  stats.start_time (reach.base stats') = start ∧
  stats.end_time (reach.base stats') = stop ∧
  stats.running_time (reach.base stats') = (stop - start)%Z.
Proof.
  intros Hw0 (sst & w1 & stats1 & _ & Hloop & ->)%run_Ok.
  pose proof (add_initials_seeded covers sst g w0) as Hseeded.
  destruct (foldl (reach.add_initial covers) (g, w0) sst) as [g1 w2].
  destruct Hseeded as (news & Hstates & _ & _ & Hedges & _ & Hw & _).
  rewrite Hw0 in Hw. simpl in Hw.
  apply Permutation_length in Hw. rewrite length_seq in Hw.
  assert (Hlen : length (graph.nodes g1) = length (graph.nodes g) + length news).
  { by rewrite <- !length_states, Hstates, length_app. }
  apply while_waiting_statistics in Hloop
    as (Hbase & Hvisited & Htransitions & Hexhausted).
  simpl in *. rewrite Hedges in Htransitions. rewrite Hbase.
  split_and!; [lia|lia| |done..].
  intros Hfalse. rewrite Hexhausted in Hvisited by done. simpl in Hvisited. lia.
Qed.

(** *** Failures *)



(** *** What a run that returns has done *)

Local Abbreviation closed := (reach_spec.closed covers ts).
Local Abbreviation exhausted := (reach_spec.exhausted covers ts).
Local Abbreviation accepted := (reach_spec.accepted ts).
Local Abbreviation full_graph := (reach_spec.full_graph covers ts).

(** The part of the invariant of the main loop that does not depend on
    the number of states. *)
Lemma visit_keeps_nodes_waiting_or_closed labels g w stats c :
  (∀ n, n ∈ contents w → valid g n) →
  (∀ n, valid g n → n ∈ contents w ∨ closed g n) →
  Forall (λ nd, graph.final nd = false) (graph.nodes g) →
  waiting.empty w = false →
  reach.visit covers ts labels g w stats = Ok c →
  match c with
  | reach.Break (g', w', stats') => accepted labels g' stats'
  | reach.Continue (g', w', stats') =>
      (∀ n, n ∈ contents w' → valid g' n) ∧
      (∀ n, valid g' n → n ∈ contents w' ∨ closed g' n) ∧
      Forall (λ nd, graph.final nd = false) (graph.nodes g') ∧
      graph.nodes g `prefix_of` graph.nodes g' ∧
      reach.reachable stats' = reach.reachable stats ∧
      (NoDup (states g) → (∀ s, covers s s = true) → NoDup (states g'))
  end.
Proof.
  intros Hvalid Hclosed Hfinal Hne
    (s & Hs & [(Hnone & Hsubset & Hvf & ->)|(sst & Hnext & ->)])%visit_cases.
  - by eapply node_set_final_accepted.
  - pose proof (first_contents w Hne) as Hfirst.
    set (node := waiting.first w) in *.
    pose proof (add_successors_expanded covers node sst g (waiting.remove_first w)
                  (reach.incr_visited_states stats)) as Hexp.
    pose proof (add_successors_stats covers node sst g (waiting.remove_first w)
                  (reach.incr_visited_states stats)) as Hstats.
    destruct (foldl _ _ sst) as [[g' w'] stats'].
    simpl in Hstats. subst stats'.
    destruct Hexp as (new & more & Hnodes & Hedges & Hfresh & Hnodup & Hw & Hcov).
    assert (Hlen : length (graph.nodes g') = length (graph.nodes g) + length new).
    { by rewrite Hnodes, length_app. }
    split_and!; [| | | | |exact Hnodup].
    + intros n. rewrite Hw. unfold valid in *.
      intros [Hn|Hn]%elem_of_app.
      * assert (n ∈ contents w) as Hn'%Hvalid by (rewrite Hfirst; by right). lia.
      * apply elem_of_seq in Hn. lia.
    + intros n Hn. unfold valid in *.
      destruct (decide (n < length (graph.nodes g))) as [Hold|Hnew].
      * destruct (Hclosed n Hold) as [Hin|Hcl].
        -- rewrite Hfirst in Hin. apply elem_of_cons in Hin as [->|Hin].
           ++ right. exists s, sst. split_and!; [|done|done].
              unfold graph.node_state_ptr in *. rewrite Hnodes.
              destruct (graph.nodes g !! node) as [nd|] eqn:Hnd'; [|done].
              by rewrite (lookup_app_l_Some _ _ _ _ Hnd').
           ++ left. rewrite Hw. apply elem_of_app. by left.
        -- right. eapply closed_mono; [|by eexists|done].
           unfold states. rewrite Hnodes, fmap_app. by eexists.
      * left. rewrite Hw. apply elem_of_app. right. apply elem_of_seq. lia.
    + rewrite Hnodes. apply Forall_app. split; [done|].
      eapply Forall_impl; [exact Hfresh|]. by intros nd (_ & ? & _).
    + by eexists.
    + done.
Qed.

Lemma while_waiting_exhausted_or_accepted fuel labels g w stats g' w' stats' :
  (∀ n, n ∈ contents w → valid g n) →
  (∀ n, valid g n → n ∈ contents w ∨ closed g n) →
  Forall (λ nd, graph.final nd = false) (graph.nodes g) →
  reach.while_waiting covers fuel ts labels g w stats = Some (Ok (g', w', stats')) →
  exhausted g stats g' w' stats' ∧
  (NoDup (states g) → (∀ s, covers s s = true) → NoDup (states g')) ∨
  accepted labels g' stats'.
Proof.
  revert g w stats. induction fuel as [|fuel IH];
    intros g w stats Hvalid Hclosed Hfinal; [done|].
  simpl. destruct (waiting.empty w) eqn:Hempty; simpl.
  { intros [= <- <- <-]. left. apply empty_contents in Hempty.
    split; [|done]. split_and!; [done..|].
    intros n Hn. destruct (Hclosed n Hn) as [Hin|]; [|done].
    rewrite Hempty in Hin. by apply elem_of_nil in Hin. }
  destruct (reach.visit covers ts labels g w stats)
    as [[[[g1 w1] stats1]|[[g1 w1] stats1]]|e] eqn:Hvisit; [| |done].
  - apply visit_keeps_nodes_waiting_or_closed in Hvisit
      as (Hvalid1 & Hclosed1 & Hfinal1 & Hnodes1 & Hreach1 & Hnodup1); [|done..].
    intros [[(Hw & Hreach & Hnodes & Hfinal' & Hclosed') Hnodup]|Hacc]%IH;
      [| |done..].
    + left. split; [|by auto]. split_and!; [done|congruence|by etrans|done..].
    + by right.
  - apply visit_keeps_nodes_waiting_or_closed in Hvisit; [|done..].
    intros [= <- <- <-]. by right.
Qed.

(** What the first overload of [run] returns. *)
Lemma run_accepted_or_full_graph fuel labels g w start stop g' stats' :
  Forall (λ nd, graph.final nd = false) (graph.nodes g) →
  contents w = [] → (∀ n, valid g n → closed g n) →
  reach.run covers fuel ts g labels w start stop = Some (Ok (g', stats')) →
  (reach.reachable stats' = false ∧ full_graph g' ∧
   (NoDup (states g) → (∀ s, covers s s = true) → NoDup (states g'))) ∨
  accepted labels g' stats'.
Proof.
  intros Hfinal Hw0 Hclosed (sst & w1 & stats1 & Hinit & Hloop & ->)%run_Ok.
  pose proof (add_initials_seeded covers sst g w) as Hseeded.
  destruct (foldl (reach.add_initial covers) (g, w) sst) as [g1 w2].
  simpl in Hloop.
  destruct Hseeded as (news & Hstates & _ & Hfinals & Hedges & Hnodup1 & Hw & _ & Hcov).
  rewrite Hw0 in Hw. simpl in Hw.
  assert (Hlen : length (graph.nodes g1) = length (graph.nodes g) + length news).
  { by rewrite <- !length_states, Hstates, length_app. }
  apply while_waiting_exhausted_or_accepted in Hloop
    as [[(_ & Hreach & Hnodes & Hfinal' & Hclosed') Hnodup]|Hacc].
  - left. split_and!; [done|split_and!; [done..|]|by auto].
    intros sst' status s t Hsst' Hin.
    assert (sst' = sst) as -> by congruence.
    destruct (Hcov _ _ _ Hin) as (n & nd & Hn & Hi & Hf).
    destruct Hnodes as [new Hnodes].
    exists n, nd. split_and!; [|done..]. rewrite Hnodes. by apply lookup_app_l_Some.
  - by right.
  - intros n. rewrite Hw. intros Hn%elem_of_seq. unfold valid. lia.
  - intros n Hn. unfold valid in *.
    destruct (decide (n < length (graph.nodes g))) as [Hold|Hnew].
    + right. eapply closed_mono; [by eexists| |by apply Hclosed].
      exists []. by rewrite app_nil_r.
    + left. rewrite Hw. apply elem_of_seq. lia.
  - apply Forall_forall. intros nd Hin.
    assert (Hf : graph.final nd ∈ graph.final <$> graph.nodes g1)
      by (by apply list_elem_of_fmap_2).
    rewrite Hfinals in Hf. apply elem_of_app in Hf as [Hf|Hf].
    + apply list_elem_of_fmap in Hf as (nd0 & -> & Hin0).
      rewrite Forall_forall in Hfinal. by apply Hfinal.
    + by apply elem_of_replicate in Hf as [? _].
Qed.

(** X28. A run that returns has done its work, whatever the size of the
    transition system and whatever the relation by which the graph interns
    its nodes.  Started on a graph without final node, a run that returns
    ends with [reachable] set and exactly one final node, which is
    accepting, or with [reachable] unset, no final node and every node
    having all its successors in the graph, with an edge to each.  For the
    overload that starts from the initial states, on a graph in which
    every node has its successors (the empty graph is one), the latter is
    the full graph: every initial state has a node flagged initial as
    well.  For the overload that starts from a waiting container, the
    nodes given have to be waiting or to have their successors. *)
Theorem a_run_that_returns_accepted_or_explored_everything
    fuel labels g w start stop :
  Forall (λ nd, graph.final nd = false) (graph.nodes g) →
  (contents w = [] → (∀ n, valid g n → closed g n) →
   ∀ g' stats',
     reach.run covers fuel ts g labels w start stop = Some (Ok (g', stats')) →
     if reach.reachable stats' then accepted labels g' stats'
     else full_graph g') ∧
  ((∀ n, n ∈ contents w → valid g n) →
   (∀ n, valid g n → n ∈ contents w ∨ closed g n) →
   ∀ g' w' stats',
     reach.run_waiting covers fuel ts g labels w start stop
     = Some (Ok (g', w', stats')) →
     if reach.reachable stats' then accepted labels g' stats'
     else Forall (λ nd, graph.final nd = false) (graph.nodes g') ∧
          ∀ n, valid g' n → closed g' n).
Proof.
  intros Hfinal. split.
  - intros Hw0 Hclosed g' stats' Hrun.
    destruct (run_accepted_or_full_graph _ _ _ _ _ _ _ _ Hfinal Hw0 Hclosed Hrun)
      as [(Hreach & Hfull & _)|Hacc].
    + by rewrite Hreach.
    + pose proof Hacc as (Hreach & _). by rewrite Hreach.
  - intros Hvalid Hclosed g' w' stats' (w1 & stats1 & Hloop & _ & ->)%run_waiting_Ok.
    apply while_waiting_exhausted_or_accepted in Hloop
      as [[(_ & Hreach & _ & Hfinal' & Hclosed') _]|Hacc]; [| |done..].
    + simpl in Hreach. simpl. by rewrite Hreach.
    + pose proof Hacc as (Hreach & _). simpl in *. by rewrite Hreach.
Qed.

(** A full graph that interns by equality has a node for every state
    that the transition system reaches. *)
Lemma full_graph_has_the_reachable_states g s :
  (∀ s1 s2, covers s1 s2 = true → s1 = s2) →
  full_graph g → reachable_state s → s ∈ states g.
Proof.
  intros Heq (_ & Hclosed & Hinit) Hs.
  assert (Hfor : ∀ n nd s', graph.nodes g !! n = Some nd →
                   reach_spec.stands_for covers nd s' → s' ∈ states g).
  { intros n nd s' Hn Hf.
    assert (s' = graph.state_ptr nd) as -> by (by destruct Hf as [<-|Hc%Heq]).
    unfold states. apply list_elem_of_fmap_2. by eapply list_elem_of_lookup_2. }
  induction Hs as [sst status s t Hsst Hin|s0 sst status s t _ IH Hnext Hin].
  - destruct (Hinit _ _ _ _ Hsst Hin) as (n & nd & Hn & _ & Hf). by eapply Hfor.
  - apply list_elem_of_lookup_1 in IH as [n Hn].
    assert (Hvalid : valid g n).
    { unfold valid. rewrite <- length_states. by eapply lookup_lt_Some. }
    destruct (Hclosed n Hvalid) as (s' & sst' & Hs' & Hnext' & Hcov).
    rewrite node_state_ptr_lookup in Hs'.
    assert (s' = s0) as -> by congruence.
    assert (sst' = sst) as -> by congruence.
    destruct (Hcov _ _ _ Hin) as (m & nd & Hm & Hf & _). by eapply Hfor.
Qed.

(** X29. When the graph interns its nodes by a relation that only
    relates equal states, a run that returns with [reachable] unset has
    found the states that the transition system reaches from its initial
    states, and nothing else: the states of the nodes of the graph
    returned are those states.  When the relation is equality, no state
    has two nodes. *)
Theorem a_run_interning_by_equality_returns_the_reachable_states
    fuel labels g w start stop g' stats' :
  (∀ s1 s2, covers s1 s2 = true → s1 = s2) →
  contents w = [] → sound g → (∀ n, valid g n → closed g n) →
  Forall (λ nd, graph.final nd = false) (graph.nodes g) →
  reach.run covers fuel ts g labels w start stop = Some (Ok (g', stats')) →
  reach.reachable stats' = false →
  (∀ s, s ∈ states g' ↔ reachable_state s) ∧
  (NoDup (states g) → (∀ s, covers s s = true) → NoDup (states g')).
Proof.
  intros Heq Hw0 Hsound Hclosed Hfinal Hrun Hreach.
  destruct (run_accepted_or_full_graph _ _ _ _ _ _ _ _ Hfinal Hw0 Hclosed Hrun)
    as [(_ & Hfull & Hnodup)|(Hreach' & _)]; [|congruence].
  split; [|done]. intros s. split; [|by apply full_graph_has_the_reachable_states].
  apply run_Ok in Hrun as (sst & w1 & stats1 & Hinit & Hloop & _).
  assert (Hsound' : sound g'); [|by apply Hsound'].
  eapply (while_waiting_sound covers ts); [|exact Hloop].
  by eapply add_initials_sound.
Qed.

End lawful_container.

End reach_proofs.

(** * The properties on concrete inputs *)

Module clockbounds_examples.
Import clockbounds clockbounds_spec clockbounds_proofs examples.

(** C5 on the map [3, 5]: the update of clock 1 by 7 answers true and
    stores 7, clock 0 keeps its bound, and the update by the map
    [4, NO_BOUND] grows clock 0 only. *)
Lemma update_monotone_witness :
  1 < capacity [3; 5]%Z ∧ capacity [3; 5]%Z ≤ capacity [4; NO_BOUND]%Z ∧
  (∃ map' : list Z,
     update [3; 5]%Z 1 7%Z = Some (true, map') ∧
     map' !! 1 = Some 7%Z ∧ map' !! 0 = Some 3%Z) ∧
  update [3; 5]%Z 1 NO_BOUND = Some (false, [3; 5]%Z) ∧
  (∃ map' : list Z,
     update_map [3; 5]%Z [4; NO_BOUND]%Z = Some (true, map') ∧
     map' !! 0 = Some 4%Z ∧ map' !! 1 = Some 5%Z).
Proof.
  destruct (update_monotone NO_BOUND [3; 5]%Z) as [Hentry Hmap].
  assert (H1 : 1 < capacity [3; 5]%Z) by (vm_compute; lia).
  assert (H2 : capacity [3; 5]%Z ≤ capacity [4; NO_BOUND]%Z) by (vm_compute; lia).
  destruct (Hentry 1 7%Z H1) as (cur & map' & Hcur & Hupd & Hnew & Hother & _ & Hno).
  injection Hcur as <-.
  destruct (Hmap [4; NO_BOUND]%Z H2) as (modified & map'' & Hupd' & _ & Hmax & Hmod).
  assert (modified = true) as ->.
  { apply Hmod. exists 0, 3%Z, 4%Z. split_and!; [reflexivity..|lia]. }
  split_and!; [exact H1|exact H2| | |].
  - exists map'. split_and!; [exact Hupd|exact Hnew|].
    rewrite (Hother 0) by lia. reflexivity.
  - apply Hno. vm_compute. discriminate.
  - exists map''. split_and!; [exact Hupd'| |].
    + exact (Hmax 0 3%Z 4%Z eq_refl eq_refl).
    + exact (Hmax 1 5%Z NO_BOUND eq_refl eq_refl).
Defined.

(** C4 on the vloc (0, 1) of the two example maps. *)
Lemma local_bounds_vloc_witness :
  local_lu_map_t.wf lu ∧ local_m_map_t.wf mm ∧
  Forall (λ id, id < local_lu_map_t._loc_nb lu) [0; 1] ∧
  Forall (λ id, id < local_m_map_t._loc_nb mm) [0; 1] ∧
  local_lu_map_t.bounds NO_BOUND lu [0; 1] [0; 0]%Z [0; 0]%Z
  = Some (pointwise_max_list NO_BOUND 2 [[3; NO_BOUND]; [1; 5]]%Z,
          pointwise_max_list NO_BOUND 2 [[NO_BOUND; 2]; [4; NO_BOUND]]%Z) ∧
  local_m_map_t.bounds NO_BOUND mm [0; 1] [0; 0]%Z
  = Some (pointwise_max_list NO_BOUND 2 [[3; 2]; [4; NO_BOUND]]%Z).
Proof.
  assert (Hlu : local_lu_map_t.wf lu) by (repeat split; repeat constructor).
  assert (Hmm : local_m_map_t.wf mm) by (repeat split; repeat constructor).
  assert (Hvloc : Forall (λ id, id < local_lu_map_t._loc_nb lu) [0; 1])
    by (repeat constructor).
  assert (Hvloc' : Forall (λ id, id < local_m_map_t._loc_nb mm) [0; 1])
    by (repeat constructor).
  destruct (local_bounds_vloc_is_pointwise_max NO_BOUND lu mm [0; 1]
              [0; 0]%Z [0; 0]%Z [0; 0]%Z Hlu ltac:(simpl; lia) eq_refl eq_refl
              Hvloc Hmm ltac:(simpl; lia) eq_refl Hvloc')
    as [(per & Hper & Hbounds) (per' & Hper' & Hbounds')].
  injection Hper as <-. injection Hper' as <-.
  split_and!; [exact Hlu|exact Hmm|exact Hvloc|exact Hvloc'|exact Hbounds|exact Hbounds'].
Defined.

(** *** More on the example maps *)

(** The example maps obey the invariants of their classes. *)
Lemma lu_wf : local_lu_map_t.wf lu.
Proof. repeat split; repeat constructor. Qed.

Lemma mm_wf : local_m_map_t.wf mm.
Proof. repeat split; repeat constructor. Qed.

Lemma glu_ok : global_lu_ok glu.
Proof. intros _. by eexists _, _. Qed.

Lemma gm_ok : global_m_ok gm.
Proof. intros _. by eexists. Qed.

(** X4 on the map [3, 5], updated by [4, NO_BOUND] and by [1, 7]: both
    orders give [4, 7]. *)
Lemma update_map_order_witness :
  update_map [3; 5]%Z [4; NO_BOUND]%Z = Some (true, [4; 5]%Z) ∧
  update_map [4; 5]%Z [1; 7]%Z = Some (true, [4; 7]%Z) ∧
  ∃ mb' map1' ma',
    update_map [3; 5]%Z [1; 7]%Z = Some (mb', map1') ∧
    update_map map1' [4; NO_BOUND]%Z = Some (ma', [4; 7]%Z) ∧
    (mb' || ma') = true.
Proof.
  assert (H1 : update_map [3; 5]%Z [4; NO_BOUND]%Z = Some (true, [4; 5]%Z))
    by reflexivity.
  assert (H2 : update_map [4; 5]%Z [1; 7]%Z = Some (true, [4; 7]%Z))
    by reflexivity.
  destruct (update_map_order_is_irrelevant _ _ _ _ _ _ _ H1 H2)
    as (mb' & map1' & ma' & Hb & Ha & _ & Hflags).
  split_and!; [exact H1|exact H2|].
  exists mb', map1', ma'. split_and!; [exact Hb|exact Ha|by rewrite <- Hflags].
Defined.

(** X6 on the example maps: the query fails at the location 2, which is
    not a location, and on an array of three entries; it succeeds at the
    location 1 on arrays of two entries. *)
Lemma local_bounds_succeed_witness :
  local_lu_map_t.wf lu ∧ local_m_map_t.wf mm ∧
  local_lu_map_t.bounds NO_BOUND lu [0; 2] [0; 0]%Z [0; 0]%Z = None ∧
  local_m_map_t.bounds_loc NO_BOUND mm 1 [0; 0; 0]%Z = None ∧
  is_Some (local_lu_map_t.bounds_loc NO_BOUND lu 1 [0; 0]%Z [0; 0]%Z).
Proof.
  destruct (local_bounds_succeed_iff NO_BOUND lu mm [0; 2] 1
              [0; 0]%Z [0; 0]%Z [0; 0; 0]%Z lu_wf mm_wf)
    as (Hloc & Hvloc & Hmloc & _).
  split_and!; [exact lu_wf|exact mm_wf| | |].
  - apply eq_None_not_Some. intros (_ & _ & _ & Hall)%Hvloc.
    apply Forall_cons in Hall as [_ Hall]. apply Forall_cons in Hall as [H2 _].
    simpl in H2. lia.
  - apply eq_None_not_Some. intros (_ & _ & Hcap)%Hmloc. discriminate Hcap.
  - apply Hloc. simpl. unfold capacity. simpl. lia.
Defined.

(** X7 on the example LU map: the arrays [7, 7] and [0, 0] give the same
    bounds. *)
Lemma local_bounds_overwrite_witness :
  capacity [7; 7]%Z = capacity [0; 0]%Z ∧
  local_lu_map_t.bounds NO_BOUND lu [0; 1] [7; 7]%Z [7; 7]%Z
  = local_lu_map_t.bounds NO_BOUND lu [0; 1] [0; 0]%Z [0; 0]%Z ∧
  local_lu_map_t.bounds NO_BOUND lu [0; 1] [7; 7]%Z [7; 7]%Z
  = Some ([3; 5]%Z, [4; 2]%Z).
Proof.
  assert (H : capacity [7; 7]%Z = capacity [0; 0]%Z) by reflexivity.
  destruct (local_bounds_overwrite_their_arguments NO_BOUND lu mm [0; 1] 0
              [0; 0]%Z [0; 0]%Z [0; 0]%Z [7; 7]%Z [7; 7]%Z [7; 7]%Z H H H)
    as (_ & Hvloc & _).
  split_and!; [exact H|exact Hvloc|reflexivity].
Defined.

(** X8 on the example maps: the tuples (0, 1) and (1, 0, 1, 1) have the
    same bounds. *)
Lemma local_bounds_set_of_locations_witness :
  local_lu_map_t.wf lu ∧ local_m_map_t.wf mm ∧
  (∀ id, id ∈ [0; 1] ↔ id ∈ [1; 0; 1; 1]) ∧
  local_lu_map_t.bounds NO_BOUND lu [1; 0; 1; 1] [0; 0]%Z [0; 0]%Z
  = local_lu_map_t.bounds NO_BOUND lu [0; 1] [0; 0]%Z [0; 0]%Z ∧
  local_m_map_t.bounds NO_BOUND mm [1; 0; 1; 1] [0; 0]%Z
  = local_m_map_t.bounds NO_BOUND mm [0; 1] [0; 0]%Z.
Proof.
  assert (Hsame : ∀ id, id ∈ [0; 1] ↔ id ∈ [1; 0; 1; 1]).
  { intros id. rewrite !elem_of_cons, !elem_of_nil. lia. }
  destruct (local_bounds_depend_on_the_set_of_locations NO_BOUND lu mm
              [0; 1] [1; 0; 1; 1] [0; 0]%Z [0; 0]%Z [0; 0]%Z lu_wf mm_wf Hsame)
    as [Hlu Hmm].
  split_and!; [exact lu_wf|exact mm_wf|exact Hsame|exact Hlu|exact Hmm].
Defined.

(** X9 on the example maps, which have no entry below [NO_BOUND]: the
    bounds of the location 0 are the arrays stored for it. *)
Lemma local_bounds_at_a_location_witness :
  local_lu_map_t.bounds_loc NO_BOUND lu 0 [0; 0]%Z [0; 0]%Z
  = Some ([3; NO_BOUND]%Z, [NO_BOUND; 2]%Z) ∧
  local_m_map_t.bounds_loc NO_BOUND mm 0 [0; 0]%Z = Some [3; 2]%Z.
Proof.
  destruct (local_bounds_at_a_location_are_the_stored_bounds NO_BOUND lu mm 0
              [0; 0]%Z [0; 0]%Z [0; 0]%Z lu_wf ltac:(simpl; lia) eq_refl eq_refl
              ltac:(simpl; lia) mm_wf ltac:(simpl; lia) eq_refl ltac:(simpl; lia))
    as (l & u & m & Hl & Hu & Hm & _ & _ & Hlu & Hmm & _).
  injection Hl as <-. injection Hu as <-. injection Hm as <-.
  split.
  - apply Hlu; repeat constructor; unfold NO_BOUND; lia.
  - apply Hmm; repeat constructor; unfold NO_BOUND; lia.
Defined.

(** X10 on the example maps: their copies are equal to them. *)
Lemma local_copy_witness :
  local_lu_map_t.copy NO_BOUND lu = Some lu ∧
  local_m_map_t.copy NO_BOUND mm = Some mm.
Proof.
  destruct (local_copy_constructors_copy NO_BOUND lu mm) as (Hlu & Hmm & _).
  split; [apply Hlu|apply Hmm]; (exact lu_wf || exact mm_wf || (simpl; lia)).
Defined.

(** X11 on the example LU map: the query at the location 0 succeeds on
    the map, and fails on the object that the move constructor builds from
    it; the destructor of the map moved from reads out of range. *)
Lemma local_lu_move_witness :
  is_Some (local_lu_map_t.bounds_loc NO_BOUND lu 0 [0; 0]%Z [0; 0]%Z) ∧
  local_lu_map_t.bounds_loc NO_BOUND (local_lu_map_t.move lu).1 0
    [0; 0]%Z [0; 0]%Z = None ∧
  local_lu_map_t._L (local_lu_map_t.move lu).1 = local_lu_map_t._L lu ∧
  local_lu_map_t.clear (local_lu_map_t.move lu).2 = None.
Proof.
  pose proof (local_lu_move_constructor_resets_the_object_constructed
                NO_BOUND lu mm) as Hmove.
  destruct (local_lu_map_t.move lu) as [this m'] eqn:Hm.
  destruct Hmove as (HL & _ & _ & _ & _ & Hloc & _ & _ & _ & _ & _ & Hclear & _).
  split_and!; [by eexists|apply Hloc|exact HL|].
  apply Hclear; simpl; lia.
Defined.

(** X12: the example LU map assigned to a map of three locations and
    one clock. *)
Lemma local_lu_assignments_witness :
  local_lu_map_t.move_assign (local_lu_map_t.resize NO_BOUND 3 1) lu
  = Some (lu, local_lu_map_t.mk 0 0 [] []) ∧
  local_lu_map_t.copy_assign NO_BOUND (local_lu_map_t.resize NO_BOUND 3 1) lu
  = Some lu.
Proof.
  destruct (local_lu_assignments_replace_the_target NO_BOUND
              (local_lu_map_t.resize NO_BOUND 3 1) lu
              (λ _, local_lu_resize_wf NO_BOUND 3 1 ltac:(lia)))
    as [Hmove Hcopy].
  split; [exact Hmove|]. apply Hcopy; [exact lu_wf|simpl; lia].
Defined.

(** X13 on the example global maps: [clear] leaves the pointers of the
    LU map dangling and resets that of the M map; [resize] to three
    clocks gives arrays of [NO_BOUND]. *)
Lemma global_resize_and_clear_witness :
  global_lu_ok glu ∧ global_m_ok gm ∧
  global_lu_map_t.clear glu = Some (global_lu_map_t.mk 0 dangling dangling) ∧
  global_m_map_t.clear gm = Some (global_m_map_t.mk 0 null) ∧
  ∃ lu', global_lu_map_t.resize NO_BOUND glu 3 = Some lu' ∧
         global_lu_map_t.L lu' = Some [NO_BOUND; NO_BOUND; NO_BOUND].
Proof.
  destruct (global_resize_and_clear_guard_the_pointers NO_BOUND glu gm 3
              glu_ok gm_ok)
    as ((lu' & Hresize & _ & _ & HL & _) & _
        & (lu0 & Hclear & _ & Hn & Hdangling & _) & Hclear').
  split_and!; [exact glu_ok|exact gm_ok| |exact Hclear'|].
  - rewrite Hclear. destruct lu0 as [n L U]. simpl in *.
    destruct Hdangling as [-> ->]; [lia|]. by rewrite Hn.
  - exists lu'. split; [exact Hresize|exact HL].
Defined.

(** X14 on the example global LU map: the bounds at the location 99 and
    at the empty tuple are the stored arrays, the entry -5 being
    reported as [NO_BOUND]. *)
Lemma global_lu_bounds_witness :
  global_lu_ok glu ∧
  global_lu_map_t.bounds_loc NO_BOUND glu 99 [0; 0]%Z [0; 0]%Z
  = Some ([3; NO_BOUND]%Z, [NO_BOUND; 2]%Z) ∧
  global_lu_map_t.bounds_vloc NO_BOUND glu [] [0; 0]%Z [0; 0]%Z
  = Some ([3; NO_BOUND]%Z, [NO_BOUND; 2]%Z).
Proof.
  destruct (global_lu_bounds_are_the_same_at_every_location NO_BOUND glu
              [0; 0]%Z [0; 0]%Z glu_ok ltac:(simpl; lia) eq_refl eq_refl)
    as (l & u & Hl & Hu & _ & _ & Hloc).
  injection Hl as <-. injection Hu as <-.
  split_and!; [exact glu_ok|exact (proj1 (Hloc 99 []))|exact (proj2 (Hloc 99 []))].
Defined.

(** X15 on the example global M map, of two clocks: an array of one
    entry is filled, an array of three entries is not. *)
Lemma global_m_bounds_witness :
  global_m_ok gm ∧
  global_m_map_t.bounds NO_BOUND gm [0]%Z = Some [3]%Z ∧
  global_m_map_t.bounds NO_BOUND gm [0; 0]%Z = Some [3; NO_BOUND]%Z ∧
  global_m_map_t.bounds NO_BOUND gm [0; 0; 0]%Z = None.
Proof.
  destruct (global_m_bounds_do_not_check_the_capacity NO_BOUND gm [0]%Z
              gm_ok ltac:(simpl; lia)) as (mM & HM & Hshort & _).
  destruct (global_m_bounds_do_not_check_the_capacity NO_BOUND gm [0; 0; 0]%Z
              gm_ok ltac:(simpl; lia)) as (_ & _ & _ & Hlong & _).
  injection HM as <-.
  split_and!; [exact gm_ok| |reflexivity|].
  - apply Hshort. simpl. lia.
  - apply Hlong. simpl. lia.
Defined.

End clockbounds_examples.

Module refzg_examples.
Import refzg refzg_proofs examples.

Lemma ta_hash_value_by_content (st : ta.store_t (list nat) (list Z))
    (s1 s2 : ta.state_t) :
  ta.op_eq st s1 s2 = true → ta_hash_value st s1 = ta_hash_value st s2.
Proof.
  intros [Hvloc Hintval]%ta_op_eq_true. unfold ta_hash_value.
  by rewrite Hvloc, Hintval.
Qed.

Lemma ta_shared_hash_value_by_address (s1 s2 : ta.state_t) :
  ta.shared_equal_to s1 s2 = true →
  ta_shared_hash_value s1 = ta_shared_hash_value s2.
Proof. by intros ->%ta_shared_equal_to_true. Qed.

(** C7 on two states that have the same contents at different addresses:
    they are equal, and their hashes are equal. *)
Lemma hashes_agree_witness :
  op_eq store state_a state_b = true ∧
  hash_value ta_hash_value zone_hash_value hash_combine store state_a
  = hash_value ta_hash_value zone_hash_value hash_combine store state_b.
Proof.
  assert (Heq : op_eq store state_a state_b = true) by reflexivity.
  split; [exact Heq|].
  exact (proj1 (hashes_agree_with_equalities ta_hash_value ta_shared_hash_value
                  zone_hash_value ptr_hash_value hash_combine
                  store state_a state_b
                  ta_hash_value_by_content ta_shared_hash_value_by_address) Heq).
Defined.

(** The two families are not to be mixed: the same two states are not equal
    as shared objects, and their shared hashes differ. *)
Lemma equal_states_with_distinct_shared_hashes :
  op_eq store state_a state_b = true ∧
  shared_equal_to state_a state_b = false ∧
  shared_hash_value ta_shared_hash_value ptr_hash_value hash_combine state_a
  ≠ shared_hash_value ta_shared_hash_value ptr_hash_value hash_combine state_b.
Proof. by vm_compute. Qed.

(** C10 with inclusions of zones that never hold: a state is below itself
    for the four shared tests, while the test by content fails. *)
Lemma shared_inclusions_witness :
  shared_is_le never store state_a state_a = true ∧
  shared_is_alu_star_le never_lu store state_a state_a [] [] = true ∧
  shared_is_time_elapse_alu_star_le never_lu store state_a state_a [] [] = true ∧
  shared_is_sync_alu_le never_lu store state_a state_a [] [] = true ∧
  op_le never store state_a state_a = false.
Proof.
  destruct (shared_inclusions_same_zone_pointer never never_lu never_lu never_lu
              store [] []) as [Hsame _].
  destruct (Hsame state_a state_a eq_refl eq_refl) as (H1 & H2 & H3 & H4).
  by split_and!.
Defined.

(** *** An inclusion of zones that is a preorder *)

Lemma shorter_refl (z : list Z) : shorter z z = true.
Proof. by apply bool_decide_eq_true. Qed.

Lemma shorter_trans (z1 z2 z3 : list Z) :
  shorter z1 z2 = true → shorter z2 z3 = true → shorter z1 z3 = true.
Proof.
  unfold shorter. rewrite !bool_decide_eq_true. by intros ? ?; etrans.
Qed.

(** X18 on the two states that have the same contents: each is below
    the other. *)
Lemma op_le_preorder_witness :
  op_le shorter store state_a state_b = true ∧
  op_le shorter store state_b state_a = true ∧
  op_le shorter store state_a state_a = true ∧
  op_eq store state_a state_b = op_eq store state_b state_a.
Proof.
  destruct (op_le_is_a_preorder_above_op_eq shorter store
              shorter_refl shorter_trans)
    as (_ & Hsym & _ & _ & Hrefl & Htrans & Hle & _).
  assert (Hab : op_eq store state_a state_b = true) by reflexivity.
  assert (Hba : op_eq store state_b state_a = true) by (by rewrite <- Hsym).
  split_and!; [by apply Hle|by apply Hle| |apply Hsym].
  apply (Htrans state_a state_b state_a); by apply Hle.
Defined.

(** X20 on the same states: the shared test of a state against itself
    and its test by content both hold; across the two addresses the test
    by content holds and the shared test does not. *)
Lemma shared_inclusions_agree_witness :
  shared_is_le shorter store state_a state_a = true ∧
  op_le shorter store state_a state_a = true ∧
  shared_is_sync_alu_le shorter_lu store state_a state_b [] [] = false ∧
  is_sync_alu_le shorter_lu store state_a state_b [] [] = true.
Proof.
  destruct (shared_inclusions_agree_with_inclusions_by_content
              shorter shorter_lu shorter_lu shorter_lu store state_a state_a [] []
              shorter_refl (λ z, shorter_refl z) (λ z, shorter_refl z)
              (λ z, shorter_refl z))
    as (Hle & _ & _ & _ & _).
  assert (Hshared : shared_is_le shorter store state_a state_a = true)
    by reflexivity.
  split_and!; [exact Hshared|exact (Hle Hshared)|reflexivity|reflexivity].
Defined.

End refzg_examples.

Module reach_examples.
Import graph_spec graph_proofs waiting_spec waiting_proofs reach_spec reach_proofs examples.

(** *** A run that does not return *)

Lemma counter_loop_never_returns (fuel k : nat) (g : graph.t nat unit)
    (stats : reach.stats_t) :
  states g = seq 0 (S k) →
  reach.while_waiting Nat.eqb fuel counter 0%N g
    (waiting.mk_container waiting.BFS [k]) stats = None.
Proof.
  revert k g stats. induction fuel as [|fuel IH]; intros k g stats Hstates; [done|].
  assert (Hlen : length (graph.nodes g) = S k).
  { by rewrite <- length_states, Hstates, length_seq. }
  assert (Hk : graph.node_state_ptr g k = Some k).
  { rewrite node_state_ptr_lookup, Hstates. apply lookup_seq_lt. lia. }
  cbn [reach.while_waiting]. unfold reach.visit, reach.accepting. simpl.
  rewrite (state_of_valid _ _ _ Hk). simpl.
  destruct (add_node_cases Nat.eqb g (S k))
    as [(n & nd & Hadd & Hn & Hc & _)|[Hadd Hall]].
  - apply Nat.eqb_eq in Hc.
    assert (Hin : states g !! n = Some (S k)).
    { unfold states. rewrite list_lookup_fmap, Hn. simpl. by rewrite Hc. }
    rewrite Hstates in Hin. apply lookup_seq in Hin. lia.
  - rewrite Hadd. simpl. rewrite Hlen. apply IH.
    unfold states in *. cbn [graph.add_edge graph.nodes].
    rewrite fmap_app, Hstates. by rewrite (seq_S (S k)).
Qed.

(** C3 as stated fails: on the counter, with no label, the run returns
    for no amount of fuel. *)
Lemma counter_run_never_returns :
  ¬ ∃ fuel r,
      reach.run Nat.eqb fuel counter graph.empty 0%N
        (waiting.factory waiting.BFS) 0%Z 0%Z = Some r.
Proof.
  intros (fuel & r & Hrun). unfold reach.run, reach.run_from_waiting in Hrun.
  simpl in Hrun. by rewrite (counter_loop_never_returns fuel 0) in Hrun.
Qed.

(** *** The cycle of three states *)

Lemma cycle_finite : finite_ts cycle [0; 1; 2].
Proof.
  split.
  - intros sst status s t [= <-] Hin. apply list_elem_of_singleton in Hin.
    injection Hin as _ -> _. set_solver.
  - intros s0 sst status s t Hs0 [= <-] Hin. apply list_elem_of_singleton in Hin.
    injection Hin as _ -> _.
    repeat (apply elem_of_cons in Hs0 as [->|Hs0]; [set_solver|]).
    by apply elem_of_nil in Hs0.
Qed.

(** C3, amended, on the cycle: with no label the run returns the full
    graph of three nodes and [reachable] false. *)
Lemma run_on_cycle_witness :
  (∀ s, (s =? s) = true) ∧ finite_ts cycle [0; 1; 2] ∧
  explored Nat.eqb cycle [0; 1; 2] graph.empty ∧
  contents (waiting.factory waiting.BFS) = [] ∧ length [0; 1; 2] < 4 ∧
  ∃ g' stats',
    reach.run Nat.eqb 4 cycle graph.empty 0%N (waiting.factory waiting.BFS)
      10%Z 25%Z = Some (Ok (g', stats')) ∧
    reach.reachable stats' = false ∧
    full_graph Nat.eqb cycle g'.
Proof.
  assert (Hfuel : length [0; 1; 2] < 4) by (simpl; lia).
  split_and!; [exact Nat.eqb_refl|exact cycle_finite|apply explored_empty
              |reflexivity|exact Hfuel|].
  destruct (run_on_finite_ts_ends_in_one_of_three_ways Nat.eqb cycle [0; 1; 2] 0%N
              graph.empty (waiting.factory waiting.BFS) 10%Z 25%Z
              Nat.eqb_refl cycle_finite (explored_empty Nat.eqb cycle [0; 1; 2])
              (factory_contents waiting.BFS)) as [_ Hrun].
  destruct (Hrun 4 Hfuel) as (r & Hr & Hpost).
  vm_compute in Hr. injection Hr as <-. simpl in Hpost.
  destruct Hpost as [_ Hfull]. by eexists _, _.
Defined.

(** *** An accepting node *)

(** C1 on the graph of two nodes, with node 1 (state 2, label 2) first in
    the waiting container: the run ends there, also when [next] throws. *)
Lemma accepting_node_witness :
  let w := waiting.mk_container waiting.BFS [1; 0] in
  waiting.empty w = false ∧
  graph.node_state_ptr two_nodes (waiting.first w) = Some 2 ∧
  bitset.none 4%N = false ∧
  bitset.is_subset_of 4%N (ts.labels cycle 2) = true ∧
  ts.is_valid_final cycle 2 = true ∧
  reach.run_from_waiting Nat.eqb 1 cycle two_nodes 4%N w reach.new_stats
  = Some (Ok (graph.mk [graph.mk_node 0 true false; graph.mk_node 2 false true]
                [(0, 1, ())],
              waiting.mk_container waiting.BFS [],
              reach.mk_stats (stats.mk 0 0) 1 0 true)) ∧
  reach.run_from_waiting Nat.eqb 1 broken two_nodes 4%N w reach.new_stats
  = reach.run_from_waiting Nat.eqb 1 cycle two_nodes 4%N w reach.new_stats ∧
  reach.popped Nat.eqb 1 cycle 4%N two_nodes w reach.new_stats = [1].
Proof.
  intros w.
  assert (H1 : waiting.empty w = false) by reflexivity.
  assert (H2 : graph.node_state_ptr two_nodes (waiting.first w) = Some 2)
    by reflexivity.
  assert (H3 : bitset.none 4%N = false) by reflexivity.
  assert (H4 : bitset.is_subset_of 4%N (ts.labels cycle 2) = true) by reflexivity.
  assert (H5 : ts.is_valid_final cycle 2 = true) by reflexivity.
  destruct (accepting_node_ends_the_run Nat.eqb cycle 4%N two_nodes w
              reach.new_stats 0 2 H1 H2 H3 H4 H5)
    as (Hrun & _ & _ & Hpopped & _ & Hnext & _).
  split_and!; [exact H1|exact H2|exact H3|exact H4|exact H5|exact Hrun
              |exact (Hnext broken eq_refl eq_refl)|exact Hpopped].
Defined.

(** *** Successors and initial states *)

(** C2 on the graph of two nodes: the successor of state 5 is new, it
    becomes node 2, is inserted into the waiting container and gets an
    edge; added again, it is node 2 and the graph stays as it is. *)
Lemma successor_witness :
  let w := waiting.mk_container waiting.DFS [7] in
  let g1 := graph.mk (graph.nodes two_nodes ++ [graph.mk_node 5 false false])
              (graph.edges two_nodes) in
  graph.add_node Nat.eqb two_nodes 5 = (true, 2, g1) ∧
  reach.add_successor Nat.eqb 0 (two_nodes, w, reach.new_stats) (STATE_OK, 5, ())
  = (graph.add_edge g1 0 2 (), waiting.insert w 2,
     reach.incr_visited_transitions reach.new_stats) ∧
  graph.add_node Nat.eqb g1 5 = (false, 2, g1) ∧
  ¬ valid two_nodes 2 ∧
  (0, 2, ()) ∈ graph.edges (graph.add_edge g1 0 2 ()).
Proof.
  intros w g1.
  assert (Hadd : graph.add_node Nat.eqb two_nodes 5 = (true, 2, g1))
    by reflexivity.
  destruct (successor_is_interned_pushed_when_new Nat.eqb 0 two_nodes w
              reach.new_stats STATE_OK 5 () true 2 g1 Hadd)
    as (Hstep & Hagain & Hnew & _ & Hedge & _).
  split_and!; [exact Hadd|exact Hstep|exact (Hagain eq_refl)
              |exact (proj1 Hnew eq_refl)|exact Hedge].
Defined.

(** C9 on the graph of two nodes: the initial state 2 is known (node 1,
    not flagged), its node gets the flag and is not inserted. *)
Lemma initial_node_witness :
  let w := waiting.mk_container waiting.DFS [7] in
  graph.add_node Nat.eqb two_nodes 2 = (false, 1, two_nodes) ∧
  graph.node_initial two_nodes 1 = Some false ∧
  reach.add_initial Nat.eqb (two_nodes, w) (STATE_OK, 2, ())
  = (graph.node_set_initial two_nodes 1 true, w) ∧
  graph.node_initial (graph.node_set_initial two_nodes 1 true) 1 = Some true.
Proof.
  intros w.
  assert (Hadd : graph.add_node Nat.eqb two_nodes 2 = (false, 1, two_nodes))
    by reflexivity.
  destruct (initial_node_is_flagged_pushed_when_new Nat.eqb two_nodes w
              STATE_OK 2 () false 1 two_nodes Hadd)
    as (Hstep & Hflag & _).
  split_and!; [exact Hadd|reflexivity|exact Hstep|exact Hflag].
Defined.

(** *** Statistics *)

(** C8 on the cycle, from the graph and the container seeded with the
    initial state: three nodes are removed, and visited. *)
Lemma statistics_witness :
  let g := graph.mk [graph.mk_node 0 true false] [] in
  let w := waiting.mk_container waiting.BFS [0] in
  ∃ g' w' stats',
    reach.run_from_waiting Nat.eqb 4 cycle g 0%N w reach.new_stats
    = Some (Ok (g', w', stats')) ∧
    reach.popped Nat.eqb 4 cycle 0%N g w reach.new_stats = [0; 1; 2] ∧
    reach.visited_states stats' = 3%N ∧
    dom (reach.attributes pretty (Some 1234%Z) stats' ∅)
    = {["RUNNING_TIME_SECONDS"; "MEMORY_MAX_RSS"; "VISITED_STATES";
        "VISITED_TRANSITIONS"; "REACHABLE"]}.
Proof.
  intros g w.
  destruct (statistics_keys_and_counters Nat.eqb cycle 0%N pretty (Some 1234%Z))
    as (_ & _ & Hrun).
  destruct (reach.run_from_waiting Nat.eqb 4 cycle g 0%N w reach.new_stats)
    as [[[[g' w'] stats']|e]|] eqn:Hr; [|by vm_compute in Hr..].
  destruct (Hrun 4 g w reach.new_stats g' w' stats' Hr) as [Hstates _].
  exists g', w', stats'. split_and!; [done|reflexivity|exact Hstates|].
  vm_compute in Hr. injection Hr as _ _ <-. by vm_compute.
Defined.

(** *** Whole runs again *)

(** X24 on the graph of two nodes, explored from its node 1 on the
    cycle: the successor of the state 2 is the state 0, which has a
    node; the two nodes stay, and the edge from node 1 to node 0 is
    added after the edge that was there. *)
Lemma run_only_adds_witness :
  ∃ g' w' stats',
    reach.run_waiting Nat.eqb 3 cycle two_nodes 0%N
      (waiting.mk_container waiting.DFS [1]) 0%Z 9%Z = Some (Ok (g', w', stats')) ∧
    extends two_nodes g' ∧
    states g' = [0; 2] ∧ graph.edges g' = [(0, 1, ()); (1, 0, ())].
Proof.
  destruct (reach.run_waiting Nat.eqb 3 cycle two_nodes 0%N
              (waiting.mk_container waiting.DFS [1]) 0%Z 9%Z)
    as [[[[g' w'] stats']|e]|] eqn:Hr; [|by vm_compute in Hr..].
  pose proof (proj2 (run_only_adds_to_the_graph Nat.eqb cycle 3 0%N two_nodes
                       (waiting.mk_container waiting.DFS [1]) 0%Z 9%Z)
                g' w' stats' Hr) as Hext.
  exists g', w', stats'. split_and!; [done|exact Hext|..];
    vm_compute in Hr; by injection Hr as <- _ _.
Defined.

(** X26 on the cycle: three nodes and three edges are added, three
    states and three transitions are visited. *)
Lemma statistics_count_witness :
  contents (waiting.factory waiting.BFS) = [] ∧
  ∃ g' stats',
    reach.run Nat.eqb 4 cycle graph.empty 0%N (waiting.factory waiting.BFS)
      10%Z 25%Z = Some (Ok (g', stats')) ∧
    length (graph.nodes g') = 3 ∧ length (graph.edges g') = 3 ∧
    reach.visited_states stats' = 3%N ∧ reach.visited_transitions stats' = 3%N ∧
    stats.running_time (reach.base stats') = 15%Z.
Proof.
  split; [reflexivity|].
  destruct (reach.run Nat.eqb 4 cycle graph.empty 0%N (waiting.factory waiting.BFS)
              10%Z 25%Z) as [[[g' stats']|e]|] eqn:Hr; [|by vm_compute in Hr..].
  destruct (statistics_count_what_the_run_added Nat.eqb cycle 4 0%N graph.empty
              (waiting.factory waiting.BFS) 10%Z 25%Z g' stats'
              (factory_contents waiting.BFS) Hr)
    as (Htransitions & _ & Hstates & _ & _ & Htime).
  assert (Hnodes : length (graph.nodes g') = 3).
  { vm_compute in Hr. by injection Hr as <- _. }
  assert (Hedges : length (graph.edges g') = 3).
  { vm_compute in Hr. by injection Hr as <- _. }
  assert (Hreach : reach.reachable stats' = false).
  { vm_compute in Hr. by injection Hr as _ <-. }
  specialize (Hstates Hreach). rewrite Hnodes in Hstates.
  rewrite Hedges in Htransitions. simpl in *.
  exists g', stats'. split_and!; [done..|lia|lia|exact Htime].
Defined.

(** X25 on the cycle, from the empty graph. *)
Lemma run_builds_a_sound_graph_witness :
  ∃ g' stats',
    reach.run Nat.eqb 4 cycle graph.empty 0%N (waiting.factory waiting.BFS)
      10%Z 25%Z = Some (Ok (g', stats')) ∧
    sound Nat.eqb cycle g'.
Proof.
  destruct (reach.run Nat.eqb 4 cycle graph.empty 0%N (waiting.factory waiting.BFS)
              10%Z 25%Z) as [[[g' stats']|e]|] eqn:Hr; [|by vm_compute in Hr..].
  destruct (run_builds_a_sound_graph Nat.eqb cycle 4 0%N graph.empty
              (waiting.factory waiting.BFS) 10%Z 25%Z) as [Hempty Hsound].
  exists g', stats'. split; [done|]. by apply (proj1 (Hsound Hempty) g' stats').
Defined.


(** X23 on the node of state 2 of the graph of two nodes, the states
    carrying the labels 1 and 2: the node is accepting for the two labels,
    hence for the label 1 alone. *)
Lemma accepting_subsets_witness :
  bitset.none 2%N = false ∧ bitset.is_subset_of 2%N 6%N = true ∧
  reach.accepting two_nodes 1 marked 6%N = Ok (E:=reach.error_t string) true ∧
  reach.accepting two_nodes 1 marked 2%N = Ok (E:=reach.error_t string) true.
Proof.
  assert (H1 : bitset.none 2%N = false) by reflexivity.
  assert (H2 : bitset.is_subset_of 2%N 6%N = true) by reflexivity.
  assert (H3 : reach.accepting two_nodes 1 marked 6%N
               = Ok (E:=reach.error_t string) true) by reflexivity.
  destruct (accepting_for_a_label_set_is_accepting_for_its_subsets marked
              two_nodes 1 2%N 6%N H1 H2 H3) as [Hacc _].
  split_and!; [exact H1|exact H2|exact H3|exact Hacc].
Defined.

(** *** Runs that return *)

(** X28 on the ladder, which has infinitely many states, with the label
    of state 2: the run returns after three iterations, with [reachable]
    set and the node of state 2 as only final node.  And on the cycle,
    from the graph of two nodes with both nodes waiting and no label: the
    run returns with every node having its successors. *)
Lemma a_run_that_returns_witness :
  let w := waiting.mk_container waiting.BFS [0; 1] in
  Forall (λ nd, graph.final nd = false) (graph.nodes (graph.empty : graph.t nat unit)) ∧
  contents (waiting.factory waiting.BFS) = [] ∧
  (∀ n, valid (graph.empty : graph.t nat unit) n →
        closed Nat.eqb ladder graph.empty n) ∧
  (∃ g' stats',
     reach.run Nat.eqb 5 ladder graph.empty 4%N (waiting.factory waiting.BFS)
       0%Z 0%Z = Some (Ok (g', stats')) ∧
     states g' = [0; 1; 2] ∧
     reach.reachable stats' = true ∧
     accepted ladder 4%N g' stats') ∧
  Forall (λ nd, graph.final nd = false) (graph.nodes two_nodes) ∧
  (∀ n, n ∈ contents w → valid two_nodes n) ∧
  (∀ n, valid two_nodes n → n ∈ contents w ∨ closed Nat.eqb cycle two_nodes n) ∧
  ∃ g' w' stats',
    reach.run_waiting Nat.eqb 5 cycle two_nodes 0%N w 0%Z 0%Z
    = Some (Ok (g', w', stats')) ∧
    states g' = [0; 2; 1] ∧
    reach.reachable stats' = false ∧
    ∀ n, valid g' n → closed Nat.eqb cycle g' n.
Proof.
  intros w.
  assert (Hclosed : ∀ n, valid (graph.empty : graph.t nat unit) n →
                         closed Nat.eqb ladder graph.empty n).
  { intros n Hn. unfold valid in Hn. simpl in Hn. lia. }
  assert (Hfinal : Forall (λ nd, graph.final nd = false) (graph.nodes two_nodes)).
  { by repeat constructor. }
  assert (Hvalid : ∀ n, n ∈ contents w → valid two_nodes n).
  { intros n. unfold valid. simpl. rewrite !elem_of_cons, elem_of_nil. lia. }
  assert (Hwaiting : ∀ n, valid two_nodes n →
                       n ∈ contents w ∨ closed Nat.eqb cycle two_nodes n).
  { intros n. unfold valid. simpl. intros Hn. left.
    rewrite !elem_of_cons, elem_of_nil. lia. }
  split_and!; [by apply Forall_nil|reflexivity|exact Hclosed| |exact Hfinal
              |exact Hvalid|exact Hwaiting|].
  - eexists _, _. split; [vm_compute; reflexivity|].
    split_and!; [reflexivity..|].
    exact (proj1 (a_run_that_returns_accepted_or_explored_everything Nat.eqb ladder
                    5 4%N graph.empty (waiting.factory waiting.BFS) 0%Z 0%Z
                    (Forall_nil_2 _))
             (factory_contents waiting.BFS) Hclosed _ _ eq_refl).
  - eexists _, _, _. split; [vm_compute; reflexivity|].
    split_and!; [reflexivity..|].
    exact (proj2 (proj2 (a_run_that_returns_accepted_or_explored_everything
                           Nat.eqb cycle 5 0%N two_nodes w 0%Z 0%Z Hfinal)
                    Hvalid Hwaiting _ _ _ eq_refl)).
Defined.

(** X29 on the cycle, with nodes interned by equality and no label: the
    states of the graph returned are 0, 1 and 2, once each, and they are
    the states that the cycle reaches. *)
Lemma a_run_interning_by_equality_witness :
  (∀ s1 s2, (s1 =? s2) = true → s1 = s2) ∧
  contents (waiting.factory waiting.BFS) = [] ∧
  sound Nat.eqb cycle graph.empty ∧
  (∀ n, valid (graph.empty : graph.t nat unit) n →
        closed Nat.eqb cycle graph.empty n) ∧
  Forall (λ nd, graph.final nd = false) (graph.nodes (graph.empty : graph.t nat unit)) ∧
  ∃ g' stats',
    reach.run Nat.eqb 4 cycle graph.empty 0%N (waiting.factory waiting.BFS)
      0%Z 0%Z = Some (Ok (g', stats')) ∧
    reach.reachable stats' = false ∧
    states g' = [0; 1; 2] ∧
    (∀ s, s ∈ [0; 1; 2] ↔ reachable_state cycle s) ∧
    NoDup [0; 1; 2].
Proof.
  assert (Heq : ∀ s1 s2, (s1 =? s2) = true → s1 = s2).
  { intros s1 s2. apply Nat.eqb_eq. }
  assert (Hclosed : ∀ n, valid (graph.empty : graph.t nat unit) n →
                         closed Nat.eqb cycle graph.empty n).
  { intros n Hn. unfold valid in Hn. simpl in Hn. lia. }
  split_and!; [exact Heq|reflexivity|apply sound_empty|exact Hclosed
              |by apply Forall_nil|].
  eexists _, _. split; [vm_compute; reflexivity|].
  split_and!; [reflexivity..| |].
  - exact (proj1 (a_run_interning_by_equality_returns_the_reachable_states
                    Nat.eqb cycle 4 0%N graph.empty (waiting.factory waiting.BFS)
                    0%Z 0%Z _ _ Heq (factory_contents waiting.BFS)
                    (sound_empty Nat.eqb cycle) Hclosed (Forall_nil_2 _)
                    eq_refl eq_refl)).
  - exact (proj2 (a_run_interning_by_equality_returns_the_reachable_states
                    Nat.eqb cycle 4 0%N graph.empty (waiting.factory waiting.BFS)
                    0%Z 0%Z _ _ Heq (factory_contents waiting.BFS)
                    (sound_empty Nat.eqb cycle) Hclosed (Forall_nil_2 _)
                    eq_refl eq_refl) (NoDup_nil_2 (A := nat)) Nat.eqb_refl).
Defined.

End reach_examples.
